(** * Payment reconciliation and device provisioning engine

    A shallow embedding of the USSD + SMS hotspot back end (the variant
    with [safeDisconnect] / [ensureMikrotik]) and the properties of its
    session registry, notification matcher, device connection manager,
    voucher issuer and expiry sweeper.  The two polling routes only read
    the voucher store: they are programs of their own, run on the state
    between two steps of the event loop.  The connection manager and the
    voucher issuer of the variant [server.js] are at the end.

    Conventions of the embedding.
    - A JavaScript string is a [string]; its characters stand for code
      units below 256.
    - A JavaScript number is an IEEE-754 binary64 value, [spec_float] with
      precision 53 and maximal exponent 1024; [===] on numbers is [SFeqb].
    - [Date.now()] values are integers ([Z], milliseconds).
    - Request body fields range over the JSON scalars and the absent
      field; arrays and objects as field values are not modelled.
    - [console.*] output has no influence on any state and is left out. *)

From Stdlib Require Import ZArith List Bool Ascii String Lia SpecFloat Sorted.
Import ListNotations.
Local Open Scope string_scope.
Local Open Scope Z_scope.

(** ** JavaScript strings *)

Module JsString.

Definition code (c : ascii) : Z := Z.of_nat (nat_of_ascii c).

Definition len (s : string) : Z := Z.of_nat (String.length s).

(** [\d] *)
Definition is_digit (c : ascii) : bool := (48 <=? code c) && (code c <=? 57).

(** [\s], restricted to code units below 256: TAB, LF, VT, FF, CR, SP and
    NBSP.  [StrWhiteSpaceChar] of [Number] is the same set. *)
Definition is_space (c : ascii) : bool :=
  let n := code c in
  ((9 <=? n) && (n <=? 13)) || (n =? 32) || (n =? 160).

Definition is_lower (c : ascii) : bool := (97 <=? code c) && (code c <=? 122).

Definition upper (c : ascii) : ascii :=
  if is_lower c then ascii_of_nat (nat_of_ascii c - 32) else c.

(** Characters are compared after upper-casing under the [i] flag; a code
    unit of 128 or more never folds onto an ASCII letter, so folding the
    ASCII letters is the whole of it for an ASCII pattern. *)
Definition eq_ci (a b : ascii) : bool := Ascii.eqb (upper a) (upper b).

Fixpoint filter (p : ascii -> bool) (s : string) : string :=
  match s with
  | EmptyString => EmptyString
  | String c r => if p c then String c (filter p r) else filter p r
  end.

Fixpoint forallb (p : ascii -> bool) (s : string) : bool :=
  match s with
  | EmptyString => true
  | String c r => p c && forallb p r
  end.

Fixpoint map (f : ascii -> ascii) (s : string) : string :=
  match s with
  | EmptyString => EmptyString
  | String c r => String (f c) (map f r)
  end.

Fixpoint drop (n : nat) (s : string) : string :=
  match n, s with
  | O, _ => s
  | S _, EmptyString => EmptyString
  | S n', String _ r => drop n' r
  end.

Fixpoint take (n : nat) (s : string) : string :=
  match n, s with
  | O, _ => EmptyString
  | S _, EmptyString => EmptyString
  | S n', String c r => String c (take n' r)
  end.

(** [s.slice(-n)] for [n > 0]: the last [n] characters, all of [s] when it
    is shorter. *)
Definition slice_last (n : nat) (s : string) : string :=
  drop (String.length s - n) s.

(** [s.substring(a, b)] for [0 <= a <= b]. *)
Definition substring (a b : nat) (s : string) : string :=
  take (b - a) (drop a s).

Definition toUpperCase (s : string) : string := map upper s.

(** Longest prefix of characters satisfying [p], and the rest. *)
Fixpoint span (p : ascii -> bool) (s : string) : string * string :=
  match s with
  | EmptyString => (EmptyString, EmptyString)
  | String c r =>
      if p c then let '(a, b) := span p r in (String c a, b)
      else (EmptyString, s)
  end.

(** [s] without its trailing white space. *)
Fixpoint trim_end (s : string) : string :=
  match s with
  | EmptyString => EmptyString
  | String c r =>
      match trim_end r with
      | EmptyString => if is_space c then EmptyString else String c EmptyString
      | r' => String c r'
      end
  end.

Definition trim (s : string) : string :=
  trim_end (snd (span is_space s)).

End JsString.

(** ** Regular expressions

    A backtracking matcher with the priorities of the language's
    [RegExp]: alternatives left to right, greedy quantifiers, the
    leftmost start position first.  The patterns of the program use one
    capture group each, never inside a quantifier. *)

Module Regex.

Inductive re : Type :=
| Eps                                (* the empty pattern *)
| Chr (p : ascii -> bool)            (* a character class *)
| Seq (a b : re)
| Alt (a b : re)
| Rep (r : re) (lo : nat) (hi : option nat)   (* greedy r{lo,hi} *)
| Group (r : re).                    (* capture group 1 *)

Definition captures := option string.

Section Matcher.
Context {A : Type}.

Definition kont := string -> captures -> option A.

Definition hi_is_zero (hi : option nat) : bool :=
  match hi with Some O => true | _ => false end.

Definition hi_pred (hi : option nat) : option nat :=
  match hi with Some n => Some (Nat.pred n) | None => None end.

(** [RepeatMatcher]: an iteration that is not mandatory and consumes
    nothing is rejected, so [fuel] of [lo] plus the input length plus
    one is never used up (lemma [repeat_fuel] below). *)
Fixpoint repeat (m : string -> captures -> kont -> option A)
         (fuel lo : nat) (hi : option nat)
         (s : string) (c : captures) (k : kont) {struct fuel} : option A :=
  if hi_is_zero hi then k s c else
  match fuel with
  | O => None
  | S fuel' =>
      let d : kont := fun s' c' =>
        if Nat.eqb lo 0 && Nat.eqb (String.length s') (String.length s)
        then None
        else repeat m fuel' (Nat.pred lo) (hi_pred hi) s' c' k in
      if Nat.ltb 0 lo then m s c d
      else match m s c d with
           | Some x => Some x
           | None => k s c
           end
  end.

Fixpoint run (r : re) (s : string) (c : captures) (k : kont) : option A :=
  match r with
  | Eps => k s c
  | Chr p =>
      match s with
      | String ch s' => if p ch then k s' c else None
      | EmptyString => None
      end
  | Seq a b => run a s c (fun s' c' => run b s' c' k)
  | Alt a b =>
      match run a s c k with
      | Some x => Some x
      | None => run b s c k
      end
  | Rep r' lo hi => repeat (run r') (S (lo + String.length s)) lo hi s c k
  | Group r' =>
      run r' s c (fun s' _ =>
        k s' (Some (JsString.take (String.length s - String.length s') s)))
  end.
End Matcher.

(** The first match, scanning start positions from the left: the text of
    capture group 1 ([None] when the group did not take part). *)
Fixpoint search (r : re) (s : string) : option captures :=
  match run r s None (fun _ c => Some c) with
  | Some c => Some c
  | None =>
      match s with
      | EmptyString => None
      | String _ s' => search r s'
      end
  end.

(** [re.test(s)] *)
Definition test (r : re) (s : string) : bool :=
  match search r s with Some _ => true | None => false end.

(** [s.match(re)[1]] for a pattern whose group 1 always takes part. *)
Definition match1 (r : re) (s : string) : option string :=
  match search r s with
  | Some (Some g) => Some g
  | _ => None
  end.

Definition digit : re := Chr JsString.is_digit.
Definition space : re := Chr JsString.is_space.
Definition lit (c : ascii) : re := Chr (Ascii.eqb c).
Definition lit_i (c : ascii) : re := Chr (JsString.eq_ci c).
Definition star (r : re) : re := Rep r 0 None.
Definition plus (r : re) : re := Rep r 1 None.
Definition opt (r : re) : re := Rep r 0 (Some 1%nat).
Definition times (r : re) (lo hi : nat) : re := Rep r lo (Some hi).

(** The strings that a pattern matches. *)
Inductive matches : re -> string -> Prop :=
| matches_eps : matches Eps ""
| matches_chr p c : p c = true -> matches (Chr p) (String c "")
| matches_seq a b s1 s2 :
    matches a s1 -> matches b s2 -> matches (Seq a b) (s1 ++ s2)
| matches_alt_l a b s : matches a s -> matches (Alt a b) s
| matches_alt_r a b s : matches b s -> matches (Alt a b) s
| matches_rep_stop r lo hi :
    lo = O \/ hi = Some O -> matches (Rep r lo hi) ""
| matches_rep_more r lo hi s1 s2 :
    hi <> Some O ->
    matches r s1 -> matches (Rep r (Nat.pred lo) (hi_pred hi)) s2 ->
    matches (Rep r lo hi) (s1 ++ s2)
| matches_group r s : matches r s -> matches (Group r) s.

(** A matcher for [r] that leaves the captures alone. *)
Definition sound_for {A : Type} (r : re)
           (m : string -> captures -> @kont A -> option A) : Prop :=
  forall s c k x,
    m s c k = Some x ->
    exists s1 s2, s = (s1 ++ s2)%string /\ matches r s1 /\ k s2 c = Some x.

(** [m] calls its continuation on strings no longer than its input. *)
Definition local {A : Type}
           (m : string -> captures -> @kont A -> option A) : Prop :=
  forall s c k k',
    (forall s' c', (String.length s' <= String.length s)%nat ->
                   k s' c' = k' s' c') ->
    m s c k = m s c k'.

Fixpoint groupless (r : re) : bool :=
  match r with
  | Eps | Chr _ => true
  | Seq a b | Alt a b => groupless a && groupless b
  | Rep r' _ _ => groupless r'
  | Group _ => false
  end.

(** The characters that can occur in a match of a pattern. *)
Fixpoint alphabet (r : re) (c : ascii) : bool :=
  match r with
  | Eps => false
  | Chr p => p c
  | Seq a b | Alt a b => alphabet a c || alphabet b c
  | Rep r' _ _ | Group r' => alphabet r' c
  end.

(** A literal word under the [i] flag. *)
Fixpoint word_i (s : string) : re :=
  match s with
  | EmptyString => Eps
  | String c r => Seq (lit_i c) (word_i r)
  end.

End Regex.

(** ** JavaScript numbers *)

Module JsNumber.

Definition number := spec_float.

Definition prec : Z := 53.
Definition emax : Z := 1024.

Definition NaN : number := S754_nan.

(** The double nearest to an integer (ties to even). *)
Definition of_Z (z : Z) : number := binary_normalize prec emax z 0 false.

(** [a === b] on numbers. *)
Definition strict_eq (a b : number) : bool := SFeqb a b.

(** A number is falsy when it is [+0], [-0] or [NaN]. *)
Definition truthy (x : number) : bool :=
  match x with
  | S754_zero _ | S754_nan => false
  | _ => true
  end.

(** The double nearest to [(-1)^neg * m * 10^e] for [m >= 0]. *)
Definition of_decimal (neg : bool) (m e : Z) : number :=
  if m =? 0 then S754_zero neg
  else if 0 <=? e then
    binary_normalize prec emax (cond_Zopp neg (m * 10 ^ e)) 0 false
  else
    SFdiv prec emax (S754_finite neg (Z.to_pos m) 0)
                    (S754_finite false (Z.to_pos (10 ^ (- e))) 0).

Definition digit_val (c : ascii) : Z :=
  let n := JsString.code c in
  if (48 <=? n) && (n <=? 57) then n - 48
  else if (97 <=? n) && (n <=? 102) then n - 87
  else if (65 <=? n) && (n <=? 70) then n - 55
  else 99.

Definition is_digit_in (base : Z) (c : ascii) : bool := digit_val c <? base.

Fixpoint value_in (base : Z) (s : string) (acc : Z) : Z :=
  match s with
  | EmptyString => acc
  | String c r => value_in base r (acc * base + digit_val c)
  end.

Definition all_digits (base : Z) (s : string) : bool :=
  negb (String.eqb s "") && JsString.forallb (is_digit_in base) s.

(** [NonDecimalIntegerLiteral]: [0x], [0o] and [0b] forms, unsigned. *)
Definition non_decimal (s : string) : option number :=
  match s with
  | String z (String p r) =>
      let base :=
        if negb (Ascii.eqb z "0") then 0
        else if JsString.eq_ci p "x" then 16
        else if JsString.eq_ci p "o" then 8
        else if JsString.eq_ci p "b" then 2 else 0 in
      if (base =? 0) then None
      else if all_digits base r then Some (of_Z (value_in base r 0))
      else None
  | _ => None
  end.

(** An optional sign in front. *)
Definition signed (s : string) : bool * string :=
  match s with
  | String c r =>
      if Ascii.eqb c "-" then (true, r)
      else if Ascii.eqb c "+" then (false, r)
      else (false, s)
  | EmptyString => (false, s)
  end.

(** [ExponentPart] if any; the whole of [s] has to be one. *)
Definition exponent (s : string) : option Z :=
  match s with
  | EmptyString => Some 0
  | String e r =>
      if JsString.eq_ci e "e" then
        let '(neg, ds) := signed r in
        if all_digits 10 ds then Some (cond_Zopp neg (value_in 10 ds 0))
        else None
      else None
  end.

(** The digits after a decimal point, if there is one. *)
Definition fraction (s : string) : string * string :=
  match s with
  | String c r =>
      if Ascii.eqb c "." then JsString.span JsString.is_digit r
      else (EmptyString, s)
  | EmptyString => (EmptyString, s)
  end.

(** [StrUnsignedDecimalLiteral] *)
Definition unsigned_decimal (neg : bool) (s : string) : option number :=
  if String.eqb s "Infinity" then Some (S754_infinity neg)
  else
    let '(ip, r1) := JsString.span JsString.is_digit s in
    let '(fp, r2) := fraction r1 in
    if String.eqb ip "" && String.eqb fp "" then None
    else
      match exponent r2 with
      | Some e =>
          Some (of_decimal neg (value_in 10 (ip ++ fp) 0)
                               (e - JsString.len fp))
      | None => None
      end.

(** [StrNumericLiteral] *)
Definition numeric_literal (s : string) : option number :=
  match non_decimal s with
  | Some x => Some x
  | None => let '(neg, r) := signed s in unsigned_decimal neg r
  end.

(** [Number(s)] for a string [s] ([StringToNumber]): white space is
    trimmed, the empty string is [+0], a string that is not a numeric
    literal is [NaN]. *)
Definition of_string (s : string) : number :=
  let t := JsString.trim s in
  if String.eqb t "" then S754_zero false
  else match numeric_literal t with
       | Some x => x
       | None => NaN
       end.

End JsNumber.

(** ** Values of request body fields

    The fields of a body are the scalars of JSON: a field that holds an
    array or an object is outside this type, and what is proved of every
    body below is proved of the bodies whose fields are scalars. *)

Inductive value : Type :=
| Undefined                      (* the field is absent *)
| Null
| Bool (b : bool)
| Num (n : JsNumber.number)
| Str (s : string).

(** [!v] is [negb (truthy v)]. *)
Definition truthy (v : value) : bool :=
  match v with
  | Undefined | Null => false
  | Bool b => b
  | Num n => JsNumber.truthy n
  | Str s => negb (String.eqb s "")
  end.

(** [Number(v)] *)
Definition Number (v : value) : JsNumber.number :=
  match v with
  | Undefined => JsNumber.NaN
  | Null => S754_zero false
  | Bool b => if b then JsNumber.of_Z 1 else S754_zero false
  | Num n => n
  | Str s => JsNumber.of_string s
  end.

(** ** Objects used as maps

    [pendingPayments] and [vouchers] are plain objects keyed by session
    identifiers.  A version-4 UUID is never an array index, so
    [Object.keys] and [for ... in] enumerate the keys in the order in which
    they were first assigned: an association list, oldest key first.
    Assigning to a key that is present keeps its place. *)

Module Obj.
Section Obj.
Context {V : Type}.

Definition t := list (string * V).

Fixpoint get (k : string) (o : t) : option V :=
  match o with
  | [] => None
  | (k', v) :: r => if String.eqb k k' then Some v else get k r
  end.

Fixpoint set (k : string) (v : V) (o : t) : t :=
  match o with
  | [] => [(k, v)]
  | (k', v') :: r =>
      if String.eqb k k' then (k', v) :: r else (k', v') :: set k v r
  end.

Fixpoint delete (k : string) (o : t) : t :=
  match o with
  | [] => []
  | (k', v') :: r =>
      if String.eqb k k' then r else (k', v') :: delete k r
  end.

Definition keys (o : t) : list string := List.map fst o.

(** [o[k].field = ...]: the object stored under [k] is changed in place. *)
Fixpoint update (k : string) (f : V -> V) (o : t) : t :=
  match o with
  | [] => []
  | (k', v') :: r =>
      if String.eqb k k' then (k', f v') :: r else (k', v') :: update k f r
  end.
End Obj.
Arguments t : clear implicits.
End Obj.

(** ** Data model *)

Inductive status : Type := PENDING | CONFIRMED.

Definition status_eqb (a b : status) : bool :=
  match a, b with
  | PENDING, PENDING | CONFIRMED, CONFIRMED => true
  | _, _ => false
  end.

Record payment : Type := Payment {
  phone : string;
  amount : JsNumber.number;
  offer : value;
  ref : string;
  pstatus : status;
  createdAt : Z
}.

Definition with_status (st : status) (p : payment) : payment :=
  Payment (phone p) (amount p) (offer p) (ref p) st (createdAt p).

Record voucher : Type := Voucher {
  username : string;
  password : string
}.

(** What [profileMap[offer]] evaluates to when it is not [undefined]: an
    entry of the table, or a member that the object literal inherits from
    [Object.prototype] (a function or an object, hence truthy). *)
Inductive profile : Type :=
| Own (name : string)
| Inherited (key : string).

(** Calls made on the RouterOS client [mikrotik]. *)
Inductive devcall : Type :=
| Connect                                         (* mikrotik.connect() *)
| Close                                           (* mikrotik.close?.() *)
| UserAdd (name pass : string) (prof : profile).
    (* mikrotik.write('/ip/hotspot/user/add',
         ['=name=..', '=password=..', '=profile=..']) *)

(** The module-level variables, the pending [setTimeout(connectMikrotik)]
    callbacks, and the history of calls made on the client. *)
Record state : Type := State {
  mikrotikReady : bool;
  reconnecting : bool;
  pendingPayments : Obj.t payment;
  vouchers : Obj.t voucher;
  timers : nat;
  calls : list devcall
}.

Definition initial : state := State false false [] [] 0 [].

Definition set_mikrotikReady (b : bool) (s : state) : state :=
  State b (reconnecting s) (pendingPayments s) (vouchers s) (timers s)
        (calls s).
Definition set_reconnecting (b : bool) (s : state) : state :=
  State (mikrotikReady s) b (pendingPayments s) (vouchers s) (timers s)
        (calls s).
Definition set_pendingPayments (r : Obj.t payment) (s : state) : state :=
  State (mikrotikReady s) (reconnecting s) r (vouchers s) (timers s)
        (calls s).
Definition set_vouchers (v : Obj.t voucher) (s : state) : state :=
  State (mikrotikReady s) (reconnecting s) (pendingPayments s) v (timers s)
        (calls s).
Definition set_timers (n : nat) (s : state) : state :=
  State (mikrotikReady s) (reconnecting s) (pendingPayments s) (vouchers s)
        n (calls s).
Definition called (c : devcall) (s : state) : state :=
  State (mikrotikReady s) (reconnecting s) (pendingPayments s) (vouchers s)
        (timers s) (calls s ++ [c]).

(** ** Programs

    A handler is a tree of synchronous operations and of [await]s.  The
    code between two [await]s runs without interruption; at an [await] the
    task is parked and any other handler may run before it is resumed. *)

Inductive error : Type :=
| TypeError                    (* a method called on a value that lacks it *)
| Unavailable                  (* new Error('MikroTik non disponible') *)
| DeviceError.                 (* a promise of the client was rejected *)

Inductive awaited : Type :=
| OnConnect                    (* the promise of mikrotik.connect() *)
| OnWrite                      (* the promise of mikrotik.write(...) *)
| OnSettled.                   (* the promise of an async function that
                                  has already returned or thrown *)

Inductive prog (R : Type) : Type :=
| Ret (r : R)
| Throw (e : error)
| Get (k : state -> prog R)
| Put (s : state) (k : prog R)
| Call (c : devcall) (k : prog R)    (* a call on the client, not awaited *)
| Random (k : string -> prog R)      (* Math.random().toString(36) *)
| Uuid (k : string -> prog R)        (* uuidv4() *)
| Now (k : Z -> prog R)              (* Date.now() *)
| Await (a : awaited) (k : bool -> prog R).
    (* [k true] when the promise is fulfilled, [k false] when rejected *)

Arguments Ret {R} r.
Arguments Throw {R} e.
Arguments Get {R} k.
Arguments Put {R} s k.
Arguments Call {R} c k.
Arguments Random {R} k.
Arguments Uuid {R} k.
Arguments Now {R} k.
Arguments Await {R} a k.

Fixpoint bind {A B : Type} (p : prog A) (f : A -> prog B) : prog B :=
  match p with
  | Ret r => f r
  | Throw e => Throw e
  | Get k => Get (fun s => bind (k s) f)
  | Put s k => Put s (bind k f)
  | Call c k => Call c (bind k f)
  | Random k => Random (fun x => bind (k x) f)
  | Uuid k => Uuid (fun x => bind (k x) f)
  | Now k => Now (fun x => bind (k x) f)
  | Await a k => Await a (fun o => bind (k o) f)
  end.

(** [try { p } catch (err) { h }] *)
Fixpoint try_catch {A : Type} (p : prog A) (h : error -> prog A) : prog A :=
  match p with
  | Ret r => Ret r
  | Throw e => h e
  | Get k => Get (fun s => try_catch (k s) h)
  | Put s k => Put s (try_catch k h)
  | Call c k => Call c (try_catch k h)
  | Random k => Random (fun x => try_catch (k x) h)
  | Uuid k => Uuid (fun x => try_catch (k x) h)
  | Now k => Now (fun x => try_catch (k x) h)
  | Await a k => Await a (fun o => try_catch (k o) h)
  end.

(** [try { p } finally { f }] *)
Fixpoint finally {A : Type} (p : prog A) (f : prog unit) : prog A :=
  match p with
  | Ret r => bind f (fun _ => Ret r)
  | Throw e => bind f (fun _ => Throw e)
  | Get k => Get (fun s => finally (k s) f)
  | Put s k => Put s (finally k f)
  | Call c k => Call c (finally k f)
  | Random k => Random (fun x => finally (k x) f)
  | Uuid k => Uuid (fun x => finally (k x) f)
  | Now k => Now (fun x => finally (k x) f)
  | Await a k => Await a (fun o => finally (k o) f)
  end.

Declare Scope prog_scope.
Delimit Scope prog_scope with prog.
Notation "x <- p ;; q" := (bind p (fun x => q))
  (at level 61, p at next level, right associativity) : prog_scope.
Notation "p ;; q" := (bind p (fun _ => q))
  (at level 61, right associativity) : prog_scope.
Local Open Scope prog_scope.

Definition modify (f : state -> state) : prog unit :=
  Get (fun s => Put (f s) (Ret tt)).

Definition call (c : devcall) : prog unit := Call c (Ret tt).

(** [await p] for a promise [p] of the client, the call having been made. *)
Definition await_client (a : awaited) : prog unit :=
  Await a (fun ok => if ok then Ret tt else Throw DeviceError).

(** [await f(...)] for an async function [f]: the body of [f] runs up to
    its own first [await] at once; when [f] has returned or thrown, the
    caller goes on in a later turn of the job queue. *)
Definition await_async {A : Type} (f : prog A) : prog A :=
  r <- try_catch (x <- f ;; Ret (inl x)) (fun e => Ret (inr e)) ;;
  Await OnSettled (fun _ =>
    match r with
    | inl x => Ret x
    | inr e => Throw e
    end).

(** ** Device connection manager *)

Definition safeDisconnect : prog unit :=
  modify (set_mikrotikReady false) ;;
  call Close.

Definition connectMikrotik : prog unit :=
  s <- Get Ret ;;
  if mikrotikReady s || reconnecting s then Ret tt
  else
    modify (set_reconnecting true) ;;
    finally
      (try_catch
         (call Connect ;;
          await_client OnConnect ;;
          modify (set_mikrotikReady true))
         (fun _ => modify (set_mikrotikReady false)))
      (modify (set_reconnecting false)).

Definition ensureMikrotik : prog unit :=
  s <- Get Ret ;;
  (if negb (mikrotikReady s) then await_async connectMikrotik else Ret tt) ;;
  s' <- Get Ret ;;
  if negb (mikrotikReady s') then Throw Unavailable else Ret tt.

(** [mikrotik.on('error', ...)] *)
Definition onMikrotikError : prog unit :=
  safeDisconnect ;;
  s <- Get Ret ;;
  if reconnecting s then Ret tt
  else modify (fun s => set_timers (S (timers s)) s).

(** ** Voucher issuer *)

Definition write_user_add (u p : string) (prof : profile) : prog unit :=
  call (UserAdd u p prof) ;;
  await_client OnWrite.

Definition generateVoucher (profileName : profile) : prog voucher :=
  await_async ensureMikrotik ;;
  r1 <- Random Ret ;;
  let username := "SD-" ++ JsString.substring 2 7 r1 in
  r2 <- Random Ret ;;
  let password := JsString.slice_last 6 r2 in
  try_catch
    (write_user_add username password profileName)
    (fun _ =>
       safeDisconnect ;;
       await_async ensureMikrotik ;;
       write_user_add username password profileName) ;;
  Ret (Voucher username password).

(** ** Utilities *)

(** [phone.replace(/\D/g, '').slice(-9)] *)
Definition normalizePhone (phone : string) : string :=
  JsString.slice_last 9 (JsString.filter JsString.is_digit phone).

(** [normalizePhone] applied to a field of the body: a value that is not a
    string has no [replace] method. *)
Definition normalizePhone_value (phone : value) : prog string :=
  match phone with
  | Str s => Ret (normalizePhone s)
  | _ => Throw TypeError
  end.

Definition generateRef : prog string :=
  r <- Random Ret ;;
  Ret (JsString.toUpperCase (JsString.substring 2 8 r)).

(** ** Session intake: [POST /ussd/init] *)

Inductive reply : Type :=
| Status (code : Z)                     (* res.sendStatus(code) *)
| MissingParameters                     (* res.status(400).json({ error }) *)
| Created (sessionId ref : string).     (* res.json({ success: true, .. }) *)

Record ussd_body : Type := UssdBody {
  b_phone : value;
  b_amount : value;
  b_offer : value
}.

Definition ussd_init (body : ussd_body) : prog reply :=
  let phone := b_phone body in
  let amount := b_amount body in
  let offer := b_offer body in
  if negb (truthy phone) || negb (truthy amount) || negb (truthy offer)
  then Ret MissingParameters
  else
    sessionId <- Uuid Ret ;;
    ref <- generateRef ;;
    phone' <- normalizePhone_value phone ;;
    now <- Now Ret ;;
    modify (fun s =>
      set_pendingPayments
        (Obj.set sessionId
           (Payment phone' (Number amount) offer ref PENDING now)
           (pendingPayments s)) s) ;;
    Ret (Created sessionId ref).

(** ** Notification matcher: [POST /sms/incoming] *)

Record sms_body : Type := SmsBody {
  b_sender : value;
  b_message : value
}.

(** [/mvola/i] *)
Definition mvola_re : Regex.re := Regex.word_i "mvola".

(** [/mvola/i.test(sender)].  The pattern is applied to the string form of
    [sender]; the string form of a number or of a boolean has no
    occurrence of the word. *)
Definition mvola_test (sender : value) : bool :=
  match sender with
  | Str s => Regex.test mvola_re s
  | _ => false
  end.

Definition is_grouping (c : ascii) : bool :=
  Ascii.eqb c " " || Ascii.eqb c ",".

(** [\d{1,3}(?:[ ,]\d{3})*|\d+], the inside of the group *)
Definition amount_group : Regex.re :=
  Regex.Alt
    (Regex.Seq (Regex.times Regex.digit 1 3)
       (Regex.star
          (Regex.Seq (Regex.Chr is_grouping) (Regex.times Regex.digit 3 3))))
    (Regex.plus Regex.digit).

(** [\s?Ar] under the [i] flag *)
Definition currency_marker : Regex.re :=
  Regex.Seq (Regex.opt Regex.space) (Regex.word_i "Ar").

(** [/(\d{1,3}(?:[ ,]\d{3})*|\d+)\s?Ar/i] *)
Definition amount_re : Regex.re :=
  Regex.Seq (Regex.Group amount_group) currency_marker.

(** [/\((0\d{9,10})\)/] *)
Definition phone_re : Regex.re :=
  Regex.Seq (Regex.lit "(")
    (Regex.Seq
       (Regex.Group
          (Regex.Seq (Regex.lit "0") (Regex.times Regex.digit 9 10)))
       (Regex.lit ")")).

(** [/[ ,\.]/g], replaced by the empty string *)
Definition is_separator (c : ascii) : bool :=
  Ascii.eqb c " " || Ascii.eqb c "," || Ascii.eqb c ".".

Definition strip_separators (s : string) : string :=
  JsString.filter (fun c => negb (is_separator c)) s.

(** [message.match(re)]: a value that is not a string has no [match]
    method. *)
Definition match_value (re : Regex.re) (message : value)
  : prog (option string) :=
  match message with
  | Str s => Ret (Regex.match1 re s)
  | _ => Throw TypeError
  end.

(** The predicate passed to [find] *)
Definition is_match (smsAmount : JsNumber.number) (smsPhone : string)
           (p : payment) : bool :=
  status_eqb (pstatus p) PENDING &&
  JsNumber.strict_eq (amount p) smsAmount &&
  String.eqb (phone p) smsPhone.

(** [Object.keys(pendingPayments).find(id => ...)] *)
Definition find_session (smsAmount : JsNumber.number) (smsPhone : string)
           (reg : Obj.t payment) : option string :=
  List.find
    (fun id =>
       match Obj.get id reg with
       | Some p => is_match smsAmount smsPhone p
       | None => false
       end)
    (Obj.keys reg).

Definition inherited_keys : list string :=
  [ "constructor"; "hasOwnProperty"; "isPrototypeOf";
    "propertyIsEnumerable"; "toLocaleString"; "toString"; "valueOf";
    "__proto__"; "__defineGetter__"; "__defineSetter__";
    "__lookupGetter__"; "__lookupSetter__" ].

(** [profileMap[offer]] for the table
    [{ '1h': '1Heure', '5h': '5Heures', '24h': '24Heures' }]; [None] is
    [undefined].  The key is the string form of [offer]; the string form
    of a number, a boolean, [null] or [undefined] is neither in the table
    nor a member of [Object.prototype]. *)
Definition profileMap (offer : value) : option profile :=
  match offer with
  | Str k =>
      if String.eqb k "1h" then Some (Own "1Heure")
      else if String.eqb k "5h" then Some (Own "5Heures")
      else if String.eqb k "24h" then Some (Own "24Heures")
      else if List.existsb (String.eqb k) inherited_keys
           then Some (Inherited k)
      else None
  | _ => None
  end.

(** The [try { ... } catch (err) { ... } finally { ... }] block of the
    handler. *)
Definition issue (sessionId : string) (profile : profile) : prog unit :=
  finally
    (try_catch
       (voucher <- await_async (generateVoucher profile) ;;
        modify (fun s =>
          set_vouchers (Obj.set sessionId voucher (vouchers s)) s))
       (fun _ => Ret tt))
    (modify (fun s =>
       set_pendingPayments (Obj.delete sessionId (pendingPayments s)) s)).

Definition sms_incoming (body : sms_body) : prog reply :=
  let sender := b_sender body in
  let message := b_message body in
  if negb (truthy sender) || negb (truthy message) then Ret (Status 200)
  else if negb (mvola_test sender) then Ret (Status 200)
  else
    amountMatch <- match_value amount_re message ;;
    match amountMatch with
    | None => Ret (Status 200)
    | Some amountText =>
        let amount := JsNumber.of_string (strip_separators amountText) in
        phoneMatch <- match_value phone_re message ;;
        match phoneMatch with
        | None => Ret (Status 200)
        | Some phoneText =>
            let smsPhone := normalizePhone phoneText in
            s <- Get Ret ;;
            match find_session amount smsPhone (pendingPayments s) with
            | None => Ret (Status 200)
            | Some sessionId =>
                if String.eqb sessionId "" then Ret (Status 200)
                else
                  match Obj.get sessionId (pendingPayments s) with
                  | None => Throw TypeError
                  | Some payment =>
                      modify (fun s =>
                        set_pendingPayments
                          (Obj.update sessionId (with_status CONFIRMED)
                             (pendingPayments s)) s) ;;
                      match profileMap (offer payment) with
                      | None => Ret (Status 200)
                      | Some profile =>
                          issue sessionId profile ;;
                          Ret (Status 200)
                      end
                  end
            end
        end
    end.

(** ** Expiry sweeper: the [setInterval] callback *)

(** [7 * 60 * 1000] *)
Definition expiry_window : Z := 7 * 60 * 1000.

(** [60 * 1000], the period of the interval *)
Definition sweep_period : Z := 60 * 1000.

(** The body of the [for (const id in pendingPayments)] loop.  A key
    deleted before it is reached is not visited. *)
Definition sweep_one (now : Z) (reg : Obj.t payment) (id : string)
  : Obj.t payment :=
  match Obj.get id reg with
  | Some p =>
      if now - createdAt p >? expiry_window then Obj.delete id reg else reg
  | None => reg
  end.

Definition sweep (now : Z) (reg : Obj.t payment) : Obj.t payment :=
  List.fold_left (sweep_one now) (Obj.keys reg) reg.

Definition sweeper : prog unit :=
  now <- Now Ret ;;
  modify (fun s => set_pendingPayments (sweep now (pendingPayments s)) s).

(** ** Running a handler up to its next [await] *)

(** What the environment hands to one uninterrupted stretch of code: the
    clock, the next identifier of the generator, and the successive
    results of [Math.random().toString(36)] (["0"] once the list is used
    up, the string form of the random number zero). *)
Record inputs : Type := Inputs {
  i_now : Z;
  i_uuid : string;
  i_random : list string
}.

Definition no_inputs : inputs := Inputs 0 "" [].

Inductive result (R : Type) : Type :=
| Done (r : R)                              (* returned *)
| Failed (e : error)                        (* threw *)
| Parked (a : awaited) (k : bool -> prog R).   (* waiting on a promise *)

Arguments Done {R} r.
Arguments Failed {R} e.
Arguments Parked {R} a k.

Fixpoint run {R : Type} (p : prog R) (i : inputs) (s : state)
  : state * result R :=
  match p with
  | Ret r => (s, Done r)
  | Throw e => (s, Failed e)
  | Get k => run (k s) i s
  | Put s' k => run k i s'
  | Call c k => run k i (called c s)
  | Random k =>
      run (k (List.hd "0" (i_random i)))
          (Inputs (i_now i) (i_uuid i) (List.tl (i_random i))) s
  | Uuid k => run (k (i_uuid i)) i s
  | Now k => run (k (i_now i)) i s
  | Await a k => (s, Parked a k)
  end.

(** ** The event loop

    Handlers are started by requests, by the timers and by the error event
    of the client; a parked task is resumed when its promise settles. *)

Record task : Type := Task {
  waits : awaited;
  cont : bool -> prog (option reply)
}.

Record config : Type := Config {
  st : state;
  pool : list task
}.

Definition start : config := Config initial [].

(** An Express handler, and a callback whose result nobody reads. *)
Definition handler (p : prog reply) : prog (option reply) :=
  r <- p ;; Ret (Some r).
Definition callback (p : prog unit) : prog (option reply) :=
  p ;; Ret None.

Definition hex_lower (c : ascii) : bool :=
  JsString.is_digit c ||
  ((97 <=? JsString.code c) && (JsString.code c <=? 102)).

(** The shape of the identifiers that [uuidv4()] returns:
    [/^[0-9a-f]{8}-[0-9a-f]{4}-4[0-9a-f]{3}-[89ab][0-9a-f]{3}-[0-9a-f]{12}$/] *)
Definition uuid_re : Regex.re :=
  let h := Regex.Chr hex_lower in
  let dash := Regex.lit "-" in
  let variant := Regex.Chr (fun c =>
    Ascii.eqb c "8" || Ascii.eqb c "9" || Ascii.eqb c "a" || Ascii.eqb c "b") in
  Regex.Seq (Regex.times h 8 8) (Regex.Seq dash
  (Regex.Seq (Regex.times h 4 4) (Regex.Seq dash
  (Regex.Seq (Regex.lit "4") (Regex.Seq (Regex.times h 3 3) (Regex.Seq dash
  (Regex.Seq variant (Regex.Seq (Regex.times h 3 3) (Regex.Seq dash
  (Regex.times h 12 12)))))))))).

Definition is_uuid (s : string) : bool :=
  match Regex.run uuid_re s None
          (fun rest _ => if String.eqb rest "" then Some tt else None) with
  | Some _ => true
  | None => false
  end.

Inductive label : Type :=
| Listening                      (* the callback of app.listen *)
| UssdInit (body : ussd_body) (uuid random : string) (now : Z)
| SmsIncoming (body : sms_body)
| SweeperTick (now : Z)
| MikrotikError                  (* the client emits 'error' *)
| TimerFires                     (* a setTimeout(connectMikrotik) is due *)
| Resume (n : nat) (ok : bool) (random : list string).
    (* the promise of the [n]-th parked task settles *)

Definition spawn (p : prog (option reply)) (i : inputs) (c : config)
  : config :=
  match run p i (st c) with
  | (s', Parked a k) => Config s' (pool c ++ [Task a k])
  | (s', _) => Config s' (pool c)
  end.

Fixpoint remove_nth {A : Type} (n : nat) (l : list A) : list A :=
  match n, l with
  | _, [] => []
  | O, _ :: r => r
  | S n', x :: r => x :: remove_nth n' r
  end.

Definition step (c : config) (l : label) : option config :=
  match l with
  | Listening => Some (spawn (callback connectMikrotik) no_inputs c)
  | UssdInit body uuid random now =>
      if is_uuid uuid
      then Some (spawn (handler (ussd_init body))
                       (Inputs now uuid [random]) c)
      else None
  | SmsIncoming body => Some (spawn (handler (sms_incoming body)) no_inputs c)
  | SweeperTick now => Some (spawn (callback sweeper) (Inputs now "" []) c)
  | MikrotikError => Some (spawn (callback onMikrotikError) no_inputs c)
  | TimerFires =>
      match timers (st c) with
      | O => None
      | S n =>
          Some (spawn (callback connectMikrotik) no_inputs
                      (Config (set_timers n (st c)) (pool c)))
      end
  | Resume n ok random =>
      match nth_error (pool c) n with
      | None => None
      | Some t =>
          Some (spawn (cont t ok) (Inputs 0 "" random)
                      (Config (st c) (remove_nth n (pool c))))
      end
  end.

Fixpoint exec (c : config) (ls : list label) : option config :=
  match ls with
  | [] => Some c
  | l :: r =>
      match step c l with
      | Some c' => exec c' r
      | None => None
      end
  end.

(** ** What a task may do

    Two ways of speaking about every behaviour of a handler, whatever the
    other handlers do while it is parked.

    [guar G o p s0 s] bounds each uninterrupted stretch of [p]: a stretch
    that began in state [s0] (at the start of the handler, or after the
    promise named by [o] settled) and has reached [s] ends in a state and
    in a way that [G] accepts.  At an [await] the next stretch starts from
    an arbitrary state. *)

Inductive origin : Type :=
| Fresh
| After (a : awaited).

Inductive ending (R : Type) : Type :=
| Returns (r : R)
| Throws (e : error)
| Parks (a : awaited).

Arguments Returns {R} r.
Arguments Throws {R} e.
Arguments Parks {R} a.

Definition guarantee (R : Type) : Type :=
  origin -> state -> state -> ending R -> Prop.

Fixpoint guar {R : Type} (G : guarantee R) (o : origin) (p : prog R)
         (s0 s : state) : Prop :=
  match p with
  | Ret r => G o s0 s (Returns r)
  | Throw e => G o s0 s (Throws e)
  | Get k => guar G o (k s) s0 s
  | Put s' k => guar G o k s0 s'
  | Call c k => guar G o k s0 (called c s)
  | Random k => forall x, guar G o (k x) s0 s
  | Uuid k => forall x, guar G o (k x) s0 s
  | Now k => forall x, guar G o (k x) s0 s
  | Await a k =>
      G o s0 s (Parks a) /\
      forall ok s1, guar G (After a) (k ok) s1 s1
  end.

(** [outcomes P p s h] holds when every complete run of [p] from state
    [s], with [h] what it has done so far, ends with a history, a final
    state and a result that [P] accepts.  The history lists what the task
    itself did: the calls on the client, the assignments to the shared
    state, the random draws, and how each awaited promise settled.  At an
    [await] the task goes on from an arbitrary state. *)

Inductive action : Type :=
| Did (c : devcall)
| Wrote (before after : state)
| Drew (x : string)
| Settled (a : awaited) (ok : bool).

Fixpoint outcomes {R : Type}
         (P : list action -> state -> R + error -> Prop)
         (p : prog R) (s : state) (h : list action) : Prop :=
  match p with
  | Ret r => P h s (inl r)
  | Throw e => P h s (inr e)
  | Get k => outcomes P (k s) s h
  | Put s' k => outcomes P k s' (h ++ [Wrote s s'])
  | Call c k => outcomes P k (called c s) (h ++ [Did c])
  | Random k => forall x, outcomes P (k x) s (h ++ [Drew x])
  | Uuid k => forall x, outcomes P (k x) s h
  | Now k => forall x, outcomes P (k x) s h
  | Await a k => forall ok s1, outcomes P (k ok) s1 (h ++ [Settled a ok])
  end.

(** ** Reading requests and configurations *)

(** The pair (amount, phone) that the matcher extracts from a request,
    when it gets as far as searching the registry. *)
Definition confirmation (body : sms_body)
  : option (JsNumber.number * string) :=
  match b_message body with
  | Str m =>
      if truthy (b_sender body) && truthy (Str m)
         && mvola_test (b_sender body)
      then
        match Regex.match1 amount_re m, Regex.match1 phone_re m with
        | Some a, Some p =>
            Some (JsNumber.of_string (strip_separators a), normalizePhone p)
        | _, _ => None
        end
      else None
  | _ => None
  end.

(** The offer [offer] gives [undefined] in [profileMap[offer]]: its
    string form is neither a key of the table nor the name of a member
    of [Object.prototype]. *)
Definition names_no_profile (offer : value) : Prop :=
  forall k, offer = Str k ->
    ~ In k ["1h"; "5h"; "24h"] /\ ~ In k inherited_keys.

(** *** Amounts as notifications write them *)

(** Groups of a separator and three digits, one after the other. *)
Fixpoint grouped (groups : list (ascii * string)) : string :=
  match groups with
  | [] => ""
  | (sep, ddd) :: r => String sep (ddd ++ grouped r)
  end.

Fixpoint digits_of (groups : list (ascii * string)) : string :=
  match groups with
  | [] => ""
  | (_, ddd) :: r => ddd ++ digits_of r
  end.

Definition is_group (g : ascii * string) : bool :=
  is_grouping (fst g)
  && JsString.forallb JsString.is_digit (snd g)
  && Nat.eqb (String.length (snd g)) 3.

(** A written amount: a non-empty run of digits [a] followed by groups;
    when there are groups, [a] has at most three digits. *)
Definition written_amount (a : string) (groups : list (ascii * string))
  : bool :=
  negb (String.eqb a "")
  && JsString.forallb JsString.is_digit a
  && List.forallb is_group groups
  && match groups with
     | [] => true
     | _ => Nat.leb (String.length a) 3
     end.

Definition amount_text (a : string) (groups : list (ascii * string))
  : string :=
  a ++ grouped groups.

(** The integer that the digits of a written amount write. *)
Definition amount_value (a : string) (groups : list (ascii * string)) : Z :=
  JsNumber.value_in 10 (a ++ digits_of groups) 0.

(** The currency marker as written: at most one white-space character,
    then the letters [x] and [y], 'Ar' in either case. *)
Definition written_marker (ws : string) (x y : ascii) : bool :=
  match ws with
  | "" => true
  | String w "" => JsString.is_space w
  | _ => false
  end
  && JsString.eq_ci "A" x && JsString.eq_ci "r" y.

(** A truthy [message] that is not a string, reaching [message.match]. *)
Definition message_not_string (body : sms_body) : bool :=
  truthy (b_sender body) && truthy (b_message body)
  && mvola_test (b_sender body)
  && match b_message body with Str _ => false | _ => true end.

(** The record stored by a successful intake call. *)
Definition new_payment (body : ussd_body) (ph random : string) (now : Z)
  : payment :=
  Payment (normalizePhone ph) (Number (b_amount body)) (b_offer body)
          (JsString.toUpperCase (JsString.substring 2 8 random))
          PENDING now.

(** [payment.status = 'CONFIRMED'] on the session [id] *)
Definition confirm (id : string) (s : state) : state :=
  set_pendingPayments
    (Obj.update id (with_status CONFIRMED) (pendingPayments s)) s.

(** [delete pendingPayments[id]] *)
Definition forget (id : string) (s : state) : state :=
  set_pendingPayments (Obj.delete id (pendingPayments s)) s.

Definition registry (c : config) : Obj.t payment := pendingPayments (st c).

Definition status_of (id : string) (c : config) : option status :=
  option_map pstatus (Obj.get id (pendingPayments (st c))).

(** The confirmation [l], arriving in configuration [c], is matched with
    session [id]. *)
Definition consumes (c : config) (l : label) (id : string) : Prop :=
  exists body a ph,
    l = SmsIncoming body /\
    confirmation body = Some (a, ph) /\
    find_session a ph (registry c) = Some id /\
    id <> "".

(** A session survives a tick at [now] when its age is within the window. *)
Definition survives (now : Z) (kp : string * payment) : bool :=
  negb (now - createdAt (snd kp) >? expiry_window).

Definition parked_on (a : awaited) (t : task) : bool :=
  match waits t, a with
  | OnConnect, OnConnect | OnWrite, OnWrite | OnSettled, OnSettled => true
  | _, _ => false
  end.

Definition count_connecting (l : list task) : nat :=
  List.length (List.filter (parked_on OnConnect) l).

(** The connection attempts in flight: the tasks parked on the promise of
    [mikrotik.connect()]. *)
Definition in_flight (c : config) : nat := count_connecting (pool c).

(** The configuration reached by a run ([start] when the run is not one). *)
Definition after (ls : list label) : config :=
  match exec start ls with
  | Some c => c
  | None => start
  end.

(** Runs, from the last step to the first. *)
Inductive reaches : list label -> config -> Prop :=
| reaches_start : reaches [] start
| reaches_step ls c l c' :
    reaches ls c -> step c l = Some c' -> reaches (ls ++ [l])%list c'.

(** ** Assumptions on the environment of a run *)

Fixpoint ussd_ids (ls : list label) : list string :=
  match ls with
  | [] => []
  | UssdInit _ uuid _ _ :: r => uuid :: ussd_ids r
  | _ :: r => ussd_ids r
  end.

Fixpoint ussd_times (ls : list label) : list Z :=
  match ls with
  | [] => []
  | UssdInit _ _ _ now :: r => now :: ussd_times r
  | _ :: r => ussd_times r
  end.

Fixpoint nondecreasing (l : list Z) : bool :=
  match l with
  | a :: r =>
      match r with
      | b :: _ => (a <=? b) && nondecreasing r
      | [] => true
      end
  | [] => true
  end.

Fixpoint distinct (l : list string) : bool :=
  match l with
  | [] => true
  | x :: r => negb (List.existsb (String.eqb x) r) && distinct r
  end.

(** [Date.now()] does not go backwards from one intake call to the next. *)
Definition clock_monotone (ls : list label) : Prop :=
  nondecreasing (ussd_times ls) = true.

(** The identifier generator never returns the same identifier twice. *)
Definition ids_fresh (ls : list label) : Prop :=
  distinct (ussd_ids ls) = true.

(** ** Invariants of the event loop *)

(** What a task that serves the session [owner] (or none) may do in one
    stretch: it leaves the registry alone or deletes its own session,
    never in its first stretch, and it keeps to the discipline of the
    [reconnecting] flag, which is set exactly while the task is parked on
    [mikrotik.connect()]. *)
Definition keeps_flag {R : Type} (o : origin) (s0 s : state) (e : ending R)
  : Prop :=
  match o with
  | After OnConnect =>
      reconnecting s = false /\
      match e with Parks OnConnect => False | _ => True end
  | _ =>
      match e with
      | Parks OnConnect => reconnecting s0 = false /\ reconnecting s = true
      | _ => reconnecting s = reconnecting s0
      end
  end.

Definition touches {R : Type} (owner : option string) : guarantee R :=
  fun o s0 s e =>
    (pendingPayments s = pendingPayments s0 \/
     exists id, owner = Some id /\
       pendingPayments s = Obj.delete id (pendingPayments s0)) /\
    keeps_flag o s0 s e /\
    (o = Fresh -> pendingPayments s = pendingPayments s0).

Definition task_ok (owner : option string) (t : task) : Prop :=
  forall ok s1, guar (touches owner) (After (waits t)) (cont t ok) s1 s1.

Definition pool_ok (c : config) : Prop :=
  forall t, In t (pool c) -> exists owner, task_ok owner t.

(** Every step of the event loop is an immediate action on the state
    followed by one stretch of a task: [before c l s owner o base] gives
    the state [s] after the immediate action of [l] in [c], the session
    the stretch serves, where the stretch starts, and the tasks that stay
    parked. *)
Inductive before (c : config)
  : label -> state -> option string -> origin -> list task -> Prop :=
| before_listening :
    before c Listening (st c) None Fresh (pool c)
| before_timer n :
    timers (st c) = S n ->
    before c TimerFires (set_timers n (st c)) None Fresh (pool c)
| before_error :
    before c MikrotikError (st c) None Fresh (pool c)
| before_sweep now :
    before c (SweeperTick now)
      (set_pendingPayments (sweep now (pendingPayments (st c))) (st c))
      None Fresh (pool c)
| before_create body uuid random now ph :
    is_uuid uuid = true ->
    b_phone body = Str ph ->
    before c (UssdInit body uuid random now)
      (set_pendingPayments
         (Obj.set uuid (new_payment body ph random now)
                  (pendingPayments (st c))) (st c))
      None Fresh (pool c)
| before_refuse body uuid random now :
    before c (UssdInit body uuid random now) (st c) None Fresh (pool c)
| before_confirm body a ph id p :
    confirmation body = Some (a, ph) ->
    find_session a ph (pendingPayments (st c)) = Some id ->
    Obj.get id (pendingPayments (st c)) = Some p ->
    before c (SmsIncoming body) (confirm id (st c)) (Some id) Fresh (pool c)
| before_nomatch body :
    before c (SmsIncoming body) (st c) None Fresh (pool c)
| before_resume n ok random t owner :
    nth_error (pool c) n = Some t ->
    task_ok owner t ->
    before c (Resume n ok random) (st c) owner (After (waits t))
      (remove_nth n (pool c)).

Definition pool_after (base : list task) (owner : option string)
           (e : ending (option reply)) (c' : config) : Prop :=
  match e with
  | Parks a =>
      exists k, pool c' = (base ++ [Task a k])%list /\
                task_ok owner (Task a k)
  | _ => pool c' = base
  end.

(** What holds of every configuration the event loop can reach. *)
Definition well_formed (c : config) : Prop :=
  NoDup (Obj.keys (registry c)) /\
  in_flight c = (if reconnecting (st c) then 1 else 0)%nat /\
  pool_ok c.

(** A session that has been picked by the matcher once: its identifier
    has been handed out and it is no longer PENDING. *)
Definition spent (id : string) (ls : list label) (c : config) : Prop :=
  In id (ussd_ids ls) /\ status_of id c <> Some PENDING.

(** The owners of the parked tasks are sessions already picked. *)
Definition owners_spent (ls : list label) (c : config) : Prop :=
  forall t, In t (pool c) ->
    exists owner, task_ok owner t /\
      forall id, owner = Some id -> spent id ls c.

(** The sessions whose amount is [NaN] are PENDING. *)
Definition nan_pending (c : config) : Prop :=
  forall id p,
    Obj.get id (registry c) = Some p ->
    amount p = JsNumber.NaN -> pstatus p = PENDING.

(** [older x y]: the session [x] was not created after [y]. *)
Definition older (x y : string * payment) : Prop :=
  createdAt (snd x) <= createdAt (snd y).

(** [thins reg reg']: [reg'] is [reg] with some sessions deleted and some
    statuses changed, in the same order. *)
Inductive thins : Obj.t payment -> Obj.t payment -> Prop :=
| thins_nil : thins [] []
| thins_drop kp r r' : thins r r' -> thins (kp :: r) r'
| thins_keep k p status r r' :
    thins r r' -> thins ((k, p) :: r) ((k, with_status status p) :: r').

(** ** Reading the history of an issuance *)

Fixpoint user_adds (h : list action) : list devcall :=
  match h with
  | [] => []
  | Did (UserAdd u p prof) :: r => UserAdd u p prof :: user_adds r
  | _ :: r => user_adds r
  end.

Fixpoint draws (h : list action) : list string :=
  match h with
  | [] => []
  | Drew x :: r => x :: draws r
  | _ :: r => draws r
  end.

(** The history up to the first rejected [mikrotik.write], and after it. *)
Fixpoint split_at_failed_write (h : list action)
  : option (list action * list action) :=
  match h with
  | [] => None
  | Settled OnWrite false :: r => Some ([], r)
  | x :: r =>
      match split_at_failed_write r with
      | Some (a, b) => Some (x :: a, b)
      | None => None
      end
  end.

Definition write_succeeded (h : list action) : bool :=
  List.existsb
    (fun a => match a with Settled OnWrite true => true | _ => false end) h.

Definition keeps_vouchers (a : action) : Prop :=
  match a with
  | Wrote before after => vouchers after = vouchers before
  | _ => True
  end.

(** The retry policy of [generateVoucher], read off a complete history
    [h] with result [r]: when the first create-user write is rejected,
    the credentials [u], [pw] of that write are the ones made from the
    only two random draws; the very next actions are
    [mikrotikReady = false] and [mikrotik.close()]; a connection attempt
    is started next unless one is in flight; and then either
    [ensureMikrotik] throws and nothing more is written, or the same
    command is written once more and the settling of that write ends
    the issuance, with the voucher [u], [pw] or with the failure. *)
Definition retry_policy (prof : profile) (h : list action)
           (r : voucher + error) : Prop :=
  match split_at_failed_write h with
  | None => True
  | Some (h1, h2) =>
      exists r1 r2 b h3,
        let u := ("SD-" ++ JsString.substring 2 7 r1)%string in
        let pw := JsString.slice_last 6 r2 in
        draws h1 = [r1; r2] /\
        user_adds h1 = [UserAdd u pw prof] /\
        h2 = Wrote b (set_mikrotikReady false b) :: Did Close :: h3 /\
        draws h3 = [] /\
        (reconnecting b = false ->
         exists x, List.firstn 2 h3 =
                   [Wrote x (set_reconnecting true x); Did Connect]) /\
        ((user_adds h3 = [] /\ r = inr Unavailable) \/
         (user_adds h3 = [UserAdd u pw prof] /\
          exists ok,
            List.last h3 (Did Close) = Settled OnWrite ok /\
            r = if ok then inl (Voucher u pw) else inr DeviceError))
  end.

(** How the [try] block of the matcher ends, whatever the device does:
    its last action deletes the session, and a voucher has been stored
    under the session identifier exactly when a create-user write was
    fulfilled. *)
Definition issue_ends (id : string) (h : list action) (s : state) : Prop :=
  (exists b, List.last h (Did Close) = Wrote b (forget id b) /\
             s = forget id b) /\
  (write_succeeded h = false -> List.Forall keeps_vouchers h) /\
  (write_succeeded h = true ->
   exists b v, In (Wrote b (set_vouchers (Obj.set id v (vouchers b)) b)) h).

(** ** Every behaviour of the issuer, with the states it resumes in

    [behaviours] is [outcomes] with one more piece of information in the
    history: the state in which the task is resumed after each [await],
    which is what the task reads next and so what decides how it goes
    on. *)

Inductive event : Type :=
| Called (c : devcall)
| Assigned (before after : state)
| Drawn (x : string)
| Resumed (a : awaited) (ok : bool) (s : state).

Fixpoint behaviours {R : Type}
         (P : list event -> state -> R + error -> Prop)
         (p : prog R) (s : state) (h : list event) : Prop :=
  match p with
  | Ret r => P h s (inl r)
  | Throw e => P h s (inr e)
  | Get k => behaviours P (k s) s h
  | Put s' k => behaviours P k s' (h ++ [Assigned s s'])
  | Call c k => behaviours P k (called c s) (h ++ [Called c])
  | Random k => forall x, behaviours P (k x) s (h ++ [Drawn x])
  | Uuid k => forall x, behaviours P (k x) s h
  | Now k => forall x, behaviours P (k x) s h
  | Await a k =>
      forall ok s1, behaviours P (k ok) s1 (h ++ [Resumed a ok s1])
  end.

(** What one call of [connectMikrotik] does when it starts in state [s]:
    nothing under the guard; otherwise the guard flag is raised,
    [mikrotik.connect()] is called and awaited, the ready flag is written
    with the way the promise settled, and the guard flag is lowered. *)
Definition connect_events (s : state) (h : list event) : Prop :=
  if mikrotikReady s || reconnecting s then h = []
  else
    exists ok s1,
      h = [Assigned s (set_reconnecting true s);
           Called Connect;
           Resumed OnConnect ok s1;
           Assigned s1 (set_mikrotikReady ok s1);
           Assigned (set_mikrotikReady ok s1)
                    (set_reconnecting false (set_mikrotikReady ok s1))].

(** What one call of [ensureMikrotik] does when it starts in state [s],
    and how it ends: on a ready client it returns at once; otherwise it
    awaits one call of [connectMikrotik], and the ready flag of the state
    [sA] in which it is resumed decides between returning and throwing. *)
Definition ensure_events (s : state) (h : list event) (r : unit + error)
  : Prop :=
  if mikrotikReady s then h = [] /\ r = inl tt
  else
    exists hc x sA,
      connect_events s hc /\
      h = (hc ++ [Resumed OnSettled x sA])%list /\
      r = if mikrotikReady sA then inl tt else inr Unavailable.

(** The whole of a behaviour of [generateVoucher] that starts in state
    [s]: its history [h], event by event, and its result [r].  The
    create-user command is written a second time exactly when the first
    write was rejected and the [ensureMikrotik] that follows returned,
    and never a third time. *)
Definition issuer_policy (prof : profile) (s : state) (h : list event)
           (r : voucher + error) : Prop :=
  exists he re y sB,
    ensure_events s he re /\
    match re with
    | inr e => h = (he ++ [Resumed OnSettled y sB])%list /\ r = inr e
    | inl _ =>
        exists r1 r2 ok s0 rest,
          let u := ("SD-" ++ JsString.substring 2 7 r1)%string in
          let pw := JsString.slice_last 6 r2 in
          h = (he ++ [Resumed OnSettled y sB; Drawn r1; Drawn r2;
                      Called (UserAdd u pw prof); Resumed OnWrite ok s0]
                  ++ rest)%list /\
          if ok then rest = [] /\ r = inl (Voucher u pw)
          else
            exists he2 re2 y2 sB2 tail,
              rest = (Assigned s0 (set_mikrotikReady false s0)
                      :: Called Close
                      :: he2 ++ Resumed OnSettled y2 sB2 :: tail)%list /\
              ensure_events (called Close (set_mikrotikReady false s0))
                            he2 re2 /\
              match re2 with
              | inr e => tail = [] /\ r = inr e
              | inl _ =>
                  exists ok2 sC,
                    tail = [Called (UserAdd u pw prof);
                            Resumed OnWrite ok2 sC] /\
                    r = if ok2 then inl (Voucher u pw) else inr DeviceError
              end
    end.

(** ** The claims that fail, as they are worded *)

(** Once the issuance started by a matched confirmation has run to its
    end and the session is gone, the same confirmation matches nothing. *)
Definition is_resume (l : label) : bool :=
  match l with Resume _ _ _ => true | _ => false end.

Definition repeat_matches_nothing : Prop :=
  forall ls c body id c1 ls' c2,
    exec start ls = Some c ->
    consumes c (SmsIncoming body) id ->
    step c (SmsIncoming body) = Some c1 ->
    List.forallb is_resume ls' = true ->
    exec c1 ls' = Some c2 ->
    status_of id c2 = None ->
    forall id', ~ consumes c2 (SmsIncoming body) id'.

(** An intake call whose offer is not in the profile table is refused. *)
Definition intake_refuses_unknown_offer : Prop :=
  forall body i s,
    profileMap (b_offer body) = None ->
    run (handler (ussd_init body)) i s = (s, Done (Some MissingParameters)).

(** A sweeper tick leaves the CONFIRMED sessions where they are. *)
Definition sweeper_spares_confirmed : Prop :=
  forall ls c now c' id p,
    exec start ls = Some c ->
    step c (SweeperTick now) = Some c' ->
    Obj.get id (registry c) = Some p ->
    pstatus p = CONFIRMED ->
    Obj.get id (registry c') = Some p.

(** A caller of [ensureMikrotik] that arrives while an attempt is in
    flight, and that is resumed while the attempt is still in flight, is
    still waiting: it has neither returned nor thrown. *)
Definition ensure_waits_for_attempt : Prop :=
  forall s i,
    reconnecting s = true -> mikrotikReady s = false ->
    match run ensureMikrotik i s with
    | (_, Parked _ k) =>
        forall ok i1 s1,
          reconnecting s1 = true -> mikrotikReady s1 = false ->
          match run (k ok) i1 s1 with
          | (_, Parked _ _) => True
          | _ => False
          end
    | _ => False
    end.

(** Every confirmation request ends with [res.sendStatus(200)], whatever
    its body. *)
Definition always_acknowledges : Prop :=
  forall body s,
    outcomes (fun _ _ r => r = inl (Status 200)) (sms_incoming body) s [].

(** Whenever two PENDING sessions have the amount and the phone of a
    confirmation, the one created later is not the one matched. *)
Definition oldest_first_always : Prop :=
  forall ls c body a ph id1 p1 id2 p2,
    exec start ls = Some c ->
    ids_fresh ls ->
    confirmation body = Some (a, ph) ->
    Obj.get id1 (registry c) = Some p1 -> is_match a ph p1 = true ->
    Obj.get id2 (registry c) = Some p2 -> is_match a ph p2 = true ->
    createdAt p1 < createdAt p2 ->
    ~ consumes c (SmsIncoming body) id2.

(** When the handler of a matched confirmation has run to its end, the
    matched session is no longer in the registry. *)
Definition matched_session_always_removed : Prop :=
  forall ls c body id c1,
    exec start ls = Some c ->
    consumes c (SmsIncoming body) id ->
    step c (SmsIncoming body) = Some c1 ->
    pool c1 = pool c ->
    status_of id c1 = None.

(** ** Sample data *)

Definition S1 : string := "00000000-0000-4000-8000-000000000001".
Definition S2 : string := "00000000-0000-4000-8000-000000000002".

(** [{ phone: "032 12 345 67", amount: 1000, offer }] *)
Definition intake (offer : string) : ussd_body :=
  UssdBody (Str "032 12 345 67") (Num (JsNumber.of_Z 1000)) (Str offer).

(** [{ phone: "032 12 345 67", amount: "mille", offer: "1h" }] *)
Definition intake_mille : ussd_body :=
  UssdBody (Str "032 12 345 67") (Str "mille") (Str "1h").

(** [{ sender: "MVOLA", message: "Vous avez recu 1000 Ar de (0321234567)" }] *)
Definition sms_1000 : sms_body :=
  SmsBody (Str "MVOLA") (Str "Vous avez recu 1000 Ar de (0321234567)").

(** [{ sender: "MVola", message: "Vous avez recu 1,000 Ar de (0321234567)" }] *)
Definition sms_grouped : sms_body :=
  SmsBody (Str "MVola") (Str "Vous avez recu 1,000 Ar de (0321234567)").

Definition session_1 : payment :=
  Payment "321234567" (JsNumber.of_Z 1000) (Str "1h") "ABCDEF" PENDING 1000.

Definition session_2 : payment :=
  Payment "321234567" (JsNumber.of_Z 1000) (Str "5h") "LMNOPQ" PENDING 2000.

Definition session_mille : payment :=
  Payment "321234567" JsNumber.NaN (Str "1h") "ABCDEF" PENDING 1000.

(** The state in which a first connection attempt is in flight. *)
Definition attempt_in_flight : state := State false true [] [] 0 [Connect].

(** A registry whose only session has an offer outside the profile
    table. *)
Definition unknown_offer_state : state :=
  State true false
    [(S1, Payment "321234567" (JsNumber.of_Z 1000) (Str "2h") "ABCDEF"
                  PENDING 1000)]
    [] 0 [Connect].

(** The client is connected. *)
Definition connected : list label := [Listening; Resume 0 true []].

(** One intake call on a connected client. *)
Definition one_intake : list label :=
  (connected ++ [UssdInit (intake "1h") S1 "0.abcdefghijk" 1000])%list.

Definition mille_intake : list label :=
  (connected ++ [UssdInit intake_mille S1 "0.abcdefghijk" 1000])%list.

(** Two intake calls from the same subscriber for the same amount, one
    second apart. *)
Definition two_intakes : list label :=
  (connected ++ [UssdInit (intake "1h") S1 "0.abcdefghijk" 1000;
                 UssdInit (intake "5h") S2 "0.lmnopqrstuv" 2000])%list.

(** Two intake calls from the same subscriber for the same amount, the
    clock having been set back by one second in between. *)
Definition clock_steps_back : list label :=
  (connected ++ [UssdInit (intake "1h") S1 "0.abcdefghijk" 2000;
                 UssdInit (intake "5h") S2 "0.lmnopqrstuv" 1000])%list.

(** One intake call whose offer is not in the profile table. *)
Definition unmapped_intake : list label :=
  (connected ++ [UssdInit (intake "2h") S1 "0.abcdefghijk" 1000])%list.

(** An issuance carried to its end on a ready client: the turn of the
    job queue after [ensureMikrotik], in which the credentials are drawn
    and the command written; the fulfilled write; and the turn after
    [generateVoucher]. *)
Definition issuance_succeeds (n : nat) : list label :=
  [Resume n true ["0.4fzyo82mvyr"; "0.zzzz123456"];
   Resume n true []; Resume n true []].

(** ** Voucher polling: [GET /voucher/status/:sessionId] and
    [GET /voucher/all/:sessionId] *)

(** What [vouchers[sessionId]] evaluates to when it is not [undefined]: a
    voucher stored by the matcher, or a member that the object inherits
    from [Object.prototype] (truthy as well). *)
Inductive stored : Type :=
| OwnVoucher (v : voucher)
| InheritedMember (key : string).

Definition voucher_lookup (sessionId : string) (s : state) : option stored :=
  match Obj.get sessionId (vouchers s) with
  | Some v => Some (OwnVoucher v)
  | None =>
      if List.existsb (String.eqb sessionId) inherited_keys
      then Some (InheritedMember sessionId)
      else None
  end.

Inductive poll_reply : Type :=
| Ready (voucher : stored)     (* res.json({ success: true, voucher }) *)
| NotReady.                    (* res.json({ success: false }) *)

Definition voucher_status (sessionId : string) : prog poll_reply :=
  s <- Get Ret ;;
  match voucher_lookup sessionId s with
  | Some voucher => Ret (Ready voucher)
  | None => Ret NotReady
  end.

Definition voucher_all (sessionId : string) : prog poll_reply :=
  s <- Get Ret ;;
  match voucher_lookup sessionId s with
  | Some voucher => Ret (Ready voucher)
  | None => Ret NotReady
  end.

(** ** Where a stored session comes from *)

(** The session [p] stored under [id] was created by the intake call [l],
    which passed the validation; since then only its status can have
    changed. *)
Definition created_by (l : label) (id : string) (p : payment) : Prop :=
  exists body random ph,
    l = UssdInit body id random (createdAt p) /\
    b_phone body = Str ph /\
    truthy (b_phone body) && truthy (b_amount body) && truthy (b_offer body)
      = true /\
    with_status PENDING p = new_payment body ph random (createdAt p).

(** ** Reading the history of a connection attempt *)

(** The calls made on the client, in order. *)
Fixpoint calls_of (h : list action) : list devcall :=
  match h with
  | [] => []
  | Did c :: r => c :: calls_of r
  | _ :: r => calls_of r
  end.

(** What one call of [connectMikrotik] from state [s] does, read off its
    complete history [h], final state [s'] and result [r].  Under the
    guard it does nothing.  Otherwise it raises the guard flag, calls
    [mikrotik.connect()] once, and when that promise has settled, with the
    shared state then being [b], it sets [mikrotikReady] to the outcome
    and lowers the guard flag.  It never throws. *)
Definition connect_policy (s : state) (h : list action) (s' : state)
           (r : unit + error) : Prop :=
  r = inl tt /\
  if mikrotikReady s || reconnecting s
  then h = [] /\ s' = s
  else
    exists b ok,
      h = [ Wrote s (set_reconnecting true s);
            Did Connect;
            Settled OnConnect ok;
            Wrote b (set_mikrotikReady ok b);
            Wrote (set_mikrotikReady ok b)
                  (set_reconnecting false (set_mikrotikReady ok b)) ] /\
      s' = set_reconnecting false (set_mikrotikReady ok b).

(** What one call of [ensureMikrotik] does: it returns only when the
    client is marked ready at that moment, it throws nothing but
    'MikroTik non disponible', and only when the client is not marked
    ready; the only call it can make on the client is one
    [mikrotik.connect()]. *)
Definition ensure_policy (h : list action) (s' : state) (r : unit + error)
  : Prop :=
  match r with
  | inl _ => mikrotikReady s' = true
  | inr e => e = Unavailable /\ mikrotikReady s' = false
  end /\
  (calls_of h = [] \/ calls_of h = [Connect]).

(** ** What a task may do to the vouchers and to the ready flag *)

(** One stretch of a task that serves the session [owner] (or none), on
    top of [touches]: it leaves the voucher store alone, or, not in its
    first stretch, stores one voucher under its own session, deletes that
    session and ends; it marks the client ready only after the promise of
    [mikrotik.connect()] has settled; and it parks on that promise with
    the client marked not ready. *)
Definition stores {R : Type} (owner : option string) : guarantee R :=
  fun o s0 s e =>
    touches owner o s0 s e /\
    (vouchers s = vouchers s0 \/
     exists id v,
       owner = Some id /\ o <> Fresh /\
       vouchers s = Obj.set id v (vouchers s0) /\
       pendingPayments s = Obj.delete id (pendingPayments s0) /\
       match e with Parks _ => False | _ => True end) /\
    (mikrotikReady s = true ->
     mikrotikReady s0 = true \/ o = After OnConnect) /\
    match e with Parks OnConnect => mikrotikReady s = false | _ => True end.

Definition task_stores (owner : option string) (t : task) : Prop :=
  forall ok s1, guar (stores owner) (After (waits t)) (cont t ok) s1 s1.

Definition pool_stores (base : list task) (owner : option string)
           (e : ending (option reply)) (c' : config) : Prop :=
  match e with
  | Parks a =>
      exists k, pool c' = (base ++ [Task a k])%list /\
                task_stores owner (Task a k)
  | _ => pool c' = base
  end.

Fixpoint somes (l : list (option string)) : list string :=
  match l with
  | [] => []
  | Some x :: r => x :: somes r
  | None :: r => somes r
  end.

(** Some confirmation of the run [ls] was matched with the session
    [id]. *)
Definition consumed_in (ls : list label) (id : string) : Prop :=
  exists ls1 l ls2 c1,
    ls = (ls1 ++ l :: ls2)%list /\
    exec start ls1 = Some c1 /\
    consumes c1 l id.

(** The parked tasks serve distinct sessions, each of them matched by a
    confirmation of the run and without a voucher so far; and every
    voucher in the store belongs to a session that a confirmation of the
    run was matched with and that has left the registry. *)
Definition served (ls : list label) (c : config) : Prop :=
  exists owners : list (option string),
    List.Forall2 task_stores owners (pool c) /\
    NoDup (somes owners) /\
    (forall id, In (Some id) owners ->
       consumed_in ls id /\ spent id ls c /\
       Obj.get id (vouchers (st c)) = None) /\
    (forall id, In id (Obj.keys (vouchers (st c))) ->
       consumed_in ls id /\ Obj.get id (registry c) = None).

(** ** Reading the voucher out of the history of an issuance *)

(** What the complete history [h] of the [try] block of the matcher says
    about the voucher store: each assignment of the task leaves the store
    alone, or puts under [id] the voucher made of the only two random
    draws of the task, and then every create-user command of the task
    carried that user name, that password and the profile [prof], and one
    of them was fulfilled. *)
Definition stores_what_was_written (id : string) (prof : profile)
           (h : list action) : Prop :=
  List.Forall
    (fun a =>
       keeps_vouchers a \/
       exists b r1 r2,
         let u := ("SD-" ++ JsString.substring 2 7 r1)%string in
         let pw := JsString.slice_last 6 r2 in
         a = Wrote b (set_vouchers (Obj.set id (Voucher u pw) (vouchers b)) b)
         /\ draws h = [r1; r2]
         /\ List.Forall (eq (UserAdd u pw prof)) (user_adds h)
         /\ write_succeeded h = true)
    h.

(** ** Character classes of the generated texts *)

(** The digits of [Number.prototype.toString(36)]. *)
Definition is_base36 (c : ascii) : bool :=
  JsString.is_digit c || JsString.is_lower c.

(** The same digits in upper case. *)
Definition is_base36_upper (c : ascii) : bool :=
  JsString.is_digit c ||
  ((65 <=? JsString.code c) && (JsString.code c <=? 90)).

(** Equality of two texts under the [i] flag. *)
Fixpoint eq_ci_string (a b : string) : bool :=
  match a, b with
  | EmptyString, EmptyString => true
  | String x a', String y b' => JsString.eq_ci x y && eq_ci_string a' b'
  | _, _ => false
  end.

(** ** The variant [server.js]

    The file [server.js] of the repository differs from the program above
    in its amount pattern, which has no grouping separators and whose
    capture is parsed as it is, and in its device connection manager and
    voucher issuer: the client is created anew at each connection
    attempt, and a failed write is retried by a recursive call. *)

Module ServerJs.

(** [/(\d+)\s?Ar/i] *)
Definition amount_re : Regex.re :=
  Regex.Seq (Regex.Group (Regex.plus Regex.digit)) currency_marker.

(** [Number(amountMatch[1])] *)
Definition amount_of (message : string) : option JsNumber.number :=
  option_map JsNumber.of_string (Regex.match1 amount_re message).

(** *** The device connection manager and the voucher issuer *)

(** The clients are numbered in the order in which [createMikrotik()]
    returns them; a call names the client on which it is made. *)
Inductive devcall : Type :=
| Connect (client : nat)                     (* mikrotik.connect() *)
| Close (client : nat)                       (* mikrotik.close() *)
| UserAdd (client : nat) (name pass : string) (prof : option profile).
    (* mikrotik.write('/ip/hotspot/user/add', [...]); the profile is
       [None] when [profileName] is [undefined] *)

(** The module-level variables [mikrotik] ([None] is [null]),
    [mikrotikReady] and [reconnecting], the number of clients created so
    far, and the history of the calls made on the clients. *)
Record state : Type := State {
  mikrotik : option nat;
  mikrotikReady : bool;
  reconnecting : bool;
  created : nat;
  calls : list devcall
}.

Definition initial : state := State None false false 0 [].

Definition set_mikrotikReady (b : bool) (s : state) : state :=
  State (mikrotik s) b (reconnecting s) (created s) (calls s).
Definition set_reconnecting (b : bool) (s : state) : state :=
  State (mikrotik s) (mikrotikReady s) b (created s) (calls s).
Definition called (c : devcall) (s : state) : state :=
  State (mikrotik s) (mikrotikReady s) (reconnecting s) (created s)
        (calls s ++ [c]).

(** [mikrotik = createMikrotik()] *)
Definition renewed (s : state) : state :=
  State (Some (created s)) (mikrotikReady s) (reconnecting s)
        (S (created s)) (calls s).

Inductive prog (R : Type) : Type :=
| Ret (r : R)
| Throw (e : error)
| Get (k : state -> prog R)
| Put (s : state) (k : prog R)
| Call (c : devcall) (k : prog R)
| Random (k : string -> prog R)      (* Math.random().toString(36) *)
| Await (a : awaited) (k : bool -> prog R).

Arguments Ret {R} r.
Arguments Throw {R} e.
Arguments Get {R} k.
Arguments Put {R} s k.
Arguments Call {R} c k.
Arguments Random {R} k.
Arguments Await {R} a k.

Fixpoint bind {A B : Type} (p : prog A) (f : A -> prog B) : prog B :=
  match p with
  | Ret r => f r
  | Throw e => Throw e
  | Get k => Get (fun s => bind (k s) f)
  | Put s k => Put s (bind k f)
  | Call c k => Call c (bind k f)
  | Random k => Random (fun x => bind (k x) f)
  | Await a k => Await a (fun o => bind (k o) f)
  end.

Fixpoint try_catch {A : Type} (p : prog A) (h : error -> prog A) : prog A :=
  match p with
  | Ret r => Ret r
  | Throw e => h e
  | Get k => Get (fun s => try_catch (k s) h)
  | Put s k => Put s (try_catch k h)
  | Call c k => Call c (try_catch k h)
  | Random k => Random (fun x => try_catch (k x) h)
  | Await a k => Await a (fun o => try_catch (k o) h)
  end.

Fixpoint finally {A : Type} (p : prog A) (f : prog unit) : prog A :=
  match p with
  | Ret r => bind f (fun _ => Ret r)
  | Throw e => bind f (fun _ => Throw e)
  | Get k => Get (fun s => finally (k s) f)
  | Put s k => Put s (finally k f)
  | Call c k => Call c (finally k f)
  | Random k => Random (fun x => finally (k x) f)
  | Await a k => Await a (fun o => finally (k o) f)
  end.

Declare Scope server_scope.
Delimit Scope server_scope with server.
Notation "x <- p ;; q" := (bind p (fun x => q))
  (at level 61, p at next level, right associativity) : server_scope.
Notation "p ;; q" := (bind p (fun _ => q))
  (at level 61, right associativity) : server_scope.
Local Open Scope server_scope.

Definition modify (f : state -> state) : prog unit :=
  Get (fun s => Put (f s) (Ret tt)).

Definition call (c : devcall) : prog unit := Call c (Ret tt).

Definition await_client (a : awaited) : prog unit :=
  Await a (fun ok => if ok then Ret tt else Throw DeviceError).

Definition await_async {A : Type} (f : prog A) : prog A :=
  r <- try_catch (x <- f ;; Ret (inl x)) (fun e => Ret (inr e)) ;;
  Await OnSettled (fun _ =>
    match r with
    | inl x => Ret x
    | inr e => Throw e
    end).

(** A call of a method of [mikrotik]: a [TypeError] when it is [null]. *)
Definition on_client (c : nat -> devcall) : prog unit :=
  s <- Get Ret ;;
  match mikrotik s with
  | Some n => call (c n)
  | None => Throw TypeError
  end.

(** The listener that [mikrotik.on('error', onMikrotikError)] registers
    changes no variable. *)
Definition connectMikrotik : prog unit :=
  s <- Get Ret ;;
  if mikrotikReady s || reconnecting s then Ret tt
  else
    modify (set_reconnecting true) ;;
    finally
      (try_catch
         (s1 <- Get Ret ;;
          match mikrotik s1 with
          | Some n => call (Close n)        (* try { mikrotik.close() } *)
          | None => Ret tt
          end ;;
          modify renewed ;;
          on_client Connect ;;
          await_client OnConnect ;;
          modify (set_mikrotikReady true))
         (fun _ => Ret tt))
      (modify (set_reconnecting false)).

Definition credentials (r1 r2 : string) : voucher :=
  Voucher ("SD-" ++ JsString.substring 2 7 r1) (JsString.slice_last 6 r2).

(** The body of [generateVoucher(profileName, retry)]; [again] is the
    recursive call [generateVoucher(profileName, false)], which is made
    only when [retry] is [true]. *)
Definition generateVoucher_body (profileName : option profile)
           (retry : bool) (again : prog voucher) : prog voucher :=
  s <- Get Ret ;;
  if match mikrotik s with None => true | Some _ => false end
     || negb (mikrotikReady s)
  then Throw Unavailable
  else
    r1 <- Random Ret ;;
    r2 <- Random Ret ;;
    let v := credentials r1 r2 in
    try_catch
      (on_client (fun n => UserAdd n (username v) (password v) profileName) ;;
       await_client OnWrite ;;
       Ret v)
      (fun err =>
         modify (set_mikrotikReady false) ;;
         if retry
         then await_async connectMikrotik ;; await_async again
         else Throw err).

Definition generateVoucher (profileName : option profile) (retry : bool)
  : prog voucher :=
  let last := generateVoucher_body profileName false (Throw Unavailable) in
  if retry then generateVoucher_body profileName true last else last.

Inductive action : Type :=
| Did (c : devcall)
| Wrote (before after : state)
| Drew (x : string)
| Settled (a : awaited) (ok : bool).

(** Every complete run of a program, with arbitrary interference at each
    [await], as for the program above. *)
Fixpoint outcomes {R : Type}
         (P : list action -> state -> R + error -> Prop)
         (p : prog R) (s : state) (h : list action) : Prop :=
  match p with
  | Ret r => P h s (inl r)
  | Throw e => P h s (inr e)
  | Get k => outcomes P (k s) s h
  | Put s' k => outcomes P k s' (h ++ [Wrote s s'])
  | Call c k => outcomes P k (called c s) (h ++ [Did c])
  | Random k => forall x, outcomes P (k x) s (h ++ [Drew x])
  | Await a k => forall ok s1, outcomes P (k ok) s1 (h ++ [Settled a ok])
  end.

Fixpoint calls_of (h : list action) : list devcall :=
  match h with
  | [] => []
  | Did c :: r => c :: calls_of r
  | _ :: r => calls_of r
  end.

Fixpoint draws (h : list action) : list string :=
  match h with
  | [] => []
  | Drew x :: r => x :: draws r
  | _ :: r => draws r
  end.

(** The create-user commands of a history, without the clients. *)
Fixpoint user_adds (h : list action)
  : list (string * string * option profile) :=
  match h with
  | [] => []
  | Did (UserAdd _ u p prof) :: r => (u, p, prof) :: user_adds r
  | _ :: r => user_adds r
  end.

Definition command (v : voucher) (prof : option profile)
  : string * string * option profile :=
  (username v, password v, prof).

(** What one call of [connectMikrotik] from state [s] does.  Under the
    guard, nothing.  Otherwise it raises the guard flag, closes the
    current client if there is one, creates a client and connects it; a
    fulfilled connection marks the client ready, a rejected one changes
    no variable but the guard flag, which is lowered in both cases.  No
    exception leaves the function. *)
Definition connect_policy (s : state) (h : list action) (s' : state)
           (r : unit + error) : Prop :=
  r = inl tt /\
  if mikrotikReady s || reconnecting s
  then h = [] /\ s' = s
  else
    exists (ok : bool) (b : state),
      calls_of h =
        match mikrotik s with
        | Some n => [Close n; Connect (created s)]
        | None => [Connect (created s)]
        end /\
      List.last h (Did (Connect 0)) =
        Wrote (if ok then set_mikrotikReady true b else b) s' /\
      s' = set_reconnecting false (if ok then set_mikrotikReady true b else b).

(** What one call of [generateVoucher(profileName, true)] does, by the
    number of its random draws.  None: it threw 'MikroTik non disponible'
    at once, without a call on a client.  Two: one create-user command,
    with the credentials made of the two draws; these are the voucher
    returned, or else the command was rejected and the second attempt
    threw 'MikroTik non disponible' at once.  Four: two create-user
    commands, the second with credentials made of the third and the
    fourth draw; these are the voucher returned, or else the second
    command was rejected too and its rejection is thrown.  There is no
    third attempt. *)
Definition retry_policy (prof : option profile) (h : list action)
           (r : voucher + error) : Prop :=
  match draws h with
  | [] => calls_of h = [] /\ r = inr Unavailable
  | [r1; r2] =>
      user_adds h = [command (credentials r1 r2) prof] /\
      (r = inl (credentials r1 r2) \/ r = inr Unavailable)
  | [r1; r2; r3; r4] =>
      user_adds h = [command (credentials r1 r2) prof;
                     command (credentials r3 r4) prof] /\
      (r = inl (credentials r3 r4) \/ r = inr DeviceError)
  | _ => False
  end.

(** *** Every behaviour of the issuer, with the states it resumes in *)

Inductive event : Type :=
| Called (c : devcall)
| Assigned (before after : state)
| Drawn (x : string)
| Resumed (a : awaited) (ok : bool) (s : state).

(** [outcomes] with, in the history, the state in which the task is
    resumed after each [await]. *)
Fixpoint behaviours {R : Type}
         (P : list event -> state -> R + error -> Prop)
         (p : prog R) (s : state) (h : list event) : Prop :=
  match p with
  | Ret r => P h s (inl r)
  | Throw e => P h s (inr e)
  | Get k => behaviours P (k s) s h
  | Put s' k => behaviours P k s' (h ++ [Assigned s s'])
  | Call c k => behaviours P k (called c s) (h ++ [Called c])
  | Random k => forall x, behaviours P (k x) s (h ++ [Drawn x])
  | Await a k =>
      forall ok s1, behaviours P (k ok) s1 (h ++ [Resumed a ok s1])
  end.

(** The client on which [generateVoucher] writes when it starts in state
    [s]: the current one, if there is one and it is marked ready. *)
Definition ready_client (s : state) : option nat :=
  match mikrotik s with
  | Some n => if mikrotikReady s then Some n else None
  | None => None
  end.

(** The events of one call of [connectMikrotik] that starts in state
    [s]. *)
Definition connect_events (s : state) (h : list event) : Prop :=
  if mikrotikReady s || reconnecting s then h = []
  else
    let s1 := set_reconnecting true s in
    let s2 := match mikrotik s with
              | Some n => called (Close n) s1
              | None => s1
              end in
    exists (ok : bool) (s3 : state),
      let s4 := if ok then set_mikrotikReady true s3 else s3 in
      h = (Assigned s s1
           :: match mikrotik s with
              | Some n => [Called (Close n)]
              | None => @nil event
              end
           ++ [Assigned s2 (renewed s2);
               Called (Connect (created s));
               Resumed OnConnect ok s3]
           ++ (if ok then [Assigned s3 s4] else @nil event)
           ++ [Assigned s4 (set_reconnecting false s4)])%list.

(** The whole of a behaviour of [generateVoucher(profileName, true)] that
    starts in state [s]: its history [h], event by event, and its result
    [r].  With no client, or a client not marked ready, it throws at once.
    Otherwise it draws twice and writes one command on the current
    client.  After a rejection it marks the client not ready and awaits
    [connectMikrotik]; the state [sA] in which it is resumed decides the
    second attempt: with a client marked ready it draws twice more and
    writes one command on that client, whose settling is the result, and
    otherwise it throws 'MikroTik non disponible'.  There is no third
    command. *)
Definition issuer_policy (prof : option profile) (s : state)
           (h : list event) (r : voucher + error) : Prop :=
  match ready_client s with
  | None => h = [] /\ r = inr Unavailable
  | Some n =>
      exists r1 r2 ok s0 rest,
        let v := credentials r1 r2 in
        h = ([Drawn r1; Drawn r2;
              Called (UserAdd n (username v) (password v) prof);
              Resumed OnWrite ok s0] ++ rest)%list /\
        if ok then rest = [] /\ r = inl v
        else
          exists hc x sA y sB tail,
            connect_events (set_mikrotikReady false s0) hc /\
            rest = (Assigned s0 (set_mikrotikReady false s0)
                    :: hc ++ Resumed OnSettled x sA
                    :: tail ++ [Resumed OnSettled y sB])%list /\
            match ready_client sA with
            | None => tail = [] /\ r = inr Unavailable
            | Some m =>
                exists r3 r4 ok2 sC,
                  let w := credentials r3 r4 in
                  tail = ([Drawn r3; Drawn r4;
                           Called (UserAdd m (username w) (password w) prof);
                           Resumed OnWrite ok2 sC]
                          ++ if ok2 then @nil event
                             else [Assigned sC (set_mikrotikReady false sC)])
                         %list /\
                  r = if ok2 then inl w else inr DeviceError
            end
  end.

End ServerJs.

Local Open Scope string_scope.
Local Open Scope Z_scope.
Local Open Scope prog_scope.
Local Open Scope list_scope.

(** * Properties *)

(** ** Objects used as maps *)

Section ObjFacts.
Context {V : Type}.
Implicit Types (o : Obj.t V) (k : string) (v : V).

Lemma get_in_keys k o v : Obj.get k o = Some v -> In k (Obj.keys o).
Proof.
  induction o as [|[k' v'] o IH]; simpl; [discriminate|].
  destruct (String.eqb_spec k k') as [->|]; auto.
Qed.

Lemma get_notin_keys k o : ~ In k (Obj.keys o) -> Obj.get k o = None.
Proof.
  induction o as [|[k' v'] o IH]; simpl; auto.
  intros H. destruct (String.eqb_spec k k') as [->|]; [tauto|].
  apply IH. tauto.
Qed.

Lemma get_in k o v : Obj.get k o = Some v -> In (k, v) o.
Proof.
  induction o as [|[k' v'] o IH]; simpl; [discriminate|].
  destruct (String.eqb_spec k k') as [->|]; auto.
  intros [= ->]. auto.
Qed.

Lemma in_get k o v : NoDup (Obj.keys o) -> In (k, v) o -> Obj.get k o = Some v.
Proof.
  induction o as [|[k' v'] o IH]; simpl; [tauto|].
  intros ND [[= -> ->]|Hin].
  - now rewrite String.eqb_refl.
  - inversion ND as [|? ? Hk ND']; subst.
    destruct (String.eqb_spec k k') as [->|]; auto.
    exfalso. apply Hk. change (In (fst (k', v)) (List.map fst o)).
    now apply in_map.
Qed.

Lemma get_app_l k o1 o2 :
  ~ In k (Obj.keys o1) -> Obj.get k (o1 ++ o2) = Obj.get k o2.
Proof.
  induction o1 as [|[k' v'] o1 IH]; simpl; auto.
  intros H. destruct (String.eqb_spec k k') as [->|]; [tauto|].
  apply IH. tauto.
Qed.

Lemma delete_app_l k o1 o2 :
  ~ In k (Obj.keys o1) -> Obj.delete k (o1 ++ o2) = o1 ++ Obj.delete k o2.
Proof.
  induction o1 as [|[k' v'] o1 IH]; simpl; auto.
  intros H. destruct (String.eqb_spec k k') as [->|]; [tauto|].
  f_equal. apply IH. tauto.
Qed.

Lemma delete_notin k o : ~ In k (Obj.keys o) -> Obj.delete k o = o.
Proof.
  induction o as [|[k' v'] o IH]; simpl; auto.
  intros H. destruct (String.eqb_spec k k') as [->|]; [tauto|].
  f_equal. apply IH. tauto.
Qed.

Lemma keys_app o1 o2 : Obj.keys (o1 ++ o2) = Obj.keys o1 ++ Obj.keys o2.
Proof. apply map_app. Qed.

Lemma keys_update k f o : Obj.keys (Obj.update k f o) = Obj.keys o.
Proof.
  induction o as [|[k' v'] o IH]; simpl; auto.
  destruct (String.eqb k k'); simpl; congruence.
Qed.

Lemma keys_delete_incl k o : incl (Obj.keys (Obj.delete k o)) (Obj.keys o).
Proof.
  induction o as [|[k' v'] o IH]; simpl; [easy|].
  destruct (String.eqb k k'); simpl.
  - apply incl_tl, incl_refl.
  - intros x [->|Hx]; [now left | right; now apply IH].
Qed.

Lemma nodup_delete k o : NoDup (Obj.keys o) -> NoDup (Obj.keys (Obj.delete k o)).
Proof.
  induction o as [|[k' v'] o IH]; simpl; auto.
  intros ND. inversion ND as [|? ? Hk ND']; subst.
  destruct (String.eqb k k'); simpl; auto.
  constructor; auto. intros Hin. apply Hk. now apply (keys_delete_incl k).
Qed.

Lemma keys_set k v o :
  Obj.keys (Obj.set k v o) =
    if existsb (String.eqb k) (Obj.keys o) then Obj.keys o
    else Obj.keys o ++ [k].
Proof.
  induction o as [|[k' v'] o IH]; simpl; auto.
  destruct (String.eqb k k'); simpl; auto.
  rewrite IH. now destruct (existsb _ _).
Qed.

Lemma existsb_eqb_in k (l : list string) :
  existsb (String.eqb k) l = true <-> In k l.
Proof.
  rewrite existsb_exists. split.
  - intros (x & Hx & E). apply String.eqb_eq in E. now subst.
  - intros H. exists k. split; auto. apply String.eqb_refl.
Qed.

Lemma set_notin k v o : ~ In k (Obj.keys o) -> Obj.set k v o = o ++ [(k, v)].
Proof.
  induction o as [|[k' v'] o IH]; simpl; auto.
  intros H. destruct (String.eqb_spec k k') as [->|]; [tauto|].
  f_equal. apply IH. tauto.
Qed.

Lemma nodup_set k v o : NoDup (Obj.keys o) -> NoDup (Obj.keys (Obj.set k v o)).
Proof.
  intros ND. rewrite keys_set.
  destruct (existsb (String.eqb k) (Obj.keys o)) eqn:E; auto.
  apply NoDup_app; auto.
  - repeat constructor. easy.
  - intros x Hx [<-|[]]. apply existsb_eqb_in in Hx. congruence.
Qed.

Lemma get_delete_same k o : NoDup (Obj.keys o) -> Obj.get k (Obj.delete k o) = None.
Proof.
  induction o as [|[k' v'] o IH]; simpl; auto.
  intros ND. inversion ND as [|? ? Hk ND']; subst.
  destruct (String.eqb_spec k k') as [->|].
  - now apply get_notin_keys.
  - simpl. destruct (String.eqb_spec k k'); [tauto|]. auto.
Qed.

Lemma get_delete_other k k' o : k <> k' -> Obj.get k (Obj.delete k' o) = Obj.get k o.
Proof.
  intros N. induction o as [|[k2 v2] o IH]; simpl; auto.
  destruct (String.eqb_spec k' k2) as [->|].
  - destruct (String.eqb_spec k k2); [tauto|]. reflexivity.
  - simpl. destruct (String.eqb k k2); auto.
Qed.

Lemma get_update k k' f o :
  Obj.get k (Obj.update k' f o) =
    if String.eqb k k' then option_map f (Obj.get k o) else Obj.get k o.
Proof.
  induction o as [|[k2 v2] o IH]; simpl.
  - now destruct (String.eqb k k').
  - destruct (String.eqb_spec k' k2) as [->|]; simpl.
    + destruct (String.eqb_spec k k2) as [->|]; simpl; auto.
    + destruct (String.eqb_spec k k2) as [->|]; simpl; auto.
      destruct (String.eqb_spec k2 k') as [->|]; [tauto|reflexivity].
Qed.

Lemma get_set k k' v o :
  Obj.get k (Obj.set k' v o) = if String.eqb k k' then Some v else Obj.get k o.
Proof.
  induction o as [|[k2 v2] o IH]; simpl.
  - reflexivity.
  - destruct (String.eqb_spec k' k2) as [->|]; simpl.
    + destruct (String.eqb_spec k k2) as [->|]; simpl; auto.
    + destruct (String.eqb_spec k k2) as [->|]; simpl; auto.
      destruct (String.eqb_spec k2 k') as [->|]; [tauto|reflexivity].
Qed.
End ObjFacts.

(** ** The sweeper loop is a filter *)

Lemma sweep_loop now (kept todo : Obj.t payment) :
  NoDup (Obj.keys (kept ++ todo)) ->
  fold_left (sweep_one now) (Obj.keys todo) (kept ++ todo)
  = kept ++ filter (survives now) todo.
Proof.
  revert kept. induction todo as [|[k p] todo IH]; intros kept ND; simpl.
  - reflexivity.
  - assert (Hk : ~ In k (Obj.keys kept)).
    { rewrite keys_app in ND. simpl in ND. intros Hin.
      apply NoDup_remove_2 in ND. apply ND, in_or_app. now left. }
    unfold sweep_one at 2. rewrite get_app_l by assumption.
    simpl. rewrite String.eqb_refl.
    unfold survives at 1. simpl.
    destruct (now - createdAt p >? expiry_window); simpl.
    + rewrite delete_app_l by assumption. simpl. rewrite String.eqb_refl.
      apply IH. rewrite keys_app in *. simpl in ND.
      now apply NoDup_remove_1 in ND.
    + change (kept ++ (k, p) :: todo) with (kept ++ [(k, p)] ++ todo).
      rewrite app_assoc. rewrite IH.
      * now rewrite <- app_assoc.
      * now rewrite <- app_assoc.
Qed.

Lemma sweep_filter now (reg : Obj.t payment) :
  NoDup (Obj.keys reg) -> sweep now reg = filter (survives now) reg.
Proof. intros ND. apply (sweep_loop now [] reg ND). Qed.

Local Open Scope string_scope.
Local Open Scope Z_scope.
Local Open Scope prog_scope.
Local Open Scope list_scope.

(** ** Stretches of code and guarantees *)

Lemma guar_run {R} (G : guarantee R) o (p : prog R) i s0 s :
  guar G o p s0 s ->
  match run p i s with
  | (s', Done r) => G o s0 s' (Returns r)
  | (s', Failed e) => G o s0 s' (Throws e)
  | (s', Parked a k) =>
      G o s0 s' (Parks a) /\ forall ok s1, guar G (After a) (k ok) s1 s1
  end.
Proof.
  revert i s.
  induction p as [r|e|k IH|s' k IH|c k IH|k IH|k IH|k IH|a k IH];
    intros i s Hg; simpl in *; auto.
  all: try (apply IH; auto).
Qed.

Lemma guar_weaken {R} (G G' : guarantee R) o (p : prog R) s0 s :
  (forall o s0 s e, G o s0 s e -> G' o s0 s e) ->
  guar G o p s0 s -> guar G' o p s0 s.
Proof.
  intros W. revert o s0 s.
  induction p as [r|e|k IH|s' k IH|c k IH|k IH|k IH|k IH|a k IH];
    intros o s0 s Hg; simpl in *; auto.
  destruct Hg as [H1 H2]. split; auto.
Qed.

Ltac exec_prog :=
  repeat (cbn -[Obj.set Obj.delete Obj.update]; intros;
          match goal with
          | |- context [if ?b then _ else _] => destruct b eqn:?
          | |- _ /\ _ => split
          end); cbn -[Obj.set Obj.delete Obj.update]; intros.

Ltac flag_facts :=
  repeat match goal with
  | H : _ || _ = false |- _ => apply orb_false_elim in H; destruct H
  | H : negb _ = true |- _ => apply negb_true_iff in H
  | H : negb _ = false |- _ => apply negb_false_iff in H
  end.

Ltac solve_touches :=
  unfold touches, keeps_flag; cbn -[Obj.set Obj.delete Obj.update];
  flag_facts;
  split;
  [ first [ left; reflexivity
          | right; eexists; split; reflexivity ]
  | split;
    [ repeat split; solve [auto | congruence]
    | first [ reflexivity | discriminate ] ] ].

Lemma connectMikrotik_touches s :
  guar (touches None) Fresh (callback connectMikrotik) s s.
Proof.
  unfold callback, connectMikrotik. exec_prog; solve_touches.
Qed.

Lemma issue_touches id prof s :
  guar (touches (Some id)) Fresh
       (handler (issue id prof ;; Ret (Status 200))) s s.
Proof.
  unfold handler, issue, generateVoucher, ensureMikrotik, connectMikrotik,
    write_user_add, safeDisconnect.
  exec_prog; solve_touches.
Qed.

Local Open Scope string_scope.
Local Open Scope Z_scope.
Local Open Scope prog_scope.
Local Open Scope list_scope.

(** ** The first stretch of each handler *)

Lemma ussd_init_run body now uuid random s :
  run (handler (ussd_init body)) (Inputs now uuid [random]) s =
  if negb (truthy (b_phone body)) || negb (truthy (b_amount body))
     || negb (truthy (b_offer body))
  then (s, Done (Some MissingParameters))
  else
    match b_phone body with
    | Str ph =>
        (set_pendingPayments
           (Obj.set uuid (new_payment body ph random now)
                    (pendingPayments s)) s,
         Done (Some (Created uuid
                 (JsString.toUpperCase (JsString.substring 2 8 random)))))
    | _ => (s, Failed TypeError)
    end.
Proof.
  unfold handler, ussd_init.
  destruct (negb (truthy (b_phone body)) || negb (truthy (b_amount body))
            || negb (truthy (b_offer body))); [reflexivity|].
  destruct (b_phone body); reflexivity.
Qed.

Lemma sweeper_run now s :
  run (callback sweeper) (Inputs now "" []) s =
  (set_pendingPayments (sweep now (pendingPayments s)) s, Done None).
Proof. reflexivity. Qed.

Lemma sms_incoming_run body i s :
  run (handler (sms_incoming body)) i s =
  match confirmation body with
  | None =>
      (s, if message_not_string body then Failed TypeError
          else Done (Some (Status 200)))
  | Some (a, ph) =>
      match find_session a ph (pendingPayments s) with
      | None => (s, Done (Some (Status 200)))
      | Some id =>
          if String.eqb id "" then (s, Done (Some (Status 200)))
          else
            match Obj.get id (pendingPayments s) with
            | None => (s, Failed TypeError)
            | Some p =>
                match profileMap (offer p) with
                | None => (confirm id s, Done (Some (Status 200)))
                | Some prof =>
                    run (handler (issue id prof ;; Ret (Status 200))) i
                        (confirm id s)
                end
            end
      end
  end.
Proof.
  unfold handler, sms_incoming, confirmation, message_not_string.
  destruct body as [sender message]; cbn [b_sender b_message].
  destruct message as [| |b|n|m];
    try (destruct (truthy sender); cbn [negb orb andb];
         [|reflexivity];
         match goal with |- context [truthy ?v] => destruct (truthy v) end;
         cbn [negb orb andb]; [|reflexivity];
         destruct (mvola_test sender); reflexivity).
  destruct (truthy sender); cbn [negb orb andb]; [|reflexivity].
  destruct (truthy (Str m)); cbn [negb orb andb]; [|reflexivity].
  destruct (mvola_test sender); cbn [negb orb andb]; [|reflexivity].
  cbn [match_value bind].
  destruct (Regex.match1 amount_re m) as [at_|]; [|reflexivity].
  cbn [bind].
  destruct (Regex.match1 phone_re m) as [pt|]; [|reflexivity].
  cbn [bind run].
  destruct (find_session _ _ (pendingPayments s)) as [id|]; [|reflexivity].
  destruct (String.eqb id ""); [reflexivity|].
  destruct (Obj.get id (pendingPayments s)) as [p|]; [|reflexivity].
  cbn [modify bind run].
  destruct (profileMap (offer p)); reflexivity.
Qed.

Lemma onMikrotikError_touches s :
  guar (touches None) Fresh (callback onMikrotikError) s s.
Proof.
  unfold callback, onMikrotikError, safeDisconnect. exec_prog; solve_touches.
Qed.

Lemma touches_idle {R} owner s (r : ending R) :
  match r with Parks _ => False | _ => True end ->
  touches owner Fresh s s r.
Proof.
  intros H. split; [now left|]. split; [|reflexivity].
  destruct r; simpl; auto. contradiction.
Qed.

Lemma spawn_touches owner o p i s base :
  guar (touches owner) o p s s ->
  exists e,
    touches owner o s (st (spawn p i (Config s base))) e /\
    pool_after base owner e (spawn p i (Config s base)).
Proof.
  intros Hg. pose proof (guar_run _ _ _ i _ _ Hg) as Hr.
  unfold spawn. cbn [st pool].
  destruct (run p i s) as [s' [r|e|a k]].
  - exists (Returns r). split; [exact Hr | reflexivity].
  - exists (Throws e). split; [exact Hr | reflexivity].
  - destruct Hr as [H1 H2]. exists (Parks a). split; [exact H1|].
    exists k. split; [reflexivity | exact H2].
Qed.

Lemma find_session_get a ph reg id :
  find_session a ph reg = Some id ->
  exists p, Obj.get id reg = Some p /\ is_match a ph p = true.
Proof.
  unfold find_session. intros H. apply find_some in H as [_ H].
  destruct (Obj.get id reg) as [p|]; [|discriminate]. eauto.
Qed.

Lemma step_before_with (Q : option string -> Prop) c l c' :
  (forall t, In t (pool c) -> exists owner, task_ok owner t /\ Q owner) ->
  step c l = Some c' ->
  exists s owner o base e,
    before c l s owner o base /\
    touches owner o s (st c') e /\
    pool_after base owner e c' /\
    (o <> Fresh -> Q owner).
Proof.
  intros Hpool Hstep. destruct c as [s pl]. destruct l; cbn [step st pool] in Hstep.
  - (* Listening *)
    injection Hstep as <-.
    destruct (spawn_touches None Fresh (callback connectMikrotik) no_inputs s pl
                (connectMikrotik_touches s)) as (e & H1 & H2).
    exists s, None, Fresh, pl, e. split; [first [apply (before_listening (Config s pl)) | apply (before_error (Config s pl))] | split; [exact H1 | split; [exact H2 | intros Hne; now elim Hne]]].
  - (* UssdInit *)
    destruct (is_uuid uuid) eqn:Hu; [|discriminate]. injection Hstep as <-.
    unfold spawn. cbn [st pool]. rewrite ussd_init_run.
    destruct (negb (truthy (b_phone body)) || negb (truthy (b_amount body))
              || negb (truthy (b_offer body))).
    + exists s, None, Fresh, pl, (Returns (Some MissingParameters)).
      split; [apply (before_refuse (Config s pl))|]. split; [now apply touches_idle | split; [reflexivity | intros Hne; now elim Hne]].
    + destruct (b_phone body) as [| |b|n|ph] eqn:Hph.
      1-4: exists s, None, Fresh, pl, (Throws TypeError);
        (split; [apply (before_refuse (Config s pl))|]);
        (split; [now apply touches_idle | split; [reflexivity | intros Hne; now elim Hne]]).
      eexists _, None, Fresh, pl, (Returns None).
      split; [eapply (before_create (Config s pl) body uuid random now ph); eauto|].
      split; [now apply touches_idle | split; [reflexivity | intros Hne; now elim Hne]].
  - (* SmsIncoming *)
    injection Hstep as <-. unfold spawn. cbn [st pool].
    rewrite sms_incoming_run.
    destruct (confirmation body) as [[a ph]|] eqn:Hc.
    2:{ exists s, None, Fresh, pl.
        destruct (message_not_string body);
          [exists (Throws TypeError) | exists (Returns (Some (Status 200)))];
          (split; [apply (before_nomatch (Config s pl))|]);
          (split; [now apply touches_idle | split; [reflexivity | intros Hne; now elim Hne]]). }
    destruct (find_session a ph (pendingPayments s)) as [id|] eqn:Hf.
    2:{ exists s, None, Fresh, pl, (Returns (Some (Status 200))).
        split; [apply (before_nomatch (Config s pl))|].
        split; [now apply touches_idle | split; [reflexivity | intros Hne; now elim Hne]]. }
    destruct (String.eqb id "").
    { exists s, None, Fresh, pl, (Returns (Some (Status 200))).
      split; [apply (before_nomatch (Config s pl))|].
      split; [now apply touches_idle | split; [reflexivity | intros Hne; now elim Hne]]. }
    destruct (find_session_get _ _ _ _ Hf) as (p & Hg & Hm). rewrite Hg.
    assert (Hb : before (Config s pl) (SmsIncoming body) (confirm id s)
                        (Some id) Fresh pl).
    { eapply (before_confirm (Config s pl)); eauto. }
    destruct (profileMap (offer p)) as [prof|].
    + destruct (spawn_touches (Some id) Fresh
                  (handler (issue id prof ;; Ret (Status 200))) no_inputs
                  (confirm id s) pl (issue_touches id prof _)) as (e & H1 & H2).
      unfold spawn in H1, H2. cbn [st pool] in H1, H2.
      exists (confirm id s), (Some id), Fresh, pl, e. split; [exact Hb|].
      destruct (run _ no_inputs (confirm id s)) as [s' [r|er|aw k]];
        (split; [exact H1 | split; [exact H2 | intros Hne; now elim Hne]]).
    + exists (confirm id s), (Some id), Fresh, pl, (Returns (Some (Status 200))).
      split; [exact Hb|]. split; [now apply touches_idle | split; [reflexivity | intros Hne; now elim Hne]].
  - (* SweeperTick *)
    injection Hstep as <-. unfold spawn. cbn [st pool]. rewrite sweeper_run.
    eexists _, None, Fresh, pl, (Returns None).
    split; [apply (before_sweep (Config s pl))|]. split; [now apply touches_idle | split; [reflexivity | intros Hne; now elim Hne]].
  - (* MikrotikError *)
    injection Hstep as <-.
    destruct (spawn_touches None Fresh (callback onMikrotikError) no_inputs s pl
                (onMikrotikError_touches s)) as (e & H1 & H2).
    exists s, None, Fresh, pl, e. split; [first [apply (before_listening (Config s pl)) | apply (before_error (Config s pl))] | split; [exact H1 | split; [exact H2 | intros Hne; now elim Hne]]].
  - (* TimerFires *)
    destruct (timers s) as [|n] eqn:Ht; [discriminate|]. injection Hstep as <-.
    destruct (spawn_touches None Fresh (callback connectMikrotik) no_inputs
                (set_timers n s) pl
                (connectMikrotik_touches _)) as (e & H1 & H2).
    exists (set_timers n s), None, Fresh, pl, e.
    split; [now apply (before_timer (Config s pl))
           | split; [exact H1 | split; [exact H2 | intros Hne; now elim Hne]]].
  - (* Resume *)
    destruct (nth_error pl n) as [t|] eqn:Hn; [|discriminate].
    injection Hstep as <-.
    destruct (Hpool t) as (owner & Hok & HQ); [eapply nth_error_In; eauto|].
    destruct (spawn_touches owner (After (waits t)) (cont t ok)
                (Inputs 0 "" random) s (remove_nth n pl) (Hok ok s))
      as (e & H1 & H2).
    exists s, owner, (After (waits t)), (remove_nth n pl), e.
    split; [eapply (before_resume (Config s pl)); eauto | auto].
Qed.

Lemma step_before c l c' :
  pool_ok c ->
  step c l = Some c' ->
  exists s owner o base e,
    before c l s owner o base /\
    touches owner o s (st c') e /\
    pool_after base owner e c'.
Proof.
  intros Hpool Hstep.
  destruct (step_before_with (fun _ => True) c l c') as
    (s & owner & o & base & e & H1 & H2 & H3 & _); auto.
  - intros t Hin. destruct (Hpool t Hin) as [owner Hok]. eauto.
  - exists s, owner, o, base, e. auto.
Qed.

Local Open Scope string_scope.
Local Open Scope Z_scope.
Local Open Scope prog_scope.
Local Open Scope list_scope.

(** ** Runs *)

Lemma exec_app c ls1 ls2 :
  exec c (ls1 ++ ls2) =
  match exec c ls1 with Some c' => exec c' ls2 | None => None end.
Proof.
  revert c. induction ls1 as [|l ls1 IH]; intros c; simpl; auto.
  destruct (step c l); auto.
Qed.

Lemma reaches_exec ls c : reaches ls c -> exec start ls = Some c.
Proof.
  induction 1 as [|ls c l c' _ IH Hs]; [reflexivity|].
  rewrite exec_app, IH. simpl. now rewrite Hs.
Qed.

Lemma exec_reaches_from ls : forall ls0 c0 c,
  reaches ls0 c0 -> exec c0 ls = Some c -> reaches (ls0 ++ ls) c.
Proof.
  induction ls as [|l ls IH]; intros ls0 c0 c Hr He; simpl in He.
  - injection He as <-. now rewrite app_nil_r.
  - destruct (step c0 l) as [c1|] eqn:Hs; [|discriminate].
    change (l :: ls) with ([l] ++ ls). rewrite app_assoc.
    eapply IH; [|exact He]. econstructor; eauto.
Qed.

Lemma exec_reaches ls c : exec start ls = Some c -> reaches ls c.
Proof. intros H. apply (exec_reaches_from ls [] start c reaches_start H). Qed.

(** ** Well-formed configurations *)

Lemma keys_filter_incl {V} (f : string * V -> bool) (o : Obj.t V) :
  incl (Obj.keys (filter f o)) (Obj.keys o).
Proof.
  induction o as [|kv o IH]; simpl; [easy|].
  destruct (f kv); simpl.
  - intros x [->|Hx]; [now left | right; auto].
  - now apply incl_tl.
Qed.

Lemma nodup_filter {V} (f : string * V -> bool) (o : Obj.t V) :
  NoDup (Obj.keys o) -> NoDup (Obj.keys (filter f o)).
Proof.
  induction o as [|kv o IH]; simpl; auto.
  intros ND. inversion ND as [|? ? Hk ND']; subst.
  destruct (f kv); simpl; auto.
  constructor; auto. intros Hin. apply Hk. now apply (keys_filter_incl f).
Qed.

Lemma nodup_sweep now reg :
  NoDup (Obj.keys reg) -> NoDup (Obj.keys (sweep now reg)).
Proof. intros ND. rewrite sweep_filter by assumption. now apply nodup_filter. Qed.

Lemma remove_nth_incl {A} n (l : list A) : incl (remove_nth n l) l.
Proof.
  revert n. induction l as [|x l IH]; intros [|n]; simpl; try easy.
  - now apply incl_tl.
  - intros y [->|Hy]; [now left | right; now apply (IH n)].
Qed.

Lemma count_remove_nth n l t :
  nth_error l n = Some t ->
  count_connecting l =
    ((if parked_on OnConnect t then 1 else 0) +
     count_connecting (remove_nth n l))%nat.
Proof.
  unfold count_connecting. revert n.
  induction l as [|x l IH]; intros [|n] H; simpl in *; try discriminate.
  - injection H as ->. destruct (parked_on OnConnect t); reflexivity.
  - specialize (IH n H). destruct (parked_on OnConnect x); simpl; lia.
Qed.

Lemma count_app l1 l2 :
  count_connecting (l1 ++ l2) = (count_connecting l1 + count_connecting l2)%nat.
Proof. unfold count_connecting. now rewrite filter_app, length_app. Qed.

Lemma before_registry_nodup c l s owner o base :
  before c l s owner o base ->
  NoDup (Obj.keys (registry c)) ->
  NoDup (Obj.keys (pendingPayments s)).
Proof.
  unfold registry. intros Hb ND.
  destruct Hb; unfold confirm;
    cbn [pendingPayments set_pendingPayments set_timers]; auto.
  - now apply nodup_sweep.
  - now apply nodup_set.
  - now rewrite keys_update.
Qed.

Lemma before_flag c l s owner o base :
  before c l s owner o base -> reconnecting s = reconnecting (st c).
Proof. intros Hb. destruct Hb; reflexivity. Qed.

Lemma before_base c l s owner o base :
  before c l s owner o base ->
  incl base (pool c) /\
  count_connecting (pool c) =
    (match o with After OnConnect => 1 | _ => 0 end
     + count_connecting base)%nat.
Proof.
  intros Hb. destruct Hb; try (split; [apply incl_refl | reflexivity]).
  split; [apply remove_nth_incl|].
  rewrite (count_remove_nth n _ t) by assumption.
  unfold parked_on. now destruct (waits t).
Qed.

Lemma touches_nodup {R} owner o s s' (e : ending R) :
  touches owner o s s' e ->
  NoDup (Obj.keys (pendingPayments s)) ->
  NoDup (Obj.keys (pendingPayments s')).
Proof.
  intros [[->|(id & _ & ->)] _] ND; auto. now apply nodup_delete.
Qed.

Lemma well_formed_step c l c' :
  well_formed c -> step c l = Some c' -> well_formed c'.
Proof.
  intros (ND & Hfl & Hpool) Hstep.
  destruct (step_before c l c' Hpool Hstep)
    as (s & owner & o & base & e & Hb & Ht & Hp).
  pose proof (before_registry_nodup _ _ _ _ _ _ Hb ND) as ND1.
  pose proof (before_flag _ _ _ _ _ _ Hb) as Hf1.
  destruct (before_base _ _ _ _ _ _ Hb) as [Hincl Hcnt].
  split; [|split].
  - unfold registry. eapply touches_nodup; eauto.
  - unfold in_flight in *.
    destruct Ht as (_ & Hk & _). unfold keeps_flag in Hk. unfold pool_after in Hp.
    rewrite Hf1 in Hk. rewrite Hcnt in Hfl.
    destruct o as [|[| |]]; destruct e as [r|er|[| |]];
      try destruct Hp as (k & -> & _); try rewrite Hp;
      try rewrite count_app; cbn in *;
      first [destruct Hk as [Hk1 Hk2] | idtac];
      try contradiction;
      destruct (reconnecting (st c)); destruct (reconnecting (st c'));
      try discriminate; lia.
  - intros t Hin. destruct e as [r|er|a];
      try (rewrite Hp in Hin; apply Hpool; auto).
    destruct Hp as (k & Hp & Hok). rewrite Hp in Hin.
    apply in_app_or in Hin as [Hin|[<-|[]]]; [apply Hpool; auto | eauto].
Qed.

Lemma well_formed_start : well_formed start.
Proof.
  split; [constructor|]. split; [reflexivity|]. intros t [].
Qed.

Lemma well_formed_reaches ls c : reaches ls c -> well_formed c.
Proof.
  induction 1 as [|ls c l c' _ IH Hs]; [apply well_formed_start|].
  eapply well_formed_step; eauto.
Qed.

Local Open Scope string_scope.
Local Open Scope Z_scope.
Local Open Scope prog_scope.
Local Open Scope list_scope.

(** ** Identifiers and statuses along a run *)

Lemma ussd_ids_app ls1 ls2 : ussd_ids (ls1 ++ ls2) = ussd_ids ls1 ++ ussd_ids ls2.
Proof.
  induction ls1 as [|l ls1 IH]; simpl; auto. destruct l; simpl; congruence.
Qed.

Lemma ussd_times_app ls1 ls2 :
  ussd_times (ls1 ++ ls2) = ussd_times ls1 ++ ussd_times ls2.
Proof.
  induction ls1 as [|l ls1 IH]; simpl; auto. destruct l; simpl; congruence.
Qed.

Lemma distinct_app l1 l2 :
  distinct (l1 ++ l2) = true ->
  distinct l1 = true /\ distinct l2 = true /\
  forall x, In x l1 -> ~ In x l2.
Proof.
  induction l1 as [|a l1 IH]; simpl.
  - intros H. repeat split; auto.
  - intros H. apply andb_true_iff in H as [Ha H].
    destruct (IH H) as (H1 & H2 & H3).
    apply negb_true_iff in Ha.
    assert (Hn : ~ In a (l1 ++ l2)).
    { intros Hin. apply existsb_eqb_in in Hin. congruence. }
    repeat split; auto.
    + apply andb_true_iff. split; auto. apply negb_true_iff.
      destruct (existsb (String.eqb a) l1) eqn:E; auto.
      apply existsb_eqb_in in E. exfalso. apply Hn, in_or_app. now left.
    + intros x [<-|Hx]; [|now apply H3].
      intros Hin. apply Hn, in_or_app. now right.
Qed.

Lemma ids_fresh_prefix ls1 ls2 : ids_fresh (ls1 ++ ls2) -> ids_fresh ls1.
Proof.
  unfold ids_fresh. rewrite ussd_ids_app. intros H.
  now apply distinct_app in H.
Qed.

Lemma ids_fresh_last ls body uuid random now :
  ids_fresh (ls ++ [UssdInit body uuid random now]) -> ~ In uuid (ussd_ids ls).
Proof.
  unfold ids_fresh. rewrite ussd_ids_app. intros H.
  apply distinct_app in H as (_ & _ & H). intros Hin.
  apply (H uuid Hin). now left.
Qed.

Lemma get_filter {V} (f : string * V -> bool) k (o : Obj.t V) :
  NoDup (Obj.keys o) ->
  Obj.get k (filter f o) =
    match Obj.get k o with
    | Some v => if f (k, v) then Some v else None
    | None => None
    end.
Proof.
  induction o as [|[k' v'] o IH]; simpl; auto.
  intros ND. inversion ND as [|? ? Hk ND']; subst.
  destruct (String.eqb_spec k k') as [->|Hne].
  - destruct (f (k', v')) eqn:E; simpl.
    + now rewrite String.eqb_refl.
    + apply get_notin_keys. intros Hin. apply Hk.
      now apply (keys_filter_incl f).
  - destruct (f (k', v')); simpl; auto.
    destruct (String.eqb_spec k k'); [contradiction|auto].
Qed.

Lemma touches_get {R} owner o s s' (e : ending R) id :
  touches owner o s s' e ->
  NoDup (Obj.keys (pendingPayments s)) ->
  Obj.get id (pendingPayments s') = Obj.get id (pendingPayments s) \/
  (owner = Some id /\ Obj.get id (pendingPayments s') = None).
Proof.
  intros [[->|(id' & Ho & ->)] _] ND; [now left|].
  destruct (String.eqb_spec id id') as [->|Hne].
  - right. split; auto. now apply get_delete_same.
  - left. now apply get_delete_other.
Qed.

Lemma before_status c l s owner o base id :
  before c l s owner o base ->
  NoDup (Obj.keys (registry c)) ->
  (forall body u r n, l = UssdInit body u r n -> u <> id) ->
  option_map pstatus (Obj.get id (registry c)) <> Some PENDING ->
  option_map pstatus (Obj.get id (pendingPayments s)) <> Some PENDING.
Proof.
  unfold registry. intros Hb ND Hfresh Hst.
  destruct Hb; unfold confirm;
    cbn [pendingPayments set_pendingPayments set_timers]; auto.
  - rewrite sweep_filter, get_filter by assumption.
    destruct (Obj.get id (pendingPayments (st c))) as [p|]; [|easy].
    destruct (survives now (id, p)); easy.
  - rewrite get_set.
    destruct (String.eqb_spec id uuid) as [->|]; auto.
    exfalso. eapply Hfresh; eauto.
  - rewrite get_update. destruct (String.eqb id id0); auto.
    destruct (Obj.get id (pendingPayments (st c))); simpl; congruence.
Qed.

Lemma step_status id c l c' :
  well_formed c ->
  step c l = Some c' ->
  (forall body u r n, l = UssdInit body u r n -> u <> id) ->
  status_of id c <> Some PENDING ->
  status_of id c' <> Some PENDING.
Proof.
  intros (ND & _ & Hpool) Hstep Hfresh Hst.
  destruct (step_before c l c' Hpool Hstep)
    as (s & owner & o & base & e & Hb & Ht & _).
  pose proof (before_status _ _ _ _ _ _ id Hb ND Hfresh Hst) as H1.
  pose proof (before_registry_nodup _ _ _ _ _ _ Hb ND) as ND1.
  unfold status_of.
  destruct (touches_get _ _ _ _ _ id Ht ND1) as [->|[_ ->]]; [exact H1|easy].
Qed.

Lemma keys_step c l c' id :
  well_formed c ->
  step c l = Some c' ->
  In id (Obj.keys (registry c')) ->
  In id (Obj.keys (registry c)) \/ In id (ussd_ids [l]).
Proof.
  intros (ND & _ & Hpool) Hstep Hin.
  destruct (step_before c l c' Hpool Hstep)
    as (s & owner & o & base & e & Hb & Ht & _).
  assert (H1 : In id (Obj.keys (pendingPayments s))).
  { unfold registry in Hin. destruct Ht as [[E|(id' & _ & E)] _];
      rewrite E in Hin; auto. now apply (keys_delete_incl id'). }
  clear Ht Hin. unfold registry.
  destruct Hb; unfold confirm in H1;
    cbn [pendingPayments set_pendingPayments set_timers] in H1; auto.
  - left. rewrite sweep_filter in H1 by assumption.
    now apply (keys_filter_incl (survives now)).
  - rewrite keys_set in H1.
    destruct (existsb (String.eqb uuid) (Obj.keys (pendingPayments (st c))));
      auto.
    apply in_app_or in H1 as [H1|[<-|[]]]; auto. right. now left.
  - rewrite keys_update in H1. auto.
Qed.

Lemma keys_reaches ls c :
  reaches ls c -> incl (Obj.keys (registry c)) (ussd_ids ls).
Proof.
  induction 1 as [|ls c l c' Hr IH Hs]; [easy|].
  intros id Hin. rewrite ussd_ids_app. apply in_or_app.
  destruct (keys_step c l c' id (well_formed_reaches _ _ Hr) Hs Hin); auto.
Qed.

Lemma spent_step id ls c l c' :
  reaches ls c ->
  ids_fresh (ls ++ [l]) ->
  step c l = Some c' ->
  spent id ls c -> spent id (ls ++ [l]) c'.
Proof.
  intros Hr Hf Hs [Hin Hst]. split.
  - rewrite ussd_ids_app. apply in_or_app. now left.
  - eapply step_status; eauto using well_formed_reaches.
    intros body u r n -> ->. now apply ids_fresh_last in Hf.
Qed.

Lemma spent_exec ls2 : forall ls1 c1 c2 id,
  reaches ls1 c1 ->
  ids_fresh (ls1 ++ ls2) ->
  exec c1 ls2 = Some c2 ->
  spent id ls1 c1 -> spent id (ls1 ++ ls2) c2.
Proof.
  induction ls2 as [|l ls2 IH]; intros ls1 c1 c2 id Hr Hf He Hsp; simpl in He.
  - injection He as <-. now rewrite app_nil_r.
  - destruct (step c1 l) as [c|] eqn:Hs; [|discriminate].
    change (l :: ls2) with ([l] ++ ls2) in *. rewrite app_assoc in *.
    apply (IH (ls1 ++ [l]) c c2 id); auto.
    + econstructor; eauto.
    + eapply spent_step; eauto. eapply ids_fresh_prefix; eauto.
Qed.

Lemma consumes_pending c l id :
  consumes c l id -> status_of id c = Some PENDING.
Proof.
  intros (body & a & ph & _ & _ & Hf & _). unfold status_of, registry in *.
  destruct (find_session_get _ _ _ _ Hf) as (p & -> & Hm). simpl.
  unfold is_match in Hm. apply andb_true_iff in Hm as [Hm _].
  apply andb_true_iff in Hm as [Hm _]. now destruct (pstatus p).
Qed.

Lemma consumes_step c l id c' :
  consumes c l id -> step c l = Some c' ->
  status_of id c' = Some CONFIRMED.
Proof.
  intros (body & a & ph & -> & Hc & Hf & Hne) Hstep.
  cbn [step] in Hstep. injection Hstep as <-.
  unfold spawn. rewrite sms_incoming_run. unfold registry in Hf.
  rewrite Hc, Hf. destruct (String.eqb_spec id ""); [contradiction|].
  destruct (find_session_get _ _ _ _ Hf) as (p & Hg & Hm). rewrite Hg.
  assert (Hconf : option_map pstatus
            (Obj.get id (pendingPayments (confirm id (st c)))) = Some CONFIRMED).
  { unfold confirm. cbn [pendingPayments set_pendingPayments].
    now rewrite get_update, String.eqb_refl, Hg. }
  unfold status_of.
  destruct (profileMap (offer p)) as [prof|]; [|exact Hconf].
  pose proof (guar_run _ _ _ no_inputs _ _
                (issue_touches id prof (confirm id (st c)))) as Hr.
  destruct (run _ no_inputs (confirm id (st c))) as [s' [r|er|aw k]];
    cbn [st]; [| |destruct Hr as [Hr _]];
    destruct Hr as (_ & _ & ->); auto.
Qed.

Local Open Scope string_scope.
Local Open Scope Z_scope.
Local Open Scope prog_scope.
Local Open Scope list_scope.

(** ** A session is consumed once *)

(** C5.  In a run in which the identifier generator never repeats itself,
    a confirmation that is matched with a session finds it PENDING and
    leaves it CONFIRMED before its handler reaches any [await]; whatever
    happens next (other requests, sweeper ticks, the issuance still parked
    on the device or resumed), no later confirmation is matched with that
    session. *)
Theorem session_consumed_once ls1 l1 ls2 l2 c1 c1' c2 id :
  exec start ls1 = Some c1 ->
  step c1 l1 = Some c1' ->
  exec c1' ls2 = Some c2 ->
  ids_fresh (ls1 ++ l1 :: ls2 ++ [l2]) ->
  consumes c1 l1 id ->
  status_of id c1 = Some PENDING /\
  status_of id c1' = Some CONFIRMED /\
  ~ consumes c2 l2 id.
Proof.
  intros He1 Hs1 He2 Hfresh Hcons.
  pose proof (exec_reaches _ _ He1) as Hr1.
  pose proof (consumes_pending _ _ _ Hcons) as Hpend.
  pose proof (consumes_step _ _ _ _ Hcons Hs1) as Hconf.
  split; [exact Hpend|]. split; [exact Hconf|].
  intros Hagain. apply consumes_pending in Hagain.
  assert (Hr1' : reaches (ls1 ++ [l1]) c1') by (econstructor; eauto).
  assert (Hsp : spent id (ls1 ++ [l1]) c1').
  { split.
    - apply (keys_reaches _ _ Hr1'). unfold status_of in Hconf.
      destruct (Obj.get id (pendingPayments (st c1'))) eqn:E; [|discriminate].
      eapply get_in_keys; eauto.
    - rewrite Hconf. discriminate. }
  assert (Hf2 : ids_fresh ((ls1 ++ [l1]) ++ ls2)).
  { apply (ids_fresh_prefix _ [l2]). rewrite <- !app_assoc. exact Hfresh. }
  destruct (spent_exec ls2 _ _ _ id Hr1' Hf2 He2 Hsp) as [_ Hno].
  contradiction.
Qed.

Local Open Scope string_scope.
Local Open Scope Z_scope.
Local Open Scope prog_scope.
Local Open Scope list_scope.

(** ** The registry is ordered by age *)

Lemma with_status_same p : with_status (pstatus p) p = p.
Proof. now destruct p. Qed.

Lemma thins_refl reg : thins reg reg.
Proof.
  induction reg as [|[k p] reg IH]; [constructor|].
  rewrite <- (with_status_same p) at 2. now constructor.
Qed.

Lemma thins_filter f reg : thins reg (filter f reg).
Proof.
  induction reg as [|[k p] reg IH]; simpl; [constructor|].
  destruct (f (k, p)); [|now constructor].
  rewrite <- (with_status_same p) at 2. now constructor.
Qed.

Lemma thins_delete id reg : thins reg (Obj.delete id reg).
Proof.
  induction reg as [|[k p] reg IH]; simpl; [constructor|].
  destruct (String.eqb id k).
  - constructor. apply thins_refl.
  - rewrite <- (with_status_same p) at 2. now constructor.
Qed.

Lemma thins_update id status reg :
  thins reg (Obj.update id (with_status status) reg).
Proof.
  induction reg as [|[k p] reg IH]; simpl; [constructor|].
  destruct (String.eqb id k).
  - apply thins_keep, thins_refl.
  - rewrite <- (with_status_same p) at 2. now constructor.
Qed.

Lemma thins_in reg reg' k p' :
  thins reg reg' -> In (k, p') reg' ->
  exists p, In (k, p) reg /\ createdAt p = createdAt p'.
Proof.
  induction 1 as [|kp r r' _ IH|k0 p0 status r r' _ IH]; simpl.
  - tauto.
  - intros Hin. destruct (IH Hin) as (p & H1 & H2). eauto.
  - intros [[= -> <-]|Hin].
    + exists p0. split; auto.
    + destruct (IH Hin) as (p & H1 & H2). eauto.
Qed.

Lemma thins_sorted reg reg' :
  thins reg reg' -> StronglySorted older reg -> StronglySorted older reg'.
Proof.
  induction 1 as [|kp r r' Ht IH|k0 p0 status r r' Ht IH]; intros Hs.
  - constructor.
  - inversion Hs; subst. auto.
  - inversion Hs as [|? ? Hs' Hall]; subst. constructor; auto.
    apply Forall_forall. intros [k q] Hin.
    destruct (thins_in _ _ _ _ Ht Hin) as (q0 & Hq0 & E).
    rewrite Forall_forall in Hall. specialize (Hall _ Hq0).
    unfold older in *. simpl in *. lia.
Qed.

Lemma nondecreasing_head a l :
  nondecreasing (a :: l) = true -> forall t, In t l -> a <= t.
Proof.
  revert a. induction l as [|b l IH]; intros a H t Hin; [easy|].
  simpl in H. apply andb_true_iff in H as [Hab H].
  apply Z.leb_le in Hab. destruct Hin as [<-|Hin]; [exact Hab|].
  specialize (IH b H t Hin). lia.
Qed.

Lemma nondecreasing_snoc l x :
  nondecreasing (l ++ [x]) = true ->
  nondecreasing l = true /\ forall t, In t l -> t <= x.
Proof.
  induction l as [|a l IH]; intros H; [split; [reflexivity | easy]|].
  assert (Ha := nondecreasing_head a (l ++ [x]) H).
  assert (Hl : nondecreasing (l ++ [x]) = true).
  { simpl in H. destruct (l ++ [x]); [reflexivity|].
    now apply andb_true_iff in H. }
  destruct (IH Hl) as [H1 H2]. split.
  - destruct l as [|b l]; [reflexivity|].
    simpl. apply andb_true_iff. split; auto.
    apply Z.leb_le. apply Ha. now left.
  - intros t [<-|Hin]; auto. apply Ha, in_or_app. right. now left.
Qed.

Lemma clock_monotone_step ls l :
  clock_monotone (ls ++ [l]) ->
  clock_monotone ls /\
  forall body u r now, l = UssdInit body u r now ->
    forall t, In t (ussd_times ls) -> t <= now.
Proof.
  unfold clock_monotone. rewrite ussd_times_app.
  destruct l; simpl; rewrite ?app_nil_r; intros H;
    try (split; [exact H | discriminate]).
  apply nondecreasing_snoc in H as [H1 H2]. split; auto.
  intros ? ? ? ? [= _ _ _ <-]. exact H2.
Qed.

Lemma sorted_snoc reg kp :
  StronglySorted older reg ->
  (forall x, In x reg -> older x kp) ->
  StronglySorted older (reg ++ [kp]).
Proof.
  induction 1 as [|x reg Hs IH Hall]; intros Hle; simpl.
  - repeat constructor.
  - constructor.
    + apply IH. intros y Hy. apply Hle. now right.
    + apply Forall_app. split; auto. repeat constructor. apply Hle. now left.
Qed.

Lemma before_thins c l s owner o base :
  before c l s owner o base ->
  NoDup (Obj.keys (registry c)) ->
  (forall body u r n, l = UssdInit body u r n -> ~ In u (Obj.keys (registry c))) ->
  thins (registry c) (pendingPayments s) \/
  exists body u r n ph,
    l = UssdInit body u r n /\
    pendingPayments s = registry c ++ [(u, new_payment body ph r n)].
Proof.
  unfold registry. intros Hb ND Hfresh.
  destruct Hb; unfold confirm;
    cbn [pendingPayments set_pendingPayments set_timers];
    try (left; apply thins_refl).
  - left. rewrite sweep_filter by assumption. apply thins_filter.
  - right. exists body, uuid, random, now, ph. split; auto.
    apply set_notin. eapply Hfresh; eauto.
  - left. apply thins_update.
Qed.

Lemma touches_thins {R} owner o s s' (e : ending R) :
  touches owner o s s' e -> thins (pendingPayments s) (pendingPayments s').
Proof.
  intros [[->|(id & _ & ->)] _]; [apply thins_refl | apply thins_delete].
Qed.

Lemma thins_trans r1 r2 r3 : thins r1 r2 -> thins r2 r3 -> thins r1 r3.
Proof.
  intros H12. revert r3.
  induction H12 as [|kp r r' _ IH|k p status r r' _ IH]; intros r3 H23.
  - exact H23.
  - apply thins_drop. auto.
  - inversion H23 as [|kp0 r0 r0' H'|k0 p0 status' r0 r0' H']; subst.
    + apply thins_drop. auto.
    + change (with_status status' (with_status status p))
        with (with_status status' p).
      apply thins_keep. auto.
Qed.

Lemma by_age_reaches ls c :
  reaches ls c ->
  clock_monotone ls -> ids_fresh ls ->
  StronglySorted older (registry c) /\
  forall k p, In (k, p) (registry c) -> In (createdAt p) (ussd_times ls).
Proof.
  induction 1 as [|ls c l c' Hr IH Hs]; intros Hclock Hfresh.
  - split; [constructor | easy].
  - destruct (clock_monotone_step _ _ Hclock) as [Hclock' Hnow].
    pose proof (ids_fresh_prefix _ _ Hfresh) as Hfresh'.
    destruct (IH Hclock' Hfresh') as [Hsorted Htimes].
    pose proof (well_formed_reaches _ _ Hr) as (ND & _ & Hpool).
    destruct (step_before c l c' Hpool Hs)
      as (s & owner & o & base & e & Hb & Ht & _).
    apply touches_thins in Ht. fold (registry c') in Ht.
    assert (Hnew : forall body u r n, l = UssdInit body u r n ->
                     ~ In u (Obj.keys (registry c))).
    { intros body u r n -> Hin. apply (keys_reaches _ _ Hr) in Hin.
      now apply ids_fresh_last in Hfresh. }
    destruct (before_thins _ _ _ _ _ _ Hb ND Hnew)
      as [Hth|(body & u & r & n & ph & -> & E)].
    + pose proof (thins_trans _ _ _ Hth Ht) as Hth'. split.
      * eapply thins_sorted; eauto.
      * intros k p Hin. destruct (thins_in _ _ _ _ Hth' Hin) as (p0 & H0 & <-).
        rewrite ussd_times_app. apply in_or_app. left. eauto.
    + assert (Hs2 : StronglySorted older (pendingPayments s)).
      { rewrite E. apply sorted_snoc; auto. intros [k q] Hin.
        unfold older. simpl. eapply Hnow; eauto. }
      split.
      * eapply thins_sorted; eauto.
      * intros k p Hin. destruct (thins_in _ _ _ _ Ht Hin) as (p0 & H0 & <-).
        rewrite ussd_times_app. apply in_or_app.
        rewrite E in H0. apply in_app_or in H0 as [H0|[[= <- <-]|[]]].
        -- left. eauto.
        -- right. now left.
Qed.

Local Open Scope string_scope.
Local Open Scope Z_scope.
Local Open Scope prog_scope.
Local Open Scope list_scope.

(** ** The matcher picks the first session in key order *)

Lemma find_split {A} (f : A -> bool) l x :
  find f l = Some x ->
  exists l1 l2, l = l1 ++ x :: l2 /\ f x = true /\
                forall y, In y l1 -> f y = false.
Proof.
  induction l as [|a l IH]; simpl; [discriminate|].
  destruct (f a) eqn:Ea.
  - intros [= ->]. exists [], l. repeat split; auto. intros y [].
  - intros H. destruct (IH H) as (l1 & l2 & -> & Hx & Hl1).
    exists (a :: l1), l2. repeat split; auto.
    intros y [<-|Hy]; auto.
Qed.

Lemma find_session_first a ph reg id :
  NoDup (Obj.keys reg) ->
  find_session a ph reg = Some id ->
  exists r1 p r2,
    reg = r1 ++ (id, p) :: r2 /\
    is_match a ph p = true /\
    forall k q, In (k, q) r1 -> is_match a ph q = false.
Proof.
  intros ND Hf. unfold find_session in Hf.
  destruct (find_split _ _ _ Hf) as (l1 & l2 & Hk & Hid & Hl1).
  unfold Obj.keys in Hk. apply map_eq_app in Hk as (r1 & r2' & -> & <- & Hk).
  destruct r2' as [|[k p] r2]; [discriminate|]. simpl in Hk.
  injection Hk as -> <-.
  assert (Hg : forall k q, In (k, q) (r1 ++ (id, p) :: r2) ->
                 Obj.get k (r1 ++ (id, p) :: r2) = Some q).
  { intros k q Hin. now apply in_get. }
  exists r1, p, r2. split; [reflexivity|]. split.
  - rewrite (Hg id p) in Hid; auto. apply in_or_app. right. now left.
  - intros k q Hin. specialize (Hl1 k).
    rewrite (Hg k q) in Hl1 by (apply in_or_app; now left).
    apply Hl1. change k with (fst (k, q)). now apply in_map.
Qed.

Lemma find_session_some a ph reg id p :
  Obj.get id reg = Some p -> is_match a ph p = true ->
  exists id', find_session a ph reg = Some id'.
Proof.
  intros Hg Hm. unfold find_session.
  destruct (find _ (Obj.keys reg)) as [id'|] eqn:E; [eauto|].
  exfalso. pose proof (find_none _ _ E id (get_in_keys _ _ _ Hg)) as Hn.
  simpl in Hn. rewrite Hg in Hn. congruence.
Qed.

Lemma uuids_reaches ls c :
  reaches ls c -> forall u, In u (ussd_ids ls) -> is_uuid u = true.
Proof.
  induction 1 as [|ls c l c' _ IH Hs]; [easy|].
  intros u Hin. rewrite ussd_ids_app in Hin.
  apply in_app_or in Hin as [Hin|Hin]; auto.
  destruct l; simpl in Hin; try contradiction.
  destruct Hin as [<-|[]]. cbn [step] in Hs.
  now destruct (is_uuid uuid).
Qed.

Lemma keys_nonempty ls c id :
  reaches ls c -> In id (Obj.keys (registry c)) -> id <> "".
Proof.
  intros Hr Hin ->. apply (keys_reaches _ _ Hr) in Hin.
  now apply (uuids_reaches _ _ Hr) in Hin.
Qed.

Lemma sorted_tail (r1 r2 : Obj.t payment) :
  StronglySorted older (r1 ++ r2) -> StronglySorted older r2.
Proof.
  induction r1 as [|x r1 IH]; simpl; auto.
  intros H. inversion H; subst. auto.
Qed.

(** ** Oldest first *)

(** C1, as worded, fails: the matcher reads no creation time, it takes
    the first key of the registry, in insertion order, whose session
    matches.  With the clock set back between two intake calls, the
    session created at 2000 is stored first and the one created at 1000
    second; the confirmation is matched with the first, the newer one,
    which is marked CONFIRMED, and the older one stays PENDING. *)
Lemma clock_step_back_matches_newer :
  (option_map createdAt (Obj.get S1 (registry (after clock_steps_back)))
     = Some 2000 /\
   option_map createdAt (Obj.get S2 (registry (after clock_steps_back)))
     = Some 1000 /\
   consumes (after clock_steps_back) (SmsIncoming sms_1000) S1 /\
   status_of S1 (after (clock_steps_back ++ [SmsIncoming sms_1000]))
     = Some CONFIRMED /\
   status_of S2 (after (clock_steps_back ++ [SmsIncoming sms_1000]))
     = Some PENDING) /\
  ~ oldest_first_always.
Proof.
  assert (H1 : consumes (after clock_steps_back) (SmsIncoming sms_1000) S1).
  { exists sms_1000, (JsNumber.of_Z 1000), "321234567".
    repeat split; try (vm_compute; reflexivity). discriminate. }
  split; [repeat split; try (vm_compute; reflexivity); exact H1|].
  intros H.
  apply (H clock_steps_back (after clock_steps_back) sms_1000
           (JsNumber.of_Z 1000) "321234567"
           S2 (Payment "321234567" (JsNumber.of_Z 1000) (Str "5h") "LMNOPQ"
                       PENDING 1000)
           S1 (Payment "321234567" (JsNumber.of_Z 1000) (Str "1h") "ABCDEF"
                       PENDING 2000));
    try (vm_compute; reflexivity).
  exact H1.
Qed.

(** C1, amended.  In a run in which [Date.now()] never decreases from one
    intake call to the next and the identifier generator never repeats
    itself,
    a confirmation whose (amount, phone) is that of some PENDING session
    is matched with a session whose [createdAt] is the earliest among all
    the PENDING sessions with that amount and phone, and that session is
    the one marked CONFIRMED. *)
Theorem oldest_pending_first ls c body a ph id0 p0 :
  exec start ls = Some c ->
  clock_monotone ls -> ids_fresh ls ->
  confirmation body = Some (a, ph) ->
  Obj.get id0 (registry c) = Some p0 -> is_match a ph p0 = true ->
  exists id p c',
    consumes c (SmsIncoming body) id /\
    Obj.get id (registry c) = Some p /\
    is_match a ph p = true /\
    step c (SmsIncoming body) = Some c' /\
    status_of id c' = Some CONFIRMED /\
    forall id' p',
      Obj.get id' (registry c) = Some p' -> is_match a ph p' = true ->
      createdAt p <= createdAt p' /\
      (createdAt p' <> createdAt p -> id' <> id /\ createdAt p < createdAt p').
Proof.
  intros He Hclock Hfresh Hconf Hg0 Hm0.
  pose proof (exec_reaches _ _ He) as Hr.
  pose proof (well_formed_reaches _ _ Hr) as (ND & _ & _).
  destruct (by_age_reaches _ _ Hr Hclock Hfresh) as [Hsorted _].
  destruct (find_session_some _ _ _ _ _ Hg0 Hm0) as [id Hf].
  destruct (find_session_first _ _ _ _ ND Hf) as (r1 & p & r2 & E & Hm & Hbefore).
  assert (Hg : Obj.get id (registry c) = Some p).
  { apply in_get; auto. rewrite E. apply in_or_app. right. now left. }
  assert (Hcons : consumes c (SmsIncoming body) id).
  { exists body, a, ph. repeat split; auto.
    eapply keys_nonempty; eauto. eapply get_in_keys; eauto. }
  assert (Hle : forall id' p', Obj.get id' (registry c) = Some p' ->
                  is_match a ph p' = true -> createdAt p <= createdAt p').
  { intros id' p' Hg' Hm'. apply get_in in Hg'. rewrite E in Hg', Hsorted.
    apply in_app_or in Hg' as [Hin|[[= <- <-]|Hin]].
    - rewrite (Hbefore _ _ Hin) in Hm'. discriminate.
    - lia.
    - apply sorted_tail in Hsorted.
      inversion Hsorted as [|? ? _ Hall]; subst.
      rewrite Forall_forall in Hall. apply (Hall _ Hin). }
  destruct (step c (SmsIncoming body)) as [c'|] eqn:Hs; [|discriminate].
  exists id, p, c'.
  split; [exact Hcons|]. split; [exact Hg|]. split; [exact Hm|].
  split; [reflexivity|]. split; [eapply consumes_step; eauto|].
  intros id' p' Hg' Hm'. specialize (Hle id' p' Hg' Hm'). split; [exact Hle|].
  intros Hne. split; [|lia].
  intros ->. rewrite Hg in Hg'. injection Hg' as <-. congruence.
Qed.

Local Open Scope string_scope.
Local Open Scope Z_scope.
Local Open Scope prog_scope.
Local Open Scope list_scope.

(** ** Connection attempts *)

(** C7, as worded, fails: with the guard flag set, [ensureMikrotik] does
    not start a second attempt, and it does not wait for the first either;
    resumed at the next turn while the attempt is still in flight, it
    throws 'MikroTik non disponible'. *)
Lemma ensure_does_not_wait : ~ ensure_waits_for_attempt.
Proof.
  intros H. specialize (H attempt_in_flight no_inputs eq_refl eq_refl).
  cbn in H.
  exact (H true no_inputs attempt_in_flight eq_refl eq_refl).
Qed.

(** C7, amended.  Called while the guard flag is set and the client is
    not ready, [ensureMikrotik] makes no call on the client and changes
    nothing; it is parked for one turn of the job queue only, and then
    returns if the client has become ready in the meantime and throws
    'MikroTik non disponible' otherwise.  In every configuration that the
    event loop reaches, at most one connection attempt is in flight, and
    one is in flight exactly when the guard flag is set. *)
Theorem guard_flag_excludes_second_attempt :
  (forall s i,
      reconnecting s = true -> mikrotikReady s = false ->
      exists k,
        run ensureMikrotik i s = (s, Parked OnSettled k) /\
        forall ok i1 s1,
          run (k ok) i1 s1 =
            (s1, if mikrotikReady s1 then Done tt else Failed Unavailable)) /\
  (forall ls c,
      exec start ls = Some c ->
      (in_flight c <= 1)%nat /\
      (in_flight c = 1%nat <-> reconnecting (st c) = true)).
Proof.
  split.
  - intros s i Hre Hrd. unfold ensureMikrotik, connectMikrotik.
    do 3 (cbn; rewrite ?Hrd, ?Hre). eexists. split; [reflexivity|].
    intros ok i1 s1. cbn. now destruct (mikrotikReady s1).
  - intros ls c He. apply exec_reaches, well_formed_reaches in He.
    destruct He as (_ & Hfl & _). rewrite Hfl.
    destruct (reconnecting (st c)); split; try lia; split; congruence.
Qed.

Local Open Scope string_scope.
Local Open Scope Z_scope.
Local Open Scope prog_scope.
Local Open Scope list_scope.

(** ** Histories *)

Lemma outcomes_weaken {R} (P Q : list action -> state -> R + error -> Prop)
      (p : prog R) s h :
  (forall h s r, P h s r -> Q h s r) ->
  outcomes P p s h -> outcomes Q p s h.
Proof.
  intros W. revert s h.
  induction p as [r|e|k IH|s' k IH|c k IH|k IH|k IH|k IH|a k IH];
    intros s h Ho; simpl in *; auto.
Qed.

Lemma outcomes_bind {A B} (P : list action -> state -> B + error -> Prop)
      (p : prog A) (f : A -> prog B) s h :
  outcomes
    (fun h' s' r =>
       match r with
       | inl x => outcomes P (f x) s' h'
       | inr e => P h' s' (inr e)
       end) p s h ->
  outcomes P (bind p f) s h.
Proof.
  revert s h.
  induction p as [r|e|k IH|s' k IH|c k IH|k IH|k IH|k IH|a k IH];
    intros s h Ho; simpl in *; auto.
Qed.

Ltac exec_outcomes :=
  repeat (cbn -[Obj.set Obj.delete Obj.update JsString.substring
                JsString.slice_last String.append];
          intros;
          match goal with
          | |- context [if ?b then _ else _] => destruct b eqn:?
          end);
  cbn -[Obj.set Obj.delete Obj.update JsString.substring
        JsString.slice_last String.append]; intros.


Lemma outcomes_prefix {R} (P : list action -> state -> R + error -> Prop)
      (p : prog R) s h0 h :
  outcomes (fun h' s' r => P (h0 ++ h') s' r) p s h ->
  outcomes P p s (h0 ++ h).
Proof.
  revert s h.
  induction p as [r|e|k IH|s' k IH|c k IH|k IH|k IH|k IH|a k IH];
    intros s h Ho; simpl in *; auto;
    try (rewrite <- app_assoc; apply IH; exact Ho).
  - intros x. rewrite <- app_assoc. apply IH, Ho.
  - intros ok s1. rewrite <- app_assoc. apply IH, Ho.
Qed.

Lemma issue_outcomes id prof s :
  outcomes (fun h s' r => r = inl tt /\ issue_ends id h s')
           (issue id prof) s [].
Proof.
  unfold issue, generateVoucher, ensureMikrotik, connectMikrotik,
    write_user_add, safeDisconnect.
  exec_outcomes.
  all: split; [reflexivity|]; unfold issue_ends, forget;
       cbn -[Obj.set Obj.delete Obj.update JsString.substring
             JsString.slice_last String.append].
  all: split;
       [ match goal with
         | |- exists b, Wrote ?X _ = _ /\ _ => exists X; split; reflexivity
         end | ].
  all: split; intros Hw; try discriminate Hw.
  all: try (repeat constructor).
  all: do 2 eexists; cbn [In];
       repeat (first [left; reflexivity | right]).
Qed.

Local Open Scope string_scope.
Local Open Scope Z_scope.
Local Open Scope prog_scope.
Local Open Scope list_scope.

(** ** Every behaviour of the matcher *)

Lemma sms_incoming_outcomes
      (P : list action -> state -> reply + error -> Prop) body s :
  outcomes P (sms_incoming body) s [] =
  match confirmation body with
  | None =>
      P [] s (if message_not_string body then inr TypeError
              else inl (Status 200))
  | Some (a, ph) =>
      match find_session a ph (pendingPayments s) with
      | None => P [] s (inl (Status 200))
      | Some id =>
          if String.eqb id "" then P [] s (inl (Status 200))
          else
            match Obj.get id (pendingPayments s) with
            | None => P [] s (inr TypeError)
            | Some p =>
                match profileMap (offer p) with
                | None =>
                    P [Wrote s (confirm id s)] (confirm id s)
                      (inl (Status 200))
                | Some prof =>
                    outcomes P (issue id prof ;; Ret (Status 200))
                             (confirm id s) [Wrote s (confirm id s)]
                end
            end
      end
  end.
Proof.
  unfold sms_incoming, confirmation, message_not_string.
  destruct body as [sender message]; cbn [b_sender b_message].
  destruct message as [| |b|n|m];
    try (destruct (truthy sender); cbn [negb orb andb];
         [|reflexivity];
         match goal with |- context [truthy ?v] => destruct (truthy v) end;
         cbn [negb orb andb]; [|reflexivity];
         destruct (mvola_test sender); reflexivity).
  destruct (truthy sender); cbn [negb orb andb]; [|reflexivity].
  destruct (truthy (Str m)); cbn [negb orb andb]; [|reflexivity].
  destruct (mvola_test sender); cbn [negb orb andb]; [|reflexivity].
  cbn [match_value bind].
  destruct (Regex.match1 amount_re m) as [at_|]; [|reflexivity].
  cbn [bind].
  destruct (Regex.match1 phone_re m) as [pt|]; [|reflexivity].
  cbn [bind outcomes].
  destruct (find_session _ _ (pendingPayments s)) as [id|]; [|reflexivity].
  destruct (String.eqb id ""); [reflexivity|].
  destruct (Obj.get id (pendingPayments s)) as [p|]; [|reflexivity].
  cbn [modify bind outcomes app].
  destruct (profileMap (offer p)); reflexivity.
Qed.

Lemma issue_then_ack
      (P : list action -> state -> reply + error -> Prop) id prof s h0 :
  (forall h s', issue_ends id h s' -> P (h0 ++ h) s' (inl (Status 200))) ->
  outcomes P (issue id prof ;; Ret (Status 200)) s h0.
Proof.
  intros HP. apply outcomes_bind.
  rewrite <- (app_nil_r h0). apply outcomes_prefix.
  eapply outcomes_weaken; [|apply issue_outcomes].
  intros h s' r [-> He]. cbn. auto.
Qed.

(** C9.  The handler does not acknowledge every request: for the body
    [{ sender: "MVola", message: 5 }] the sender is accepted, the message
    is truthy and has no [match] method, and the handler throws a
    TypeError at [message.match] before any reply; no status is sent, and
    so not every request ends with [res.sendStatus(200)]. *)
Lemma number_message_not_acknowledged :
  run (handler (sms_incoming (SmsBody (Str "MVola") (Num (JsNumber.of_Z 5)))))
      no_inputs initial = (initial, Failed TypeError) /\
  ~ always_acknowledges.
Proof.
  split; [reflexivity|].
  intros H.
  specialize (H (SmsBody (Str "MVola") (Num (JsNumber.of_Z 5))) initial).
  rewrite sms_incoming_outcomes in H. cbn in H. discriminate H.
Qed.

(** The other exits.  For every request whose sender and message are
    JSON scalars and in which no truthy non-string message reaches the
    parser (the message is a string, or is missing or falsy, or the
    sender is rejected), every behaviour of the handler, whatever the
    registry holds, whatever the device answers and whatever runs in
    between, ends with [res.sendStatus(200)]. *)
Theorem string_message_always_acknowledged body s :
  message_not_string body = false ->
  outcomes (fun _ _ r => r = inl (Status 200)) (sms_incoming body) s [].
Proof.
  intros Hm. rewrite sms_incoming_outcomes, Hm.
  destruct (confirmation body) as [[a ph]|]; [|reflexivity].
  destruct (find_session a ph (pendingPayments s)) as [id|] eqn:Hf;
    [|reflexivity].
  destruct (String.eqb id ""); [reflexivity|].
  destruct (find_session_get _ _ _ _ Hf) as (p & -> & _).
  destruct (profileMap (offer p)) as [prof|]; [|reflexivity].
  apply issue_then_ack. reflexivity.
Qed.

(** ** Removal of a matched session *)

Lemma find_all_false {A} (f : A -> bool) l :
  (forall x, In x l -> f x = false) -> find f l = None.
Proof.
  induction l as [|a l IH]; intros H; simpl; auto.
  rewrite (H a) by now left. apply IH. intros x Hx. apply H. now right.
Qed.

Lemma find_session_none a ph reg :
  (forall k q, Obj.get k reg = Some q -> is_match a ph q = false) ->
  find_session a ph reg = None.
Proof.
  intros H. unfold find_session. apply find_all_false.
  intros k _. destruct (Obj.get k reg) as [q|] eqn:E; eauto.
Qed.

Lemma no_match_no_op body a ph s i :
  confirmation body = Some (a, ph) ->
  find_session a ph (pendingPayments s) = None ->
  run (handler (sms_incoming body)) i s = (s, Done (Some (Status 200))).
Proof. intros Hc Hf. now rewrite sms_incoming_run, Hc, Hf. Qed.

(** The path through the [try] block.  For a confirmation matched with
    a PENDING session whose offer gives a profile, every behaviour of the
    handler,
    whether the issuance succeeds or throws, ends by deleting that session
    from the registry and sending status 200.  If the session was the only
    PENDING one with that amount and phone, the same confirmation
    delivered again to the registry without that session matches nothing:
    the handler sends status 200 and changes no state. *)
Theorem matched_session_removed ls c body a ph id p prof :
  exec start ls = Some c ->
  confirmation body = Some (a, ph) ->
  find_session a ph (registry c) = Some id ->
  Obj.get id (registry c) = Some p ->
  profileMap (offer p) = Some prof ->
  outcomes
    (fun h s r =>
       r = inl (Status 200) /\
       exists b, List.last h (Did Close) = Wrote b (forget id b) /\
                 s = forget id b)
    (sms_incoming body) (st c) [] /\
  ((forall id' p', id' <> id -> Obj.get id' (registry c) = Some p' ->
                   is_match a ph p' = false) ->
   forall s2 i,
     pendingPayments s2 = Obj.delete id (registry c) ->
     run (handler (sms_incoming body)) i s2 = (s2, Done (Some (Status 200)))).
Proof.
  intros He Hc Hf Hg Hp.
  pose proof (exec_reaches _ _ He) as Hr.
  pose proof (well_formed_reaches _ _ Hr) as (ND & _ & _).
  unfold registry in *. split.
  - rewrite sms_incoming_outcomes, Hc, Hf, Hg, Hp.
    destruct (String.eqb_spec id "") as [->|_].
    { exfalso. eapply (keys_nonempty _ _ "" Hr); eauto.
      eapply get_in_keys; eauto. }
    apply issue_then_ack. intros h s' ((b & Hl & ->) & _).
    split; [reflexivity|]. exists b. split; [|reflexivity].
    destruct h as [|x h]; [|exact Hl].
    cbn in Hl. discriminate Hl.
  - intros Honly s2 i E. apply (no_match_no_op body a ph); auto.
    rewrite E. apply find_session_none. intros k q Hk.
    destruct (String.eqb_spec k id) as [->|Hne].
    + rewrite get_delete_same in Hk by assumption. discriminate.
    + rewrite get_delete_other in Hk by assumption. eauto.
Qed.

Local Open Scope string_scope.
Local Open Scope Z_scope.
Local Open Scope prog_scope.
Local Open Scope list_scope.

(** ** Offers *)

(** C4, as worded, fails: an intake call with the offer "2h", which is
    not in the profile table, is accepted and its session is stored. *)
Lemma unknown_offer_accepted :
  profileMap (Str "2h") = None /\
  run (handler (ussd_init (intake "2h")))
      (Inputs 1000 S1 ["0.abcdefghijk"]) initial =
    (set_pendingPayments
       [(S1, Payment "321234567" (JsNumber.of_Z 1000) (Str "2h") "ABCDEF"
                     PENDING 1000)] initial,
     Done (Some (Created S1 "ABCDEF"))) /\
  ~ intake_refuses_unknown_offer.
Proof.
  split; [reflexivity|]. split; [reflexivity|].
  intros H.
  specialize (H (intake "2h") (Inputs 1000 S1 ["0.abcdefghijk"]) initial
                eq_refl).
  discriminate H.
Qed.

Lemma names_no_profile_undefined offer :
  names_no_profile offer -> profileMap offer = None.
Proof.
  intros H. destruct offer as [| |b|n|k]; try reflexivity.
  destruct (H k eq_refl) as [Htable Hproto]. unfold profileMap.
  destruct (String.eqb_spec k "1h") as [->|_];
    [elim Htable; simpl; auto|].
  destruct (String.eqb_spec k "5h") as [->|_];
    [elim Htable; simpl; auto|].
  destruct (String.eqb_spec k "24h") as [->|_];
    [elim Htable; simpl; auto|].
  destruct (existsb (String.eqb k) inherited_keys) eqn:E; [|reflexivity].
  apply existsb_exists in E as (x & Hin & Hx).
  apply String.eqb_eq in Hx. subst x. contradiction.
Qed.

(** C4, amended.  The fields of the body being JSON scalars: an intake
    call in which the phone, the amount or the offer is missing or falsy
    is refused with the validation error and stores nothing.  An intake
    call with a non-empty phone string, a truthy amount and a truthy
    offer is accepted and its session stored, whether or not the offer
    is in the profile table.  At confirmation time a matched session
    whose offer is neither a key of the profile table nor the name of a
    member of [Object.prototype] is marked CONFIRMED and the handler
    returns status 200 at once: no call is made on the device and no
    voucher is stored. *)
Theorem offer_checked_at_confirmation :
  (forall body i s,
      truthy (b_phone body) = false \/ truthy (b_amount body) = false \/
      truthy (b_offer body) = false ->
      run (handler (ussd_init body)) i s =
        (s, Done (Some MissingParameters))) /\
  (forall body ph now uuid random s,
      b_phone body = Str ph -> ph <> "" ->
      truthy (b_amount body) = true -> truthy (b_offer body) = true ->
      run (handler (ussd_init body)) (Inputs now uuid [random]) s =
        (set_pendingPayments
           (Obj.set uuid (new_payment body ph random now)
                    (pendingPayments s)) s,
         Done (Some (Created uuid (ref (new_payment body ph random now)))))) /\
  (forall body a ph id p i s,
      confirmation body = Some (a, ph) ->
      find_session a ph (pendingPayments s) = Some id -> id <> "" ->
      Obj.get id (pendingPayments s) = Some p ->
      names_no_profile (offer p) ->
      run (handler (sms_incoming body)) i s =
        (confirm id s, Done (Some (Status 200))) /\
      calls (confirm id s) = calls s /\
      vouchers (confirm id s) = vouchers s).
Proof.
  split; [|split].
  - intros body i s H. unfold handler, ussd_init.
    destruct H as [-> | [-> | ->]]; cbn [negb orb];
      rewrite ?orb_true_r; reflexivity.
  - intros body ph now uuid random s Hph Hne Ha Ho.
    rewrite ussd_init_run, Hph, Ha, Ho. cbn [truthy].
    destruct (String.eqb_spec ph ""); [contradiction|]. reflexivity.
  - intros body a ph id p i s Hc Hf Hne Hg Hp.
    apply names_no_profile_undefined in Hp.
    rewrite sms_incoming_run, Hc, Hf, Hg, Hp.
    destruct (String.eqb_spec id ""); [contradiction|]. auto.
Qed.

(** ** The sweeper *)

(** C6, as worded, fails: a session confirmed just before the end of its
    window, whose issuance is still parked on the device, is CONFIRMED and
    is deleted by the next tick. *)
Lemma sweeper_deletes_confirmed :
  let ls := connected ++ [UssdInit (intake "1h") S1 "0.abcdefghijk" 0;
                          SmsIncoming sms_1000] in
  (exists c c',
      exec start ls = Some c /\
      status_of S1 c = Some CONFIRMED /\
      List.length (pool c) = 1%nat /\
      step c (SweeperTick 420001) = Some c' /\
      registry c' = []) /\
  ~ sweeper_spares_confirmed.
Proof.
  cbv zeta.
  destruct (exec start (connected ++ [UssdInit (intake "1h") S1 "0.abcdefghijk" 0;
                          SmsIncoming sms_1000])) as [c|] eqn:He;
    [|vm_compute in He; discriminate He].
  destruct (step c (SweeperTick 420001)) as [c'|] eqn:Hs;
    [|discriminate Hs].
  assert (Hst : status_of S1 c = Some CONFIRMED).
  { vm_compute in He. injection He as <-. reflexivity. }
  assert (Hreg : registry c' = []).
  { vm_compute in He. injection He as <-. vm_compute in Hs.
    injection Hs as <-. reflexivity. }
  split.
  - exists c, c'. repeat split; auto.
    vm_compute in He. injection He as <-. reflexivity.
  - intros H. unfold status_of in Hst.
    destruct (Obj.get S1 (pendingPayments (st c))) as [p|] eqn:Hg;
      [|discriminate].
    injection Hst as Hst.
    specialize (H _ c 420001 c' S1 p He Hs Hg Hst).
    rewrite Hreg in H. discriminate H.
Qed.

(** C6, amended.  A sweeper tick deletes from the registry exactly the
    sessions whose age exceeds the window of 7 minutes, whatever their
    status; the sessions whose age is within the window stay as they are,
    and nothing else changes. *)
Theorem sweeper_deletes_by_age ls c now c' :
  exec start ls = Some c ->
  step c (SweeperTick now) = Some c' ->
  expiry_window = 420000 /\
  registry c' = filter (survives now) (registry c) /\
  (forall id p,
      Obj.get id (registry c') = Some p <->
      Obj.get id (registry c) = Some p /\
      now - createdAt p <= expiry_window) /\
  st c' = set_pendingPayments (registry c') (st c) /\
  pool c' = pool c.
Proof.
  intros He Hs.
  pose proof (well_formed_reaches _ _ (exec_reaches _ _ He)) as (ND & _ & _).
  cbn [step] in Hs. injection Hs as <-.
  unfold spawn. rewrite sweeper_run. unfold registry in *. cbn [st pool].
  cbn [pendingPayments set_pendingPayments].
  rewrite sweep_filter by assumption.
  split; [reflexivity|]. split; [reflexivity|]. split; [|split; reflexivity].
  intros id p. rewrite get_filter by assumption.
  destruct (Obj.get id (pendingPayments (st c))) as [q|].
  - unfold survives. cbn [snd].
    destruct (Z.gtb_spec (now - createdAt q) expiry_window); cbn [negb].
    + split; [discriminate|]. intros [[= ->] Hle]. lia.
    + split; [intros [= ->]; split; [reflexivity|lia]|]. now intros [[= ->] _].
  - split; [discriminate|]. now intros [? _].
Qed.

Local Open Scope string_scope.
Local Open Scope Z_scope.
Local Open Scope prog_scope.
Local Open Scope list_scope.

(** ** Sessions whose amount is not a number *)

Lemma nan_never_equal a : JsNumber.strict_eq JsNumber.NaN a = false.
Proof. now destruct a. Qed.

Lemma nan_never_matches a ph p :
  amount p = JsNumber.NaN -> is_match a ph p = false.
Proof.
  intros E. unfold is_match. rewrite E, nan_never_equal.
  now rewrite andb_false_r.
Qed.

Lemma before_fresh_owner c l s owner base id :
  before c l s owner Fresh base -> owner = Some id ->
  exists body a ph,
    l = SmsIncoming body /\
    confirmation body = Some (a, ph) /\
    find_session a ph (registry c) = Some id.
Proof.
  intros Hb E. inversion Hb; subst; try discriminate.
  match goal with H : Some _ = Some _ |- _ => injection H as -> end.
  eauto 6.
Qed.

Lemma owners_spent_reaches ls c :
  reaches ls c -> ids_fresh ls -> owners_spent ls c.
Proof.
  induction 1 as [|ls c l c' Hr IH Hs]; intros Hfresh; [intros t []|].
  pose proof (ids_fresh_prefix _ _ Hfresh) as Hfresh'.
  specialize (IH Hfresh').
  destruct (step_before_with
              (fun owner => forall id, owner = Some id -> spent id ls c)
              c l c' IH Hs)
    as (s & owner & o & base & e & Hb & Ht & Hp & HQ).
  assert (Hbase : incl base (pool c)) by apply (before_base _ _ _ _ _ _ Hb).
  assert (Hold : forall t, In t base ->
            exists owner, task_ok owner t /\
              forall id, owner = Some id -> spent id (ls ++ [l]) c').
  { intros t Hin. destruct (IH t (Hbase t Hin)) as (ow & Hok & Hsp).
    exists ow. split; auto. intros id E. eapply spent_step; eauto. }
  intros t Hin. unfold pool_after in Hp.
  destruct e as [r|er|a]; try (rewrite Hp in Hin; auto).
  destruct Hp as (k & Hp & Hok). rewrite Hp in Hin.
  apply in_app_or in Hin as [Hin|[<-|[]]]; auto.
  exists owner. split; auto. intros id ->.
  destruct o as [|aw].
  - (* the first stretch of a handler: the owner was matched just now *)
    inversion Hb; subst.
    assert (Hcons : consumes c (SmsIncoming body) id).
    { exists body, a0, ph. repeat split; auto.
      eapply keys_nonempty; eauto. eapply get_in_keys; eauto. }
    split.
    + rewrite ussd_ids_app. apply in_or_app. left.
      apply (keys_reaches _ _ Hr). eapply get_in_keys; eauto.
    + rewrite (consumes_step _ _ _ _ Hcons Hs). discriminate.
  - eapply spent_step; eauto. apply HQ; [discriminate | reflexivity].
Qed.

Lemma nan_pending_step c l c' :
  well_formed c -> nan_pending c -> step c l = Some c' -> nan_pending c'.
Proof.
  intros (ND & _ & Hpool) Hn Hs.
  destruct (step_before c l c' Hpool Hs)
    as (s & owner & o & base & e & Hb & Ht & _).
  pose proof (before_registry_nodup _ _ _ _ _ _ Hb ND) as ND1.
  assert (Hmid : forall id p, Obj.get id (pendingPayments s) = Some p ->
                   amount p = JsNumber.NaN -> pstatus p = PENDING).
  { intros id p. unfold nan_pending, registry in Hn.
    destruct Hb; unfold confirm;
      cbn [pendingPayments set_pendingPayments set_timers]; eauto.
    - rewrite sweep_filter, get_filter by assumption.
      destruct (Obj.get id (pendingPayments (st c))) as [q|] eqn:E;
        [|discriminate].
      destruct (survives now (id, q)); [|discriminate].
      intros [= <-]. eauto.
    - rewrite get_set. destruct (String.eqb id uuid); eauto.
      now intros [= <-].
    - rewrite get_update.
      destruct (String.eqb_spec id id0) as [->|]; eauto.
      rewrite H1. cbn. intros [= <-] Hnan. cbn in Hnan.
      destruct (find_session_get _ _ _ _ H0) as (q & Hq & Hm).
      rewrite H1 in Hq. injection Hq as <-.
      rewrite (nan_never_matches _ _ _ Hnan) in Hm. discriminate. }
  intros id p Hg. unfold registry in Hg.
  destruct (touches_get _ _ _ _ _ id Ht ND1) as [E|[_ E]];
    rewrite E in Hg; [eauto | discriminate].
Qed.

Lemma nan_pending_reaches ls c : reaches ls c -> nan_pending c.
Proof.
  induction 1 as [|ls c l c' Hr IH Hs]; [intros id p [=]|].
  eapply nan_pending_step; eauto using well_formed_reaches.
Qed.

(** C10.  An intake call whose amount is a non-empty string that is not
    a numeric literal is accepted, and its session is stored with the
    amount [NaN].  A session whose amount is [NaN] is matched by no
    confirmation.  In a run in which the identifier generator never
    repeats itself, such a session stays in the registry, unchanged,
    through every step of the event loop except a sweeper tick at which
    its age exceeds the window. *)
Theorem nan_session_only_expires :
  (forall body ph text now uuid random s,
      b_phone body = Str ph -> ph <> "" ->
      b_amount body = Str text ->
      JsString.trim text <> "" ->
      JsNumber.numeric_literal (JsString.trim text) = None ->
      truthy (b_offer body) = true ->
      run (handler (ussd_init body)) (Inputs now uuid [random]) s =
        (set_pendingPayments
           (Obj.set uuid (new_payment body ph random now)
                    (pendingPayments s)) s,
         Done (Some (Created uuid (ref (new_payment body ph random now)))))
      /\ amount (new_payment body ph random now) = JsNumber.NaN) /\
  (forall c l id p,
      Obj.get id (registry c) = Some p -> amount p = JsNumber.NaN ->
      ~ consumes c l id) /\
  (forall ls c l c' id p,
      exec start ls = Some c -> ids_fresh (ls ++ [l]) ->
      step c l = Some c' ->
      Obj.get id (registry c) = Some p -> amount p = JsNumber.NaN ->
      Obj.get id (registry c') = Some p \/
      exists now, l = SweeperTick now /\
                  Obj.get id (registry c') = None /\
                  now - createdAt p > expiry_window).
Proof.
  split; [|split].
  - intros body ph text now uuid random s Hph Hne Ha Ht Hn Ho.
    assert (Htext : text <> "") by (intros ->; now apply Ht).
    split.
    + rewrite ussd_init_run, Hph, Ha, Ho. cbn [truthy].
      destruct (String.eqb_spec ph ""); [contradiction|].
      destruct (String.eqb_spec text ""); [contradiction|]. reflexivity.
    + unfold new_payment. cbn [amount]. rewrite Ha. cbn [Number].
      unfold JsNumber.of_string. rewrite Hn.
      destruct (String.eqb_spec (JsString.trim text) ""); [contradiction|].
      reflexivity.
  - intros c l id p Hg Hnan (body & a & ph & _ & _ & Hf & _).
    destruct (find_session_get _ _ _ _ Hf) as (q & Hq & Hm).
    rewrite Hg in Hq. injection Hq as <-.
    rewrite (nan_never_matches _ _ _ Hnan) in Hm. discriminate.
  - intros ls c l c' id p He Hfresh Hs Hg Hnan.
    pose proof (exec_reaches _ _ He) as Hr.
    pose proof (well_formed_reaches _ _ Hr) as (ND & _ & _).
    pose proof (nan_pending_reaches _ _ Hr _ _ Hg Hnan) as Hpend.
    pose proof (owners_spent_reaches _ _ Hr (ids_fresh_prefix _ _ Hfresh))
      as Hown.
    destruct (step_before_with
                (fun owner => forall id, owner = Some id -> spent id ls c)
                c l c' Hown Hs)
      as (s & owner & o & base & e & Hb & Ht & _ & HQ).
    pose proof (before_registry_nodup _ _ _ _ _ _ Hb ND) as ND1.
    unfold registry in *.
    assert (Hmid : Obj.get id (pendingPayments s) = Some p \/
              exists now, l = SweeperTick now /\
                          Obj.get id (pendingPayments s) = None /\
                          now - createdAt p > expiry_window).
    { destruct Hb; unfold confirm;
        cbn [pendingPayments set_pendingPayments set_timers]; auto.
      - rewrite sweep_filter, get_filter, Hg by assumption.
        unfold survives. cbn [snd].
        destruct (Z.gtb_spec (now - createdAt p) expiry_window); cbn [negb];
          [right; exists now; repeat split; auto; lia | now left].
      - left. rewrite get_set.
        destruct (String.eqb_spec id uuid) as [->|]; auto.
        exfalso. apply ids_fresh_last in Hfresh. apply Hfresh.
        apply (keys_reaches _ _ Hr). eapply get_in_keys; eauto.
      - left. rewrite get_update.
        destruct (String.eqb_spec id id0) as [->|]; auto.
        exfalso. destruct (find_session_get _ _ _ _ H0) as (q & Hq & Hm).
        rewrite Hg in Hq. injection Hq as <-.
        rewrite (nan_never_matches _ _ _ Hnan) in Hm. discriminate. }
    destruct (touches_get _ _ _ _ _ id Ht ND1) as [E|[Eo E]].
    + rewrite E. destruct Hmid as [Hm|(now & -> & Hm & Hage)]; auto.
      right. exists now. auto.
    + exfalso. destruct o as [|aw].
      * destruct (before_fresh_owner _ _ _ _ _ _ Hb Eo)
          as (body & a & ph & _ & _ & Hf).
        destruct (find_session_get _ _ _ _ Hf) as (q & Hq & Hm).
        unfold registry in Hq. rewrite Hg in Hq. injection Hq as <-.
        rewrite (nan_never_matches _ _ _ Hnan) in Hm. discriminate.
      * assert (Hsp : spent id ls c)
          by (apply HQ; [discriminate | exact Eo]).
        destruct Hsp as [_ Hsp]. apply Hsp. unfold status_of.
        now rewrite Hg, <- Hpend.
Qed.

Local Open Scope Z_scope.
Local Open Scope list_scope.
Local Open Scope string_scope.

(** ** The matcher is sound for the language of a pattern *)

Module RegexFacts.
Import Regex.

Lemma append_assoc (a b c : string) : (a ++ b) ++ c = a ++ (b ++ c).
Proof. induction a as [|x a IH]; simpl; congruence. Qed.

Lemma append_nil_r (a : string) : a ++ "" = a.
Proof. induction a as [|x a IH]; simpl; congruence. Qed.

Lemma length_append (a b : string) :
  String.length (a ++ b) = (String.length a + String.length b)%nat.
Proof. induction a as [|x a IH]; simpl; congruence. Qed.

Lemma take_append (a b : string) :
  JsString.take (String.length (a ++ b) - String.length b) (a ++ b) = a.
Proof.
  rewrite length_append. replace (_ + _ - _)%nat with (String.length a) by lia.
  induction a as [|x a IH]; simpl.
  - now destruct b.
  - now rewrite IH.
Qed.

Section Sound.
Context {A : Type}.

Lemma repeat_sound r (m : string -> captures -> @kont A -> option A) :
  sound_for r m ->
  forall fuel lo hi, sound_for (Rep r lo hi) (repeat m fuel lo hi).
Proof.
  intros Hm fuel.
  induction fuel as [|fuel IH]; intros lo hi s c k x H; simpl in H.
  - destruct (hi_is_zero hi) eqn:Hz; [|discriminate].
    exists "", s. repeat split; auto. constructor. right.
    now destruct hi as [[|]|].
  - destruct (hi_is_zero hi) eqn:Hz.
    { exists "", s. repeat split; auto. constructor. right.
      now destruct hi as [[|]|]. }
    assert (Hhi : hi <> Some O) by (intros ->; discriminate).
    assert (Hiter : forall x,
      m s c (fun s' c' =>
               if Nat.eqb lo 0 && Nat.eqb (String.length s') (String.length s)
               then None
               else repeat m fuel (Nat.pred lo) (hi_pred hi) s' c' k) = Some x ->
      exists s1 s2, s = s1 ++ s2 /\ matches (Rep r lo hi) s1 /\
                    k s2 c = Some x).
    { intros y Hy. apply Hm in Hy as (s1 & s2 & -> & M1 & Hd).
      destruct (_ && _); [discriminate|].
      apply IH in Hd as (s3 & s4 & -> & M2 & Hk).
      exists (s1 ++ s3), s4. rewrite append_assoc. repeat split; auto.
      now apply matches_rep_more. }
    destruct (Nat.ltb 0 lo) eqn:Hlo; [now apply Hiter|].
    destruct (m s c _) as [y|] eqn:Hy.
    + injection H as ->. now apply Hiter.
    + exists "", s. repeat split; auto. constructor. left.
      apply Nat.ltb_ge in Hlo. lia.
Qed.

Lemma run_sound r : groupless r = true -> sound_for r (@run A r).
Proof.
  induction r as [|p|a IHa b IHb|a IHa b IHb|r IH lo hi|r IH];
    intros Hg s c k x H; cbn [run groupless] in *.
  - exists "", s. repeat split; auto. constructor.
  - destruct s as [|ch s]; [discriminate|].
    destruct (p ch) eqn:Hp; [|discriminate].
    exists (String ch ""), s. repeat split; auto. now constructor.
  - apply andb_true_iff in Hg as [Ga Gb].
    apply (IHa Ga) in H as (s1 & s2 & -> & Ma & H).
    apply (IHb Gb) in H as (s3 & s4 & -> & Mb & H).
    exists (s1 ++ s3), s4. rewrite append_assoc. repeat split; auto.
    now constructor.
  - apply andb_true_iff in Hg as [Ga Gb].
    destruct (run a s c k) as [y|] eqn:Ha.
    + injection H as ->. apply (IHa Ga) in Ha as (s1 & s2 & -> & Ma & H).
      exists s1, s2. repeat split; auto. now apply matches_alt_l.
    + apply (IHb Gb) in H as (s1 & s2 & -> & Mb & H).
      exists s1, s2. repeat split; auto. now apply matches_alt_r.
  - exact (repeat_sound r (run r) (IH Hg) _ lo hi s c k x H).
  - discriminate.
Qed.

(** A pattern [(r1)r2] with its only group in front. *)
Lemma run_group_sound r1 r2 s c (k : @kont A) x :
  groupless r1 = true -> groupless r2 = true ->
  run (Seq (Group r1) r2) s c k = Some x ->
  exists g w rest,
    s = g ++ w ++ rest /\ matches r1 g /\ matches r2 w /\
    k rest (Some g) = Some x.
Proof.
  intros G1 G2 H. cbn [run] in H.
  apply (run_sound r1 G1) in H as (g & s2 & -> & M1 & H).
  rewrite take_append in H.
  apply (run_sound r2 G2) in H as (w & rest & -> & M2 & H).
  exists g, w, rest. auto.
Qed.
End Sound.

(** The fuel given to [repeat] is enough: more fuel changes nothing. *)
Section Fuel.
Context {A : Type}.

Lemma local_repeat (m : string -> captures -> @kont A -> option A) :
  local m -> forall fuel lo hi, local (repeat m fuel lo hi).
Proof.
  intros Hm fuel.
  induction fuel as [|fuel IH]; intros lo hi s c k k' Hk; simpl.
  - destruct (hi_is_zero hi); auto.
  - destruct (hi_is_zero hi); [apply Hk; lia|].
    assert (E : m s c (fun s' c' =>
               if Nat.eqb lo 0 && Nat.eqb (String.length s') (String.length s)
               then None
               else repeat m fuel (Nat.pred lo) (hi_pred hi) s' c' k) =
            m s c (fun s' c' =>
               if Nat.eqb lo 0 && Nat.eqb (String.length s') (String.length s)
               then None
               else repeat m fuel (Nat.pred lo) (hi_pred hi) s' c' k')).
    { apply Hm. intros s' c' Hle. destruct (_ && _); auto.
      apply IH. intros s2 c2 Hle2. apply Hk. lia. }
    rewrite E, (Hk s c (le_n _)). reflexivity.
Qed.

Lemma local_run r : local (@run A r).
Proof.
  induction r as [|p|a IHa b IHb|a IHa b IHb|r IH lo hi|r IH];
    intros s c k k' Hk; cbn [run].
  - apply Hk. lia.
  - destruct s as [|ch s]; auto. destruct (p ch); auto.
    apply Hk. simpl. lia.
  - apply IHa. intros s' c' Hle. apply IHb. intros s2 c2 Hle2.
    apply Hk. lia.
  - rewrite (IHa s c k k' Hk), (IHb s c k k' Hk). reflexivity.
  - apply local_repeat; auto.
  - apply IH. intros s' c' Hle. apply Hk. exact Hle.
Qed.

Lemma repeat_S (m : string -> captures -> @kont A -> option A)
      fuel lo hi s c k :
  repeat m (S fuel) lo hi s c k =
  if hi_is_zero hi then k s c
  else
    let d : kont := fun s' c' =>
      if Nat.eqb lo 0 && Nat.eqb (String.length s') (String.length s)
      then None
      else repeat m fuel (Nat.pred lo) (hi_pred hi) s' c' k in
    if Nat.ltb 0 lo then m s c d
    else match m s c d with
         | Some x => Some x
         | None => k s c
         end.
Proof. reflexivity. Qed.

Lemma repeat_fuel (m : string -> captures -> @kont A -> option A) :
  local m ->
  forall fuel lo hi s c k,
    (lo + String.length s < fuel)%nat ->
    repeat m (S fuel) lo hi s c k = repeat m fuel lo hi s c k.
Proof.
  intros Hm fuel.
  induction fuel as [|fuel IH]; intros lo hi s c k Hlt; [lia|].
  rewrite (repeat_S m (S fuel)), (repeat_S m fuel).
  destruct (hi_is_zero hi); auto. cbv zeta.
  assert (E : m s c (fun s' c' =>
             if Nat.eqb lo 0 && Nat.eqb (String.length s') (String.length s)
             then None
             else repeat m (S fuel) (Nat.pred lo) (hi_pred hi) s' c' k) =
          m s c (fun s' c' =>
             if Nat.eqb lo 0 && Nat.eqb (String.length s') (String.length s)
             then None
             else repeat m fuel (Nat.pred lo) (hi_pred hi) s' c' k)).
  { apply Hm. intros s' c' Hle.
    destruct (Nat.eqb lo 0) eqn:E0; cbn [andb].
    - destruct (Nat.eqb_spec (String.length s') (String.length s)); auto.
      apply IH. apply Nat.eqb_eq in E0. lia.
    - apply IH. apply Nat.eqb_neq in E0. lia. }
  rewrite E. reflexivity.
Qed.

Lemma fuel_is_enough r lo hi s c (k : @kont A) n :
  repeat (run r) (S (lo + String.length s) + n) lo hi s c k =
  run (Rep r lo hi) s c k.
Proof.
  cbn [run]. induction n as [|n IH].
  - now rewrite Nat.add_0_r.
  - rewrite Nat.add_succ_r, repeat_fuel; auto using local_run. lia.
Qed.
End Fuel.

Lemma search_group_sound r1 r2 s g :
  groupless r1 = true -> groupless r2 = true ->
  match1 (Seq (Group r1) r2) s = Some g ->
  exists pre w rest,
    s = pre ++ g ++ w ++ rest /\ matches r1 g /\ matches r2 w.
Proof.
  intros G1 G2. unfold match1.
  destruct (search _ s) as [[g'|]|] eqn:Hs; try discriminate.
  intros [= ->]. revert Hs.
  induction s as [|ch s IH]; intros Hs; cbn [search] in Hs.
  - destruct (run _ "" None _) as [c|] eqn:Hr; [|discriminate].
    injection Hs as ->.
    apply run_group_sound in Hr as (g0 & w & rest & E & M1 & M2 & [= ->]); auto.
    exists "", w, rest. auto.
  - destruct (run _ (String ch s) None _) as [c|] eqn:Hr.
    + injection Hs as ->.
      apply run_group_sound in Hr as (g0 & w & rest & E & M1 & M2 & [= ->]);
        auto.
      exists "", w, rest. auto.
    + destruct (IH Hs) as (pre & w & rest & -> & M1 & M2).
      exists (String ch pre), w, rest. auto.
Qed.

Lemma matches_alphabet r s :
  matches r s -> JsString.forallb (alphabet r) s = true.
Proof.
  assert (Happ : forall p a b, JsString.forallb p a = true ->
            JsString.forallb p b = true -> JsString.forallb p (a ++ b) = true).
  { intros p a b. induction a as [|x a IH]; simpl; auto.
    intros H Hb. apply andb_true_iff in H as [-> H]. auto. }
  assert (Hmono : forall (p q : ascii -> bool) a,
            (forall c, p c = true -> q c = true) ->
            JsString.forallb p a = true -> JsString.forallb q a = true).
  { intros p q a Hpq. induction a as [|x a IH]; simpl; auto.
    intros H. apply andb_true_iff in H as [Hx H].
    rewrite (Hpq _ Hx). auto. }
  induction 1; simpl; auto.
  - now rewrite H.
  - apply Happ; eapply Hmono; eauto; intros c ->; auto using orb_true_r.
  - eapply Hmono; eauto. intros c ->. reflexivity.
  - eapply Hmono; eauto. intros c ->. apply orb_true_r.
Qed.

End RegexFacts.

Local Open Scope list_scope.
Local Open Scope string_scope.
Local Open Scope Z_scope.

(** ** Amount extraction *)

Lemma code_of_digit c : JsString.is_digit c = true -> 48 <= JsString.code c <= 57.
Proof. unfold JsString.is_digit. intros H. apply andb_true_iff in H. lia. Qed.

Lemma code_neq a b n :
  JsString.code b = n -> JsString.code a <> n -> Ascii.eqb a b = false.
Proof. intros <- H. destruct (Ascii.eqb_spec a b); congruence. Qed.

Lemma digit_not_space c : JsString.is_digit c = true -> JsString.is_space c = false.
Proof.
  intros H. apply code_of_digit in H. unfold JsString.is_space. cbv zeta.
  repeat (apply orb_false_iff; split); lia.
Qed.

Lemma digit_not_separator c : JsString.is_digit c = true -> is_separator c = false.
Proof.
  intros H. apply code_of_digit in H. unfold is_separator.
  rewrite (code_neq c " " 32 eq_refl), (code_neq c "," 44 eq_refl),
    (code_neq c "." 46 eq_refl) by lia.
  reflexivity.
Qed.

Lemma digit_upper c : JsString.is_digit c = true -> JsString.upper c = c.
Proof.
  intros H. apply code_of_digit in H. unfold JsString.upper, JsString.is_lower.
  replace (97 <=? JsString.code c) with false by lia. reflexivity.
Qed.

Lemma digit_not_letter c l n :
  JsString.is_digit c = true ->
  JsString.code (JsString.upper l) = n -> 65 <= n <= 90 ->
  JsString.eq_ci c l = false.
Proof.
  intros H Hn Hl. unfold JsString.eq_ci. rewrite (digit_upper c H).
  apply code_of_digit in H. apply (code_neq _ _ n Hn). lia.
Qed.

Lemma grouping_is_separator c : is_grouping c = true -> is_separator c = true.
Proof. unfold is_grouping, is_separator. intros ->. reflexivity. Qed.

Lemma span_digits ds :
  JsString.forallb JsString.is_digit ds = true ->
  JsString.span JsString.is_digit ds = (ds, "").
Proof.
  induction ds as [|c ds IH]; simpl; auto.
  intros H. apply andb_true_iff in H as [-> H]. now rewrite IH.
Qed.

Lemma trim_end_digits ds :
  JsString.forallb JsString.is_digit ds = true -> JsString.trim_end ds = ds.
Proof.
  induction ds as [|c ds IH]; simpl; auto.
  intros H. apply andb_true_iff in H as [Hc H]. rewrite (IH H).
  destruct ds; auto. now rewrite digit_not_space.
Qed.

Lemma append_empty_r (a : string) : a ++ "" = a.
Proof. induction a as [|x a IH]; simpl; congruence. Qed.

(** [Number] of a non-empty string of decimal digits is the double
    nearest to the integer that the digits write. *)
Lemma number_of_digits ds :
  ds <> "" ->
  JsString.forallb JsString.is_digit ds = true ->
  JsNumber.of_string ds = JsNumber.of_Z (JsNumber.value_in 10 ds 0).
Proof.
  intros Hne Hd. destruct ds as [|c ds]; [contradiction|]. clear Hne.
  pose proof Hd as Hd0. simpl in Hd0. apply andb_true_iff in Hd0 as [Hc Hds].
  unfold JsNumber.of_string, JsString.trim.
  assert (Hspan : JsString.span JsString.is_space (String c ds)
                  = ("", String c ds)).
  { simpl. now rewrite digit_not_space. }
  rewrite Hspan. cbn [snd]. rewrite trim_end_digits by assumption.
  cbn [String.eqb].
  assert (Hnd : JsNumber.non_decimal (String c ds) = None).
  { unfold JsNumber.non_decimal. destruct ds as [|p r]; auto.
    simpl in Hds. apply andb_true_iff in Hds as [Hp _].
    rewrite (digit_not_letter p "x" 88), (digit_not_letter p "o" 79),
      (digit_not_letter p "b" 66) by (auto; lia).
    destruct (negb (Ascii.eqb c "0")); reflexivity. }
  unfold JsNumber.numeric_literal. rewrite Hnd.
  assert (Hsg : JsNumber.signed (String c ds) = (false, String c ds)).
  { unfold JsNumber.signed. apply code_of_digit in Hc.
    rewrite (code_neq c "-" 45 eq_refl), (code_neq c "+" 43 eq_refl) by lia.
    reflexivity. }
  rewrite Hsg. unfold JsNumber.unsigned_decimal.
  assert (Hinf : String.eqb (String c ds) "Infinity" = false).
  { cbn [String.eqb]. apply code_of_digit in Hc.
    now rewrite (code_neq c "I" 73 eq_refl) by lia. }
  rewrite Hinf, span_digits by assumption.
  cbn [JsNumber.fraction String.eqb andb JsNumber.exponent].
  rewrite append_empty_r. unfold JsNumber.of_decimal, JsNumber.of_Z.
  cbn [JsString.len String.length Z.of_nat Z.sub Z.opp Z.add].
  destruct (Z.eqb_spec (JsNumber.value_in 10 (String c ds) 0) 0) as [->|_];
    [reflexivity|].
  cbn [Z.leb Z.compare Z.pow Z.pow_pos Pos.iter cond_Zopp].
  now rewrite Z.mul_1_r.
Qed.

Lemma forallb_append p a b :
  JsString.forallb p (a ++ b) =
  JsString.forallb p a && JsString.forallb p b.
Proof.
  induction a as [|x a IH]; simpl; auto. rewrite IH. apply andb_assoc.
Qed.

Lemma forallb_mono (p q : ascii -> bool) s :
  (forall c, p c = true -> q c = true) ->
  JsString.forallb p s = true -> JsString.forallb q s = true.
Proof.
  intros Hpq. induction s as [|x s IH]; simpl; auto.
  intros H. apply andb_true_iff in H as [Hx H]. rewrite (Hpq _ Hx). auto.
Qed.

Lemma amount_group_shape g :
  Regex.matches amount_group g ->
  (exists c g', g = String c g' /\ JsString.is_digit c = true) /\
  JsString.forallb (fun c => JsString.is_digit c || is_grouping c) g = true.
Proof.
  intros M. split.
  - assert (Hrep : forall hi s, hi <> Some O ->
              Regex.matches (Regex.Rep Regex.digit 1 hi) s ->
              exists c s', s = String c s' /\ JsString.is_digit c = true).
    { intros hi s Hhi Hs. inversion Hs as [| | | | |? ? ? Hstop|? ? ? s1 s2 _ M1 _|];
        subst.
      - destruct Hstop; [discriminate | contradiction].
      - inversion M1; subst. simpl. eauto. }
    unfold amount_group in M.
    inversion M as [| | |? ? ? Ml|? ? ? Mr| | |]; subst.
    + inversion Ml as [| |? ? s1 s2 M1 M2| | | | |]; subst.
      apply Hrep in M1 as (c & s' & -> & Hc); [|discriminate].
      simpl. eauto.
    + apply Hrep in Mr as (c & s' & -> & Hc); [|discriminate]. eauto.
  - apply RegexFacts.matches_alphabet in M.
    eapply forallb_mono; [|exact M].
    intros c. cbn [Regex.alphabet amount_group Regex.times Regex.star
                   Regex.plus Regex.digit].
    destruct (JsString.is_digit c), (is_grouping c); auto.
Qed.

Lemma strip_separators_digits g :
  (exists c g', g = String c g' /\ JsString.is_digit c = true) ->
  JsString.forallb (fun c => JsString.is_digit c || is_grouping c) g = true ->
  strip_separators g <> "" /\
  JsString.forallb JsString.is_digit (strip_separators g) = true.
Proof.
  intros (c & g' & -> & Hc) Hall. split.
  - unfold strip_separators. simpl. now rewrite (digit_not_separator c Hc).
  - clear Hc. unfold strip_separators. revert Hall.
    generalize (String c g'). clear. intros g.
    induction g as [|c g IH]; simpl; auto.
    intros H. apply andb_true_iff in H as [Hc H].
    destruct (is_separator c) eqn:Es; simpl; auto.
    apply orb_true_iff in Hc as [Hd|Hg].
    + rewrite Hd. auto.
    + apply grouping_is_separator in Hg. congruence.
Qed.

Lemma currency_marker_shape w :
  Regex.matches currency_marker w ->
  exists ws a r,
    w = ws ++ String a (String r "") /\
    (ws = "" \/ exists c, ws = String c "" /\ JsString.is_space c = true) /\
    JsString.eq_ci "A" a = true /\ JsString.eq_ci "r" r = true.
Proof.
  unfold currency_marker. intros M.
  inversion M as [| |? ? ws wd Mo Mw| | | | |]; subst.
  exists ws.
  assert (Hws : ws = "" \/ exists c, ws = String c "" /\
                                      JsString.is_space c = true).
  { inversion Mo as [| | | | |? ? ? Hstop|? ? ? s1 s2 _ M1 M2|]; subst;
      [now left|].
    inversion M1; subst.
    inversion M2 as [| | | | |? ? ? Hstop|? ? ? s3 s4 Hhi _ _|]; subst.
    - right. eexists. split; [reflexivity | eassumption].
    - now elim Hhi. }
  cbn [Regex.word_i] in Mw.
  inversion Mw as [| |? ? s1 s2 Ma Mr| | | | |]; subst.
  inversion Ma; subst.
  inversion Mr as [| |? ? s3 s4 Mr1 Me| | | | |]; subst.
  inversion Mr1; subst. inversion Me; subst.
  eexists _, _. split; [reflexivity|]. auto.
Qed.

Local Open Scope string_scope.
Local Open Scope Z_scope.
Local Open Scope prog_scope.
Local Open Scope list_scope.

(** ** The retry policy of the voucher issuer *)

(** Every behaviour of the issuer, event by event. *)










(** ** Sample runs *)

Lemma two_intakes_registry :
  exec start two_intakes =
    Some (Config (State true false [(S1, session_1); (S2, session_2)] []
                        0 [Connect]) []).
Proof. vm_compute. reflexivity. Qed.

(** Scenario: the voucher is issued and can be read back. *)
Example issuance_scenario :
  option_map (fun c => (registry c, vouchers (st c), calls (st c)))
    (exec start (one_intake ++ SmsIncoming sms_1000 :: issuance_succeeds 0)) =
  Some ([], [(S1, Voucher "SD-4fzyo" "123456")],
        [Connect; UserAdd "SD-4fzyo" "123456" (Own "1Heure")]).
Proof. vm_compute. reflexivity. Qed.

(** Scenario: a confirmation for another amount matches nothing. *)
Example other_amount_scenario :
  exec (after one_intake)
       [SmsIncoming (SmsBody (Str "MVOLA")
          (Str "Vous avez recu 2000 Ar de (0321234567)"))] =
  Some (after one_intake).
Proof. vm_compute. reflexivity. Qed.

(** Scenario: the write is rejected, the reconnection succeeds, and the
    second write, with the same credentials, is fulfilled. *)
Example retry_scenario :
  option_map (fun c => (registry c, vouchers (st c), calls (st c)))
    (exec start
       (one_intake ++
        [SmsIncoming sms_1000;
         Resume 0 true ["0.4fzyo82mvyr"; "0.zzzz123456"];
         Resume 0 false [];    (* the write is rejected *)
         Resume 0 true [];     (* mikrotik.connect() is fulfilled *)
         Resume 0 true []; Resume 0 true [];
         Resume 0 true [];     (* the second write is fulfilled *)
         Resume 0 true []])) =
  Some ([], [(S1, Voucher "SD-4fzyo" "123456")],
        [Connect; UserAdd "SD-4fzyo" "123456" (Own "1Heure"); Close; Connect;
         UserAdd "SD-4fzyo" "123456" (Own "1Heure")]).
Proof. vm_compute. reflexivity. Qed.

(** Scenario: the client is down and the reconnection fails; the session
    is deleted and no voucher is stored. *)
Example device_down_scenario :
  option_map (fun c => (registry c, vouchers (st c), calls (st c),
                        List.length (pool c)))
    (exec start
       [Listening; Resume 0 false [];
        UssdInit (intake "1h") S1 "0.abcdefghijk" 1000;
        SmsIncoming sms_1000;
        Resume 0 false [];     (* mikrotik.connect() is rejected *)
        Resume 0 true []; Resume 0 true []; Resume 0 true []]) =
  Some ([], [], [Connect; Connect], 0%nat).
Proof. vm_compute. reflexivity. Qed.

(** Scenario: a caller of [ensureMikrotik] that arrives while the first
    attempt is in flight gives up before the attempt is settled; the
    attempt then succeeds. *)
Example busy_guard_scenario :
  option_map (fun c => (registry c, vouchers (st c), calls (st c),
                        in_flight c, List.length (pool c)))
    (exec start
       [Listening;
        UssdInit (intake "1h") S1 "0.abcdefghijk" 1000;
        SmsIncoming sms_1000;
        Resume 1 true []; Resume 1 true []; Resume 1 true []]) =
  Some ([], [], [Connect], 1%nat, 1%nat).
Proof. vm_compute. reflexivity. Qed.

(** Scenario: with two PENDING sessions for the same amount and phone,
    the first confirmation consumes the older one, which is deleted when
    its voucher has been issued; the same confirmation delivered again is
    matched with the other session. *)
Lemma repeat_matches_next_session :
  (consumes (after two_intakes) (SmsIncoming sms_1000) S1 /\
   status_of S1
     (after (two_intakes ++ SmsIncoming sms_1000 :: issuance_succeeds 0))
     = None /\
   consumes
     (after (two_intakes ++ SmsIncoming sms_1000 :: issuance_succeeds 0))
     (SmsIncoming sms_1000) S2) /\
  ~ repeat_matches_nothing.
Proof.
  assert (H1 : consumes (after two_intakes) (SmsIncoming sms_1000) S1).
  { exists sms_1000, (JsNumber.of_Z 1000), "321234567".
    repeat split; try (vm_compute; reflexivity). discriminate. }
  assert (H2 : consumes
     (after (two_intakes ++ SmsIncoming sms_1000 :: issuance_succeeds 0))
     (SmsIncoming sms_1000) S2).
  { exists sms_1000, (JsNumber.of_Z 1000), "321234567".
    repeat split; try (vm_compute; reflexivity). discriminate. }
  split; [repeat split; auto|].
  intros H.
  apply (H two_intakes (after two_intakes) sms_1000 S1
           (after (two_intakes ++ [SmsIncoming sms_1000]))
           (issuance_succeeds 0)
           (after (two_intakes ++ SmsIncoming sms_1000 :: issuance_succeeds 0))
           eq_refl H1 eq_refl eq_refl eq_refl eq_refl S2 H2).
Qed.

(** C3.  A matched session whose offer gives no profile is not removed.
    After the intake call [{ phone: "032 12 345 67", amount: 1000,
    offer: "2h" }], the confirmation 'Vous avez recu 1000 Ar de
    (0321234567)' is matched with the session; the handler marks it
    CONFIRMED and returns status 200 before the [try] block whose
    [finally] deletes the session.  The handler has run to its end, no
    task is parked, no call was made on the device, and the session is
    still in the registry, CONFIRMED; the same confirmation delivered
    again changes nothing, and the session also survives a sweeper tick
    within its window.  So a matched session is not always removed. *)
Lemma unmapped_offer_session_stays :
  let c := after unmapped_intake in
  let c1 := after (unmapped_intake ++ [SmsIncoming sms_1000]) in
  (consumes c (SmsIncoming sms_1000) S1 /\
   step c (SmsIncoming sms_1000) = Some c1 /\
   registry c1 =
     [(S1, Payment "321234567" (JsNumber.of_Z 1000) (Str "2h") "ABCDEF"
                   CONFIRMED 1000)] /\
   pool c1 = [] /\
   vouchers (st c1) = [] /\
   calls (st c1) = [Connect] /\
   step c1 (SmsIncoming sms_1000) = Some c1 /\
   step c1 (SweeperTick 61000) = Some c1) /\
  ~ matched_session_always_removed.
Proof.
  cbv zeta.
  assert (H1 : consumes (after unmapped_intake) (SmsIncoming sms_1000) S1).
  { exists sms_1000, (JsNumber.of_Z 1000), "321234567".
    repeat split; try (vm_compute; reflexivity). discriminate. }
  split; [repeat split; try (vm_compute; reflexivity); exact H1|].
  intros H.
  specialize (H unmapped_intake (after unmapped_intake) sms_1000 S1
                (after (unmapped_intake ++ [SmsIncoming sms_1000]))
                eq_refl H1 eq_refl eq_refl).
  vm_compute in H. discriminate H.
Qed.

(** The variant pattern reads the last group of a grouped amount:
    "1,000 Ar" gives 0 there, and 1000 in the program above. *)
Example plain_pattern_reads_last_group :
  ServerJs.amount_of "Vous avez recu 1,000 Ar de (0321234567)"
    = Some (JsNumber.of_Z 0) /\
  option_map fst (confirmation sms_grouped) = Some (JsNumber.of_Z 1000).
Proof. split; vm_compute; reflexivity. Qed.

Local Open Scope string_scope.
Local Open Scope Z_scope.
Local Open Scope prog_scope.
Local Open Scope list_scope.

(** ** The theorems at work on the sample data *)

Lemma oldest_pending_first_witness :
  exists id p c',
    consumes (after two_intakes) (SmsIncoming sms_1000) id /\
    Obj.get id (registry (after two_intakes)) = Some p /\
    is_match (JsNumber.of_Z 1000) "321234567" p = true /\
    step (after two_intakes) (SmsIncoming sms_1000) = Some c' /\
    status_of id c' = Some CONFIRMED /\
    forall id' p',
      Obj.get id' (registry (after two_intakes)) = Some p' ->
      is_match (JsNumber.of_Z 1000) "321234567" p' = true ->
      createdAt p <= createdAt p' /\
      (createdAt p' <> createdAt p -> id' <> id /\ createdAt p < createdAt p').
Proof.
  apply (oldest_pending_first two_intakes (after two_intakes) sms_1000
           (JsNumber.of_Z 1000) "321234567" S2 session_2);
    vm_compute; reflexivity.
Defined.

Lemma session_consumed_once_witness :
  let ls2 := [UssdInit (intake "5h") S2 "0.lmnopqrstuv" 2000] in
  status_of S1 (after one_intake) = Some PENDING /\
  status_of S1 (after (one_intake ++ [SmsIncoming sms_1000]))
    = Some CONFIRMED /\
  ~ consumes (after (one_intake ++ SmsIncoming sms_1000 :: ls2))
             (SmsIncoming sms_1000) S1.
Proof.
  apply (session_consumed_once one_intake (SmsIncoming sms_1000)
           [UssdInit (intake "5h") S2 "0.lmnopqrstuv" 2000]
           (SmsIncoming sms_1000)
           (after one_intake)
           (after (one_intake ++ [SmsIncoming sms_1000]))).
  - vm_compute; reflexivity.
  - reflexivity.
  - reflexivity.
  - vm_compute; reflexivity.
  - exists sms_1000, (JsNumber.of_Z 1000), "321234567".
    repeat split; try (vm_compute; reflexivity). discriminate.
Defined.

Lemma matched_session_removed_witness :
  outcomes
    (fun h s r =>
       r = inl (Status 200) /\
       exists b, List.last h (Did Close) = Wrote b (forget S1 b) /\
                 s = forget S1 b)
    (sms_incoming sms_1000) (st (after one_intake)) [] /\
  ((forall id' p', id' <> S1 ->
      Obj.get id' (registry (after one_intake)) = Some p' ->
      is_match (JsNumber.of_Z 1000) "321234567" p' = false) ->
   forall s2 i,
     pendingPayments s2 = Obj.delete S1 (registry (after one_intake)) ->
     run (handler (sms_incoming sms_1000)) i s2 =
       (s2, Done (Some (Status 200)))).
Proof.
  apply (matched_session_removed one_intake (after one_intake) sms_1000
           (JsNumber.of_Z 1000) "321234567" S1 session_1 (Own "1Heure"));
    vm_compute; reflexivity.
Defined.

Lemma offer_checked_at_confirmation_witness :
  run (handler (ussd_init (UssdBody (Str "0321234567") Undefined (Str "1h"))))
      no_inputs initial = (initial, Done (Some MissingParameters)) /\
  run (handler (ussd_init (intake "2h")))
      (Inputs 1000 S1 ["0.abcdefghijk"]) initial =
    (set_pendingPayments
       (Obj.set S1 (new_payment (intake "2h") "032 12 345 67"
                                "0.abcdefghijk" 1000) []) initial,
     Done (Some (Created S1 "ABCDEF"))) /\
  (run (handler (sms_incoming sms_1000)) no_inputs unknown_offer_state =
     (confirm S1 unknown_offer_state, Done (Some (Status 200))) /\
   calls (confirm S1 unknown_offer_state) = calls unknown_offer_state /\
   vouchers (confirm S1 unknown_offer_state) = vouchers unknown_offer_state).
Proof.
  destruct offer_checked_at_confirmation as (Hrefuse & Haccept & Hconfirm).
  split; [|split].
  - apply Hrefuse. right. left. reflexivity.
  - apply (Haccept (intake "2h") "032 12 345 67"); try reflexivity.
    discriminate.
  - apply (Hconfirm sms_1000 (JsNumber.of_Z 1000) "321234567" S1
             (Payment "321234567" (JsNumber.of_Z 1000) (Str "2h") "ABCDEF"
                      PENDING 1000));
      try (vm_compute; reflexivity).
    + discriminate.
    + intros k [= <-]. simpl. intuition discriminate.
Defined.

Lemma sweeper_deletes_by_age_witness :
  expiry_window = 420000 /\
  registry (after (one_intake ++ [SweeperTick 500000])) =
    filter (survives 500000) (registry (after one_intake)) /\
  (forall id p,
      Obj.get id (registry (after (one_intake ++ [SweeperTick 500000])))
        = Some p <->
      Obj.get id (registry (after one_intake)) = Some p /\
      500000 - createdAt p <= expiry_window) /\
  st (after (one_intake ++ [SweeperTick 500000])) =
    set_pendingPayments
      (registry (after (one_intake ++ [SweeperTick 500000])))
      (st (after one_intake)) /\
  pool (after (one_intake ++ [SweeperTick 500000])) = pool (after one_intake).
Proof.
  apply (sweeper_deletes_by_age one_intake (after one_intake) 500000);
    vm_compute; reflexivity.
Defined.

Lemma guard_flag_excludes_second_attempt_witness :
  (exists k,
      run ensureMikrotik no_inputs attempt_in_flight =
        (attempt_in_flight, Parked OnSettled k) /\
      forall ok i1 s1,
        run (k ok) i1 s1 =
          (s1, if mikrotikReady s1 then Done tt else Failed Unavailable)) /\
  ((in_flight (after [Listening]) <= 1)%nat /\
   (in_flight (after [Listening]) = 1%nat <->
    reconnecting (st (after [Listening])) = true)).
Proof.
  destruct guard_flag_excludes_second_attempt as [Hguard Hone].
  split.
  - apply Hguard; reflexivity.
  - apply (Hone [Listening]). reflexivity.
Defined.

Lemma string_message_always_acknowledged_witness :
  outcomes (fun _ _ r => r = inl (Status 200))
           (sms_incoming sms_1000) (st (after one_intake)) [].
Proof.
  apply string_message_always_acknowledged. reflexivity.
Defined.

Lemma nan_session_only_expires_witness :
  (run (handler (ussd_init intake_mille))
       (Inputs 1000 S1 ["0.abcdefghijk"]) initial =
     (set_pendingPayments
        (Obj.set S1 (new_payment intake_mille "032 12 345 67"
                                 "0.abcdefghijk" 1000) []) initial,
      Done (Some (Created S1 "ABCDEF"))) /\
   amount (new_payment intake_mille "032 12 345 67" "0.abcdefghijk" 1000)
     = JsNumber.NaN) /\
  ~ consumes (after mille_intake) (SmsIncoming sms_1000) S1 /\
  (Obj.get S1 (registry (after (mille_intake ++ [SmsIncoming sms_1000])))
     = Some session_mille \/
   exists now,
     SmsIncoming sms_1000 = SweeperTick now /\
     Obj.get S1 (registry (after (mille_intake ++ [SmsIncoming sms_1000])))
       = None /\
     now - createdAt session_mille > expiry_window).
Proof.
  destruct nan_session_only_expires as (Hcreate & Hnever & Hstays).
  split; [|split].
  - apply (Hcreate intake_mille "032 12 345 67" "mille");
      try (vm_compute; reflexivity); discriminate.
  - apply (Hnever _ _ S1 session_mille); vm_compute; reflexivity.
  - apply (Hstays mille_intake (after mille_intake)); vm_compute; reflexivity.
Defined.

Local Open Scope list_scope.
Local Open Scope string_scope.
Local Open Scope Z_scope.

(** ** Phone numbers and references *)

Lemma length_drop n s :
  String.length (JsString.drop n s) = (String.length s - n)%nat.
Proof.
  revert s. induction n as [|n IH]; intros [|c s]; simpl; auto.
Qed.

Lemma length_take n s :
  String.length (JsString.take n s) = Nat.min n (String.length s).
Proof.
  revert s. induction n as [|n IH]; intros [|c s]; simpl; auto.
Qed.

Lemma length_map f s : String.length (JsString.map f s) = String.length s.
Proof. induction s as [|c s IH]; simpl; auto. Qed.

Lemma forallb_drop p n s :
  JsString.forallb p s = true -> JsString.forallb p (JsString.drop n s) = true.
Proof.
  revert s. induction n as [|n IH]; intros [|c s]; simpl; auto.
  intros H. apply andb_true_iff in H as [_ H]. auto.
Qed.

Lemma forallb_take p n s :
  JsString.forallb p s = true -> JsString.forallb p (JsString.take n s) = true.
Proof.
  revert s. induction n as [|n IH]; intros [|c s]; simpl; auto.
  intros H. apply andb_true_iff in H as [-> H]. simpl. auto.
Qed.

Lemma forallb_filter p s : JsString.forallb p (JsString.filter p s) = true.
Proof.
  induction s as [|c s IH]; simpl; auto.
  destruct (p c) eqn:E; simpl; auto. now rewrite E.
Qed.

Lemma filter_all p s :
  JsString.forallb p s = true -> JsString.filter p s = s.
Proof.
  induction s as [|c s IH]; simpl; auto.
  intros H. apply andb_true_iff in H as [-> H]. now rewrite IH.
Qed.

Lemma filter_append p a b :
  JsString.filter p (a ++ b) = JsString.filter p a ++ JsString.filter p b.
Proof.
  induction a as [|c a IH]; simpl; auto.
  destruct (p c); simpl; now rewrite IH.
Qed.

Lemma drop_append a b :
  JsString.drop (String.length a) (a ++ b) = b.
Proof. induction a as [|c a IH]; simpl; auto. Qed.

Lemma drop_drop n m s :
  JsString.drop n (JsString.drop m s) = JsString.drop (m + n) s.
Proof.
  revert s. induction m as [|m IH]; intros s; simpl; auto.
  destruct s as [|c s]; simpl; auto. now destruct n.
Qed.

Lemma slice_last_append n a b :
  (n <= String.length b)%nat ->
  JsString.slice_last n (a ++ b) = JsString.slice_last n b.
Proof.
  intros H. unfold JsString.slice_last.
  rewrite RegexFacts.length_append.
  replace (String.length a + String.length b - n)%nat
    with (String.length a + (String.length b - n))%nat by lia.
  rewrite <- drop_drop, drop_append. reflexivity.
Qed.

Lemma normalizePhone_digits p :
  JsString.forallb JsString.is_digit (normalizePhone p) = true.
Proof.
  unfold normalizePhone, JsString.slice_last. apply forallb_drop, forallb_filter.
Qed.

Lemma normalizePhone_length p :
  String.length (normalizePhone p) =
    Nat.min 9 (String.length (JsString.filter JsString.is_digit p)).
Proof.
  unfold normalizePhone, JsString.slice_last. rewrite length_drop. lia.
Qed.

Lemma normalizePhone_again p :
  normalizePhone (normalizePhone p) = normalizePhone p.
Proof.
  unfold normalizePhone at 1. rewrite (filter_all _ _ (normalizePhone_digits p)).
  unfold JsString.slice_last. pose proof (normalizePhone_length p).
  replace (String.length (normalizePhone p) - 9)%nat with 0%nat by lia.
  reflexivity.
Qed.

(** X1.  The normalised form of a phone number is made of digits only and
    has at most nine of them, nine when the number has that many;
    normalising twice changes nothing. *)
Theorem normalizePhone_shape p :
  JsString.forallb JsString.is_digit (normalizePhone p) = true /\
  String.length (normalizePhone p) =
    Nat.min 9 (String.length (JsString.filter JsString.is_digit p)) /\
  normalizePhone (normalizePhone p) = normalizePhone p.
Proof.
  split; [apply normalizePhone_digits|].
  split; [apply normalizePhone_length | apply normalizePhone_again].
Qed.

(** X2.  Whatever precedes the last nine digits of a phone number (a
    country code, a trunk prefix, separators) has no influence on its
    normalised form. *)
Theorem normalizePhone_ignores_prefix a b :
  (9 <= String.length (JsString.filter JsString.is_digit b))%nat ->
  normalizePhone (a ++ b) = normalizePhone b.
Proof.
  intros H. unfold normalizePhone.
  rewrite filter_append. now apply slice_last_append.
Qed.

Lemma normalizePhone_ignores_prefix_witness :
  normalizePhone ("+261 " ++ "32 12 345 67") = normalizePhone "32 12 345 67".
Proof.
  apply (normalizePhone_ignores_prefix "+261 " "32 12 345 67").
  simpl. lia.
Defined.

Lemma upper_lower c :
  JsString.is_lower c = true ->
  65 <= JsString.code (JsString.upper c) <= 90.
Proof.
  intros H. unfold JsString.upper. rewrite H.
  unfold JsString.is_lower, JsString.code in *.
  apply andb_true_iff in H as [H1 H2].
  apply Z.leb_le in H1, H2.
  rewrite nat_ascii_embedding by lia. lia.
Qed.

Lemma upper_not_lower c : JsString.is_lower (JsString.upper c) = false.
Proof.
  destruct (JsString.is_lower c) eqn:E.
  - pose proof (upper_lower c E) as H. unfold JsString.is_lower.
    apply andb_false_iff. left. apply Z.leb_gt. lia.
  - unfold JsString.upper. now rewrite E.
Qed.

(** X3.  The reference returned to the subscriber is the upper-case form
    of the characters 2 to 7 of the random text.  When that text has a
    base-36 fraction after its first two characters, the reference is made
    of digits and upper-case letters only, and it has six characters, or
    fewer when the random text has fewer than eight, none when it has two
    at most; the state is not changed. *)
Theorem generateRef_shape x rest now uuid s :
  JsString.forallb is_base36 (JsString.drop 2 x) = true ->
  exists r,
    run generateRef (Inputs now uuid (x :: rest)) s = (s, Done r) /\
    String.length r = Nat.min 6 (String.length x - 2) /\
    JsString.forallb is_base36_upper r = true.
Proof.
  intros H. eexists. split; [reflexivity|].
  cbn [hd i_random].
  unfold JsString.toUpperCase, JsString.substring. cbn [Nat.sub].
  rewrite length_map, length_take, length_drop. split; [reflexivity|].
  apply (forallb_take _ 6) in H. revert H.
  generalize (JsString.take 6 (JsString.drop 2 x)). intros t.
  induction t as [|c t IH]; [reflexivity|].
  cbn [JsString.forallb JsString.map].
  intros Ht. apply andb_true_iff in Ht as [Hc Ht]. rewrite (IH Ht), andb_true_r.
  unfold is_base36 in Hc. unfold is_base36_upper.
  apply orb_true_iff in Hc as [Hc|Hc].
  - rewrite (digit_upper c Hc), Hc. reflexivity.
  - pose proof (upper_lower c Hc) as Hu.
    apply orb_true_iff. right. apply andb_true_iff. split; apply Z.leb_le; lia.
Qed.

Lemma generateRef_shape_witness :
  exists r,
    run generateRef (Inputs 0 "" ["0.4fzyo82mvyr"]) initial = (initial, Done r) /\
    String.length r = Nat.min 6 (String.length "0.4fzyo82mvyr" - 2) /\
    JsString.forallb is_base36_upper r = true.
Proof.
  apply (generateRef_shape "0.4fzyo82mvyr" [] 0 "" initial).
  vm_compute. reflexivity.
Defined.

Local Open Scope list_scope.
Local Open Scope string_scope.
Local Open Scope Z_scope.

(** ** Sender filter and phone extraction *)

Lemma search_found r s c :
  Regex.search r s = Some c ->
  exists pre s',
    s = pre ++ s' /\ Regex.run r s' None (fun _ c' => Some c') = Some c.
Proof.
  induction s as [|ch s IH]; cbn [Regex.search]; intros H.
  - destruct (Regex.run r "" None _) as [c'|] eqn:Hr; [|discriminate].
    injection H as ->. now exists "", "".
  - destruct (Regex.run r (String ch s) None _) as [c'|] eqn:Hr.
    + injection H as ->. now exists "", (String ch s).
    + destruct (IH H) as (pre & s' & -> & Hs).
      now exists (String ch pre), s'.
Qed.

Lemma search_finds r pre s' c :
  Regex.run r s' None (fun _ c' => Some c') = Some c ->
  exists c', Regex.search r (pre ++ s') = Some c'.
Proof.
  intros Hr. induction pre as [|ch pre IH].
  - cbn [append]. destruct s' as [|ch s']; cbn [Regex.search]; rewrite Hr; eauto.
  - cbn [append Regex.search].
    destruct (Regex.run r (String ch (pre ++ s')) None _); eauto.
Qed.

Lemma word_i_matches w x :
  Regex.matches (Regex.word_i w) x -> eq_ci_string w x = true.
Proof.
  revert x. induction w as [|c w IH]; intros x M; cbn [Regex.word_i] in M.
  - inversion M; subst. reflexivity.
  - inversion M as [| |? ? s1 s2 Mc Mw| | | | |]; subst.
    inversion Mc; subst. cbn [append eq_ci_string].
    apply andb_true_iff. split; [assumption | now apply IH].
Qed.

Lemma word_i_run {A} w x post c (k : @Regex.kont A) :
  eq_ci_string w x = true ->
  Regex.run (Regex.word_i w) (x ++ post) c k = k post c.
Proof.
  revert x. induction w as [|ch w IH]; intros [|y x] H; try discriminate.
  - reflexivity.
  - cbn [eq_ci_string] in H. apply andb_true_iff in H as [Hc Hx].
    cbn [Regex.word_i Regex.run Regex.lit_i append]. rewrite Hc. now apply IH.
Qed.

(** X4.  The sender test accepts exactly the texts in which the word "mvola"
    occurs, in any mix of cases; a sender that is not a string is
    rejected; and a request whose sender is rejected is answered with
    status 200 and changes nothing. *)
Theorem sender_filter :
  (forall s,
      mvola_test (Str s) = true <->
      exists pre w post,
        s = pre ++ w ++ post /\ eq_ci_string "mvola" w = true) /\
  (forall body i s,
      mvola_test (b_sender body) = false ->
      run (handler (sms_incoming body)) i s = (s, Done (Some (Status 200)))).
Proof.
  split.
  - intros s. unfold mvola_test, Regex.test. split.
    + destruct (Regex.search mvola_re s) as [c|] eqn:Hs; [|discriminate].
      intros _. apply search_found in Hs as (pre & s' & -> & Hr).
      apply (RegexFacts.run_sound mvola_re eq_refl) in Hr
        as (w & post & -> & M & _).
      exists pre, w, post. split; [reflexivity | now apply word_i_matches].
    + intros (pre & w & post & -> & Hw).
      destruct (search_finds mvola_re pre (w ++ post) None) as [c' ->];
        [|reflexivity].
      unfold mvola_re. now rewrite word_i_run.
  - intros body i s H. unfold handler, sms_incoming. rewrite H.
    destruct (negb (truthy (b_sender body)) || negb (truthy (b_message body)));
      reflexivity.
Qed.

Lemma sender_filter_witness :
  (mvola_test (Str "MVola Service") = true <->
   exists pre w post,
     "MVola Service" = pre ++ w ++ post /\ eq_ci_string "mvola" w = true) /\
  run (handler (sms_incoming (SmsBody (Str "Orange Money") (Str "1000 Ar"))))
      no_inputs initial = (initial, Done (Some (Status 200))).
Proof.
  destruct sender_filter as [Hiff Hno]. split.
  - apply Hiff.
  - apply Hno. reflexivity.
Defined.

(** Greedy repetition of a character class over a run of its characters
    that the bound or the next character ends. *)
Lemma repeat_chr_greedy {A} p rest c (k : @Regex.kont A) x :
  k rest c = Some x ->
  forall d fuel lo hi,
    JsString.forallb p d = true ->
    (lo <= String.length d <= hi)%nat ->
    (String.length d < fuel)%nat ->
    String.length d = hi \/ (forall ch r, rest = String ch r -> p ch = false) ->
    Regex.repeat (Regex.run (Regex.Chr p)) fuel lo (Some hi) (d ++ rest) c k
      = Some x.
Proof.
  intros Hk d.
  induction d as [|ch d IH]; intros fuel lo hi Hp Hlen Hfuel Hend;
    cbn [String.length] in *.
  - destruct fuel as [|fuel]; [lia|]. cbn [Regex.repeat append].
    destruct hi as [|hi]; cbn [Regex.hi_is_zero]; [exact Hk|].
    destruct Hend as [Hend|Hend]; [discriminate|].
    replace (Nat.ltb 0 lo) with false by (symmetry; apply Nat.ltb_ge; lia).
    cbn [Regex.run].
    destruct rest as [|ch r]; [exact Hk|].
    rewrite (Hend ch r eq_refl). exact Hk.
  - cbn [JsString.forallb] in Hp. apply andb_true_iff in Hp as [Hch Hp].
    destruct fuel as [|fuel]; [lia|]. cbn [Regex.repeat append].
    destruct hi as [|hi]; [lia|]. cbn [Regex.hi_is_zero Regex.run].
    rewrite Hch.
    replace (Nat.eqb (String.length (d ++ rest))
                     (String.length (String ch (d ++ rest)))) with false
      by (symmetry; apply Nat.eqb_neq; cbn [String.length]; lia).
    rewrite andb_false_r. cbn [Regex.hi_pred Nat.pred].
    assert (Hnext := IH fuel (Nat.pred lo) hi Hp).
    cbn [Regex.run] in Hnext. rewrite Hnext; try lia.
    + now destruct (Nat.ltb 0 lo).
    + destruct Hend as [Hend|Hend]; [left; lia | now right].
Qed.

Lemma rep_chr_shape p lo hi d :
  (lo <= hi)%nat ->
  Regex.matches (Regex.Rep (Regex.Chr p) lo (Some hi)) d ->
  JsString.forallb p d = true /\ (lo <= String.length d <= hi)%nat.
Proof.
  revert lo d. induction hi as [|hi IH]; intros lo d Hle M.
  - inversion M as [| | | | |? ? ? Hstop|? ? ? s1 s2 Hhi _ _|]; subst.
    + split; [reflexivity | simpl; lia].
    + now elim Hhi.
  - inversion M as [| | | | |? ? ? Hstop|? ? ? s1 s2 Hhi M1 M2|]; subst.
    + destruct Hstop as [->|]; [|discriminate].
      split; [reflexivity | simpl; lia].
    + inversion M1; subst. cbn [Regex.hi_pred Nat.pred] in M2.
      apply IH in M2 as [Hp Hl]; [|lia].
      cbn [append JsString.forallb String.length].
      split; [now rewrite Hp, andb_true_r | lia].
Qed.

Lemma phone_run_sound s c :
  Regex.run phone_re s None (fun _ c' => Some c') = Some c ->
  exists d rest,
    s = "(" ++ String "0" d ++ ")" ++ rest /\
    c = Some (String "0" d) /\
    JsString.forallb JsString.is_digit d = true /\
    (9 <= String.length d <= 10)%nat.
Proof.
  unfold phone_re. cbn [Regex.run Regex.lit]. intros H.
  destruct s as [|ch s]; [discriminate|].
  destruct (Ascii.eqb_spec "(" ch) as [<-|]; [|discriminate].
  change (Regex.run
            (Regex.Seq (Regex.Group (Regex.Seq (Regex.lit "0")
                                       (Regex.times Regex.digit 9 10)))
                       (Regex.lit ")")) s None (fun _ c' => Some c') = Some c)
    in H.
  apply RegexFacts.run_group_sound in H
    as (g & w & rest & -> & Mg & Mw & [= <-]); [|reflexivity..].
  inversion Mg as [| |? ? s1 s2 M0 Md| | | | |]; subst.
  inversion M0 as [|? ch0 E0| | | | | |]; subst.
  apply Ascii.eqb_eq in E0 as <-.
  inversion Mw as [|? ch1 E1| | | | | |]; subst.
  apply Ascii.eqb_eq in E1 as <-.
  apply rep_chr_shape in Md as [Hp Hl]; [|lia].
  exists s2, rest. cbn [append]. auto.
Qed.

Lemma run_rep_chr_greedy {A} p rest c (k : @Regex.kont A) x d lo hi :
  k rest c = Some x ->
  JsString.forallb p d = true ->
  (lo <= String.length d <= hi)%nat ->
  String.length d = hi \/ (forall ch r, rest = String ch r -> p ch = false) ->
  Regex.run (Regex.Rep (Regex.Chr p) lo (Some hi)) (d ++ rest) c k = Some x.
Proof.
  intros Hk Hp Hl Hend.
  change (Regex.repeat (Regex.run (Regex.Chr p))
            (S (lo + String.length (d ++ rest))) lo (Some hi) (d ++ rest) c k
          = Some x).
  apply repeat_chr_greedy; auto.
  rewrite RegexFacts.length_append. lia.
Qed.

Lemma run_seq {A} a b s c (k : @Regex.kont A) :
  Regex.run (Regex.Seq a b) s c k =
  Regex.run a s c (fun s' c' => Regex.run b s' c' k).
Proof. reflexivity. Qed.

Lemma run_lit {A} ch s c (k : @Regex.kont A) :
  Regex.run (Regex.lit ch) (String ch s) c k = k s c.
Proof. cbn [Regex.run Regex.lit]. now rewrite Ascii.eqb_refl. Qed.

Lemma phone_run_complete d post :
  JsString.forallb JsString.is_digit d = true ->
  String.length d = 9%nat \/ String.length d = 10%nat ->
  Regex.run phone_re ("(" ++ String "0" d ++ ")" ++ post) None
            (fun _ c' => Some c')
    = Some (Some (String "0" d)).
Proof.
  intros Hd Hl. unfold phone_re. cbn [append].
  rewrite run_seq, run_lit, run_seq.
  change (Regex.run (Regex.Group ?r) ?s ?c ?k) with
    (Regex.run r s c (fun s' _ =>
       k s' (Some (JsString.take (String.length s - String.length s') s)))).
  rewrite run_seq, run_lit. unfold Regex.times, Regex.digit.
  apply run_rep_chr_greedy; [|exact Hd|lia|].
  - rewrite run_lit. f_equal. f_equal.
    exact (RegexFacts.take_append (String "0" d) (String ")" post)).
  - destruct Hl as [Hl|Hl]; [right | left; exact Hl].
    intros ch r [= <- _]. reflexivity.
Qed.

(** X5.  Whenever the phone pattern matches, the captured text is a zero
    followed by nine or ten digits, it stands between parentheses in the
    message, and the phone looked up is made of its last nine digits.
    Every message that holds such a text between parentheses is matched.
    When the pattern matches nowhere, the handler sends status 200 and
    changes nothing. *)
Theorem phone_extraction :
  (forall m g,
      Regex.match1 phone_re m = Some g ->
      exists pre d post,
        m = pre ++ "(" ++ g ++ ")" ++ post /\
        g = String "0" d /\
        JsString.forallb JsString.is_digit d = true /\
        (9 <= String.length d <= 10)%nat /\
        normalizePhone g = JsString.slice_last 9 d /\
        String.length (normalizePhone g) = 9%nat) /\
  (forall pre d post,
      JsString.forallb JsString.is_digit d = true ->
      String.length d = 9%nat \/ String.length d = 10%nat ->
      exists g,
        Regex.match1 phone_re (pre ++ "(" ++ String "0" d ++ ")" ++ post)
          = Some g) /\
  (forall body m i s,
      b_message body = Str m ->
      Regex.match1 phone_re m = None ->
      run (handler (sms_incoming body)) i s = (s, Done (Some (Status 200)))).
Proof.
  split; [|split].
  - intros m g H. unfold Regex.match1 in H.
    destruct (Regex.search phone_re m) as [[g'|]|] eqn:Hs; try discriminate.
    injection H as ->.
    apply search_found in Hs as (pre & s' & -> & Hr).
    apply phone_run_sound in Hr as (d & rest & -> & [= ->] & Hd & Hl).
    exists pre, d, rest. split; [reflexivity|]. split; [reflexivity|].
    split; [exact Hd|]. split; [exact Hl|].
    assert (Hn : normalizePhone (String "0" d) = JsString.slice_last 9 d).
    { unfold normalizePhone. cbn [JsString.filter].
      change (JsString.is_digit "0") with true. cbv iota.
      rewrite (filter_all _ _ Hd).
      apply (slice_last_append 9 "0" d). lia. }
    split; [exact Hn|]. rewrite Hn. unfold JsString.slice_last.
    rewrite length_drop. lia.
  - intros pre d post Hd Hl.
    destruct (search_finds phone_re pre _ _ (phone_run_complete d post Hd Hl))
      as [c' Hs].
    unfold Regex.match1. rewrite Hs.
    apply search_found in Hs as (pre' & s' & _ & Hr).
    apply phone_run_sound in Hr as (d' & rest & _ & -> & _). eauto.
  - intros body m i s Hm Hp. rewrite sms_incoming_run.
    unfold confirmation, message_not_string. rewrite Hm, Hp.
    rewrite andb_false_r.
    destruct (truthy (b_sender body) && truthy (Str m)
              && mvola_test (b_sender body)); [|reflexivity].
    destruct (Regex.match1 amount_re m); reflexivity.
Qed.

Lemma phone_extraction_witness :
  (exists pre d post,
      "Recu 100 Ar de (0321234567) ok" = pre ++ "(" ++ "0321234567" ++ ")" ++ post /\
      "0321234567" = String "0" d /\
      JsString.forallb JsString.is_digit d = true /\
      (9 <= String.length d <= 10)%nat /\
      normalizePhone "0321234567" = JsString.slice_last 9 d /\
      String.length (normalizePhone "0321234567") = 9%nat) /\
  (exists g,
      Regex.match1 phone_re ("de " ++ "(" ++ String "0" "341234567" ++ ")" ++ ".")
        = Some g) /\
  run (handler (sms_incoming (SmsBody (Str "MVola") (Str "Recu 100 Ar"))))
      no_inputs initial = (initial, Done (Some (Status 200))).
Proof.
  destruct phone_extraction as (Hshape & Hall & Hnone).
  split; [|split].
  - apply (Hshape "Recu 100 Ar de (0321234567) ok" "0321234567").
    vm_compute. reflexivity.
  - apply (Hall "de " "341234567" "."); [reflexivity | left; reflexivity].
  - apply (Hnone _ "Recu 100 Ar"); vm_compute; reflexivity.
Defined.

Local Open Scope string_scope.
Local Open Scope Z_scope.
Local Open Scope prog_scope.
Local Open Scope list_scope.

(** ** Session intake *)

(** X6.  A truthy phone that is not a string passes the validation and makes
    the handler throw at [phone.replace]: no session is stored and the
    handler sends no reply of its own. *)
Theorem intake_rejects_non_string_phone body i s :
  truthy (b_phone body) = true ->
  truthy (b_amount body) = true ->
  truthy (b_offer body) = true ->
  (forall ph, b_phone body <> Str ph) ->
  run (handler (ussd_init body)) i s = (s, Failed TypeError).
Proof.
  intros Hp Ha Ho Hn. unfold handler, ussd_init. rewrite Hp, Ha, Ho.
  cbn [negb orb]. destruct (b_phone body) as [| |b|n|ph]; try reflexivity.
  now elim (Hn ph).
Qed.

Lemma intake_rejects_non_string_phone_witness :
  run (handler (ussd_init
         (UssdBody (Num (JsNumber.of_Z 321234567))
                   (Num (JsNumber.of_Z 1000)) (Str "1h"))))
      (Inputs 1000 S1 ["0.abcdefghijk"]) initial
    = (initial, Failed TypeError).
Proof.
  apply intake_rejects_non_string_phone; try reflexivity.
  intros ph H. discriminate H.
Defined.

(** X7.  After an accepted intake call the session can be looked up under the
    identifier returned to the caller: it is PENDING, with the normalised
    phone, the amount as a number, and the reference returned.  No other
    session has changed.  A new identifier comes last in the enumeration
    order; an identifier already present would keep its place. *)
Theorem intake_then_lookup body ph now uuid random s :
  b_phone body = Str ph ->
  truthy (b_phone body) = true ->
  truthy (b_amount body) = true ->
  truthy (b_offer body) = true ->
  exists s' r,
    run (handler (ussd_init body)) (Inputs now uuid [random]) s =
      (s', Done (Some (Created uuid r))) /\
    Obj.get uuid (pendingPayments s') =
      Some (Payment (normalizePhone ph) (Number (b_amount body))
                    (b_offer body) r PENDING now) /\
    (forall id, id <> uuid ->
       Obj.get id (pendingPayments s') = Obj.get id (pendingPayments s)) /\
    Obj.keys (pendingPayments s') =
      (if List.existsb (String.eqb uuid) (Obj.keys (pendingPayments s))
       then Obj.keys (pendingPayments s)
       else Obj.keys (pendingPayments s) ++ [uuid]) /\
    s' = set_pendingPayments (pendingPayments s') s.
Proof.
  intros Hph Hp Ha Ho. rewrite ussd_init_run, Hp, Ha, Ho, Hph. cbn [negb orb].
  eexists _, _. split; [reflexivity|].
  cbn [pendingPayments set_pendingPayments].
  split; [now rewrite get_set, String.eqb_refl|].
  split; [|split; [apply keys_set | reflexivity]].
  intros id Hne. rewrite get_set.
  now destruct (String.eqb_spec id uuid).
Qed.

Lemma intake_then_lookup_witness :
  exists s' r,
    run (handler (ussd_init (intake "1h")))
        (Inputs 1000 S1 ["0.abcdefghijk"]) initial =
      (s', Done (Some (Created S1 r))) /\
    Obj.get S1 (pendingPayments s') =
      Some (Payment (normalizePhone "032 12 345 67")
                    (Number (b_amount (intake "1h")))
                    (b_offer (intake "1h")) r PENDING 1000) /\
    (forall id, id <> S1 ->
       Obj.get id (pendingPayments s') = Obj.get id (pendingPayments initial)) /\
    Obj.keys (pendingPayments s') =
      (if List.existsb (String.eqb S1) (Obj.keys (pendingPayments initial))
       then Obj.keys (pendingPayments initial)
       else Obj.keys (pendingPayments initial) ++ [S1]) /\
    s' = set_pendingPayments (pendingPayments s') initial.
Proof.
  apply (intake_then_lookup (intake "1h") "032 12 345 67"); reflexivity.
Defined.

(** ** Where the stored sessions come from *)

Lemma step_ussd c body uuid random now c' :
  step c (UssdInit body uuid random now) = Some c' ->
  is_uuid uuid = true /\
  (c' = c \/
   exists ph,
     b_phone body = Str ph /\
     truthy (b_phone body) && truthy (b_amount body) && truthy (b_offer body)
       = true /\
     c' = Config (set_pendingPayments
                    (Obj.set uuid (new_payment body ph random now)
                             (registry c)) (st c)) (pool c)).
Proof.
  cbn [step]. destruct (is_uuid uuid); [|discriminate]. intros [= <-].
  split; [reflexivity|]. unfold spawn. rewrite ussd_init_run.
  destruct c as [s pl]. cbn [st pool]. unfold registry. cbn [st].
  destruct (truthy (b_phone body)); cbn [negb orb andb]; [|now left].
  destruct (truthy (b_amount body)); cbn [negb orb andb]; [|now left].
  destruct (truthy (b_offer body)); cbn [negb orb andb]; [|now left].
  destruct (b_phone body) as [| |b|n|ph]; try (now left).
  right. exists ph. auto.
Qed.

Lemma created_by_status l id p status :
  created_by l id p -> created_by l id (with_status status p).
Proof.
  intros (body & random & ph & H1 & H2 & H3 & H4).
  exists body, random, ph. auto.
Qed.

Lemma provenance_step ls c l c' :
  well_formed c ->
  (forall id p, Obj.get id (registry c) = Some p ->
                exists l0, In l0 ls /\ created_by l0 id p) ->
  step c l = Some c' ->
  forall id p, Obj.get id (registry c') = Some p ->
               exists l0, In l0 (ls ++ [l]) /\ created_by l0 id p.
Proof.
  intros WF IH Hstep id p Hget.
  assert (Hold : forall q, Obj.get id (registry c) = Some q ->
            exists l0, In l0 (ls ++ [l]) /\ created_by l0 id q).
  { intros q Hq. destruct (IH _ _ Hq) as (l0 & Hin & Hc).
    exists l0. split; [apply in_or_app; now left | exact Hc]. }
  destruct l as [|body uuid random now| | | | |].
  2:{ apply step_ussd in Hstep as [_ [->|(ph & Hph & Htr & ->)]];
        [now apply Hold|].
      unfold registry in Hget. cbn [st pendingPayments set_pendingPayments] in Hget.
      rewrite get_set in Hget. destruct (String.eqb_spec id uuid) as [->|].
      - injection Hget as <-.
        exists (UssdInit body uuid random now).
        split; [apply in_or_app; right; now left|].
        exists body, random, ph. auto.
      - now apply Hold. }
  all: destruct WF as (ND & _ & Hpool);
    destruct (step_before _ _ _ Hpool Hstep)
      as (s & owner & o & base & e & Hb & Ht & _);
    pose proof (before_registry_nodup _ _ _ _ _ _ Hb ND) as ND1;
    unfold registry in Hget;
    destruct (touches_get _ _ _ _ _ id Ht ND1) as [E|[_ E]];
      rewrite E in Hget; try discriminate;
    inversion Hb; subst;
      unfold confirm in Hget;
      cbn [pendingPayments set_pendingPayments set_timers] in Hget;
      try (now apply Hold).
  - (* a confirmation marks the session *)
    rewrite get_update in Hget.
    destruct (String.eqb id id0); [|now apply Hold].
    destruct (Obj.get id (pendingPayments (st c))) as [q|] eqn:Hq;
      [|discriminate].
    injection Hget as <-.
    destruct (Hold q Hq) as (l0 & Hin & Hc).
    exists l0. split; [exact Hin | now apply created_by_status].
  - (* a sweeper tick *)
    rewrite sweep_filter, get_filter in Hget by assumption.
    destruct (Obj.get id (pendingPayments (st c))) as [q|] eqn:Hq;
      [|discriminate].
    destruct (survives now (id, q)); [|discriminate].
    injection Hget as <-. now apply Hold.
Qed.

Lemma provenance_reaches ls c :
  reaches ls c ->
  forall id p, Obj.get id (registry c) = Some p ->
               exists l0, In l0 ls /\ created_by l0 id p.
Proof.
  induction 1 as [|ls c l c' Hr IH Hs]; [discriminate|].
  eapply provenance_step; eauto using well_formed_reaches.
Qed.

(** X8.  Every session in the registry was created by an accepted intake call
    of the run, under an identifier of the generator's shape, and differs
    from what that call stored by its status at most; its phone is in
    normalised form: digits only, nine at most. *)
Theorem sessions_come_from_intake ls c id p :
  exec start ls = Some c ->
  Obj.get id (registry c) = Some p ->
  (exists l, In l ls /\ created_by l id p) /\
  is_uuid id = true /\
  JsString.forallb JsString.is_digit (phone p) = true /\
  (String.length (phone p) <= 9)%nat /\
  normalizePhone (phone p) = phone p.
Proof.
  intros He Hg. apply exec_reaches in He.
  destruct (provenance_reaches _ _ He _ _ Hg) as (l & Hin & Hc).
  split; [eauto|]. split.
  - apply (uuids_reaches ls c He), (keys_reaches ls c He).
    eapply get_in_keys; eauto.
  - destruct Hc as (body & random & ph & _ & _ & _ & E).
    assert (Hp : phone p = normalizePhone ph).
    { change (phone p) with (phone (with_status PENDING p)). now rewrite E. }
    rewrite Hp. split; [apply normalizePhone_digits|].
    split; [rewrite normalizePhone_length; lia | apply normalizePhone_again].
Qed.

Lemma sessions_come_from_intake_witness :
  (exists l, In l one_intake /\ created_by l S1 session_1) /\
  is_uuid S1 = true /\
  JsString.forallb JsString.is_digit (phone session_1) = true /\
  (String.length (phone session_1) <= 9)%nat /\
  normalizePhone (phone session_1) = phone session_1.
Proof.
  apply (sessions_come_from_intake one_intake (after one_intake));
    vm_compute; reflexivity.
Defined.

(** ** Expired sessions *)

Lemma absent_step id c l c' :
  well_formed c ->
  step c l = Some c' ->
  (forall body u r n, l = UssdInit body u r n -> u <> id) ->
  Obj.get id (registry c) = None ->
  Obj.get id (registry c') = None.
Proof.
  intros (ND & _ & Hpool) Hstep Hfresh Hnone.
  destruct (step_before c l c' Hpool Hstep)
    as (s & owner & o & base & e & Hb & Ht & _).
  pose proof (before_registry_nodup _ _ _ _ _ _ Hb ND) as ND1.
  unfold registry in *.
  destruct (touches_get _ _ _ _ _ id Ht ND1) as [->|[_ ->]]; [|reflexivity].
  destruct Hb; unfold confirm;
    cbn [pendingPayments set_pendingPayments set_timers]; auto.
  - rewrite sweep_filter, get_filter by assumption. now rewrite Hnone.
  - rewrite get_set. destruct (String.eqb_spec id uuid) as [->|]; auto.
    exfalso. eapply Hfresh; eauto.
  - rewrite get_update, Hnone. now destruct (String.eqb id id0).
Qed.

Lemma absent_exec id ls2 : forall ls1 c1 c2,
  reaches ls1 c1 ->
  ids_fresh (ls1 ++ ls2) ->
  exec c1 ls2 = Some c2 ->
  In id (ussd_ids ls1) ->
  Obj.get id (registry c1) = None ->
  Obj.get id (registry c2) = None.
Proof.
  induction ls2 as [|l ls2 IH]; intros ls1 c1 c2 Hr Hf He Hin Hn; simpl in He.
  - now injection He as <-.
  - destruct (step c1 l) as [c|] eqn:Hs; [|discriminate].
    change (l :: ls2) with ([l] ++ ls2) in Hf. rewrite app_assoc in Hf.
    apply (IH (ls1 ++ [l]) c c2); auto.
    + econstructor; eauto.
    + rewrite ussd_ids_app. apply in_or_app. now left.
    + eapply absent_step; eauto using well_formed_reaches.
      intros body u r n -> ->.
      apply ids_fresh_prefix in Hf. now apply ids_fresh_last in Hf.
Qed.

(** X9.  A session that a sweeper tick finds older than the window is gone
    for good: provided the identifier generator never repeats itself,
    nothing that happens later brings it back, and no later confirmation
    is matched with it, however late the payment notice arrives. *)
Theorem expired_session_never_matched ls c now c1 ls2 c2 id p :
  exec start ls = Some c ->
  step c (SweeperTick now) = Some c1 ->
  exec c1 ls2 = Some c2 ->
  ids_fresh (ls ++ SweeperTick now :: ls2) ->
  Obj.get id (registry c) = Some p ->
  now - createdAt p > expiry_window ->
  Obj.get id (registry c2) = None /\
  forall l, ~ consumes c2 l id.
Proof.
  intros He Hs He2 Hf Hg Hold. apply exec_reaches in He.
  assert (Hin : In id (ussd_ids ls)).
  { apply (keys_reaches _ _ He). eapply get_in_keys; eauto. }
  assert (H1 : Obj.get id (registry c1) = None).
  { pose proof (well_formed_reaches _ _ He) as (ND & _ & _).
    cbn [step] in Hs. injection Hs as <-.
    unfold spawn. rewrite sweeper_run. unfold registry in *.
    cbn [st pendingPayments set_pendingPayments].
    rewrite sweep_filter, get_filter, Hg by assumption.
    unfold survives. cbn [snd].
    destruct (Z.gtb_spec (now - createdAt p) expiry_window); [reflexivity|lia]. }
  assert (H2 : Obj.get id (registry c2) = None).
  { change (SweeperTick now :: ls2) with ([SweeperTick now] ++ ls2) in Hf.
    rewrite app_assoc in Hf.
    apply (absent_exec id ls2 (ls ++ [SweeperTick now]) c1 c2); auto.
    - econstructor; eauto.
    - rewrite ussd_ids_app. apply in_or_app. now left. }
  split; [exact H2|].
  intros l (body & a & ph & _ & _ & Hfind & _).
  destruct (find_session_get _ _ _ _ Hfind) as (q & Hq & _).
  congruence.
Qed.

Lemma expired_session_never_matched_witness :
  Obj.get S1 (registry (after (one_intake ++ [SweeperTick 500000]))) = None /\
  forall l, ~ consumes (after (one_intake ++ [SweeperTick 500000])) l S1.
Proof.
  apply (expired_session_never_matched one_intake (after one_intake) 500000
           (after (one_intake ++ [SweeperTick 500000])) []
           _ S1 session_1); vm_compute; try reflexivity.
Defined.

Local Open Scope string_scope.
Local Open Scope Z_scope.
Local Open Scope prog_scope.
Local Open Scope list_scope.

(** ** The connection manager *)

(** X10.  One call of [connectMikrotik]: nothing under the guard; otherwise one
    connection attempt whose outcome becomes the ready flag, the guard
    flag being raised for the time of the attempt and lowered at its end
    whatever the outcome; no exception leaves the function. *)
Theorem connectMikrotik_attempt s :
  outcomes (connect_policy s) connectMikrotik s [].
Proof.
  unfold connectMikrotik, connect_policy.
  cbn [bind outcomes].
  destruct (mikrotikReady s || reconnecting s) eqn:G.
  - cbn. auto.
  - cbn. intros [|] s1; cbn; (split; [reflexivity|]);
      [exists s1, true | exists s1, false]; split; reflexivity.
Qed.

(** X11.  One call of [ensureMikrotik] returns only with the client marked
    ready, throws only 'MikroTik non disponible' and only with the client
    not marked ready, and makes at most one call on the client, a
    [connect]. *)
Theorem ensureMikrotik_result s :
  outcomes ensure_policy ensureMikrotik s [].
Proof.
  unfold ensureMikrotik, connectMikrotik, ensure_policy.
  exec_outcomes; flag_facts; auto.
Qed.

(** ** Runs of the event loop from any configuration *)

Lemma nth_error_last {A} (l : list A) x :
  nth_error (l ++ [x]) (List.length l) = Some x.
Proof. induction l as [|a l IH]; simpl; auto. Qed.

Lemma remove_nth_last {A} (l : list A) x :
  remove_nth (List.length l) (l ++ [x]) = l.
Proof. induction l as [|a l IH]; simpl; auto. now rewrite IH. Qed.

Lemma delete_update {V} k (f : V -> V) o :
  Obj.delete k (Obj.update k f o) = Obj.delete k o.
Proof.
  induction o as [|[k' v] o IH]; simpl; auto.
  destruct (String.eqb k k') eqn:E; simpl; rewrite E; auto.
  now rewrite IH.
Qed.

(** X12.  Recovery after a device error.  From any configuration with no
    connection attempt in flight, an error event followed by the firing
    of the timer that it armed starts one connection attempt; when that
    attempt settles the client is marked ready exactly if it succeeded.
    The client has been closed and connected once, and the sessions, the
    vouchers, the other timers and the parked tasks are as before. *)
Theorem error_then_timer_reconnects c ok random :
  reconnecting (st c) = false ->
  exists c',
    exec c [MikrotikError; TimerFires;
            Resume (List.length (pool c)) ok random] = Some c' /\
    st c' = State ok false (registry c) (vouchers (st c)) (timers (st c))
                  (calls (st c) ++ [Close; Connect]) /\
    pool c' = pool c.
Proof.
  destruct c as [[rd rc reg vs tm cs] pl]. cbn [st reconnecting].
  intros ->. eexists. split.
  - cbn [exec step]. unfold spawn. cbn.
    rewrite nth_error_last, remove_nth_last. cbn.
    destruct ok; cbn; reflexivity.
  - cbn. unfold set_reconnecting, set_mikrotikReady, called, set_timers. cbn.
    rewrite <- app_assoc. split; reflexivity.
Qed.

Lemma error_then_timer_reconnects_witness :
  exists c',
    exec (after connected)
         [MikrotikError; TimerFires;
          Resume (List.length (pool (after connected))) true []] = Some c' /\
    st c' = State true false (registry (after connected))
                  (vouchers (st (after connected)))
                  (timers (st (after connected)))
                  (calls (st (after connected)) ++ [Close; Connect]) /\
    pool c' = pool (after connected).
Proof.
  apply (error_then_timer_reconnects (after connected) true []). reflexivity.
Defined.

(** X13.  From payment notice to voucher.  In any configuration whose client
    is marked ready, a confirmation matched with a session whose offer
    maps to a profile, followed by the three resumptions of its task with
    the write fulfilled, stores under the session identifier the voucher
    made of the two random draws, creates exactly that user on the
    device, and removes the session; a poll for the session then returns
    the voucher.  Nothing else changes. *)
Theorem confirmed_payment_issues_voucher c body a ph id p prof r1 r2 :
  mikrotikReady (st c) = true ->
  confirmation body = Some (a, ph) ->
  find_session a ph (registry c) = Some id ->
  id <> "" ->
  Obj.get id (registry c) = Some p ->
  profileMap (offer p) = Some prof ->
  let n := List.length (pool c) in
  let v := Voucher ("SD-" ++ JsString.substring 2 7 r1)
                   (JsString.slice_last 6 r2) in
  exists c',
    exec c [SmsIncoming body; Resume n true [r1; r2];
            Resume n true []; Resume n true []] = Some c' /\
    st c' = State true (reconnecting (st c))
                  (Obj.delete id (registry c))
                  (Obj.set id v (vouchers (st c)))
                  (timers (st c))
                  (calls (st c) ++ [UserAdd (username v) (password v) prof]) /\
    pool c' = pool c /\
    run (voucher_status id) no_inputs (st c') = (st c', Done (Ready (OwnVoucher v))).
Proof.
  destruct c as [[rd rc reg vs tm cs] pl]. unfold registry.
  intros Hrd Hc Hf Hne Hg Hprof.
  cbn [st pool mikrotikReady pendingPayments reconnecting vouchers timers calls]
    in *.
  subst rd.
  set (n := List.length pl).
  set (v := Voucher ("SD-" ++ JsString.substring 2 7 r1)
                    (JsString.slice_last 6 r2)).
  assert (Hrun : exists c',
    exec (Config (State true rc reg vs tm cs) pl)
         [SmsIncoming body; Resume n true [r1; r2];
          Resume n true []; Resume n true []] = Some c' /\
    st c' = State true rc (Obj.delete id reg) (Obj.set id v vs) tm
                  (cs ++ [UserAdd (username v) (password v) prof]) /\
    pool c' = pl).
  { cbn [exec].
    assert (E1 : step (Config (State true rc reg vs tm cs) pl)
                      (SmsIncoming body)
                 = Some (spawn (handler (issue id prof ;; Ret (Status 200)))
                               no_inputs
                               (Config (confirm id (State true rc reg vs tm cs))
                                       pl))).
    { cbn [step]. unfold spawn. rewrite sms_incoming_run.
      cbn [st pool pendingPayments]. rewrite Hc, Hf, Hg, Hprof.
      destruct (String.eqb_spec id ""); [contradiction|]. reflexivity. }
    rewrite E1. clear E1. unfold spawn at 1.
    cbn -[Obj.set Obj.delete Obj.update JsString.substring
          JsString.slice_last String.append nth_error remove_nth].
    subst n. rewrite nth_error_last, remove_nth_last. unfold spawn at 1.
    cbn -[Obj.set Obj.delete Obj.update JsString.substring
          JsString.slice_last String.append nth_error remove_nth].
    rewrite nth_error_last, remove_nth_last. unfold spawn at 1.
    cbn -[Obj.set Obj.delete Obj.update JsString.substring
          JsString.slice_last String.append nth_error remove_nth].
    rewrite nth_error_last, remove_nth_last. unfold spawn at 1.
    cbn -[Obj.set Obj.delete Obj.update JsString.substring
          JsString.slice_last String.append nth_error remove_nth].
    eexists. split; [reflexivity|].
    cbn -[Obj.set Obj.delete Obj.update JsString.substring
          JsString.slice_last String.append].
    unfold set_vouchers, set_pendingPayments, called, confirm,
      set_pendingPayments.
    cbn -[Obj.set Obj.delete Obj.update JsString.substring
          JsString.slice_last String.append].
    rewrite delete_update. split; reflexivity. }
  destruct Hrun as (c' & He & Hs & Hp). exists c'.
  split; [exact He|]. split; [exact Hs|]. split; [exact Hp|].
  rewrite Hs. unfold voucher_status, voucher_lookup.
  cbn [bind run vouchers]. now rewrite get_set, String.eqb_refl.
Qed.

Lemma confirmed_payment_issues_voucher_witness :
  let c := after one_intake in
  let n := List.length (pool c) in
  let v := Voucher ("SD-" ++ JsString.substring 2 7 "0.4fzyo82mvyr")
                   (JsString.slice_last 6 "0.zzzz123456") in
  exists c',
    exec c [SmsIncoming sms_1000; Resume n true ["0.4fzyo82mvyr"; "0.zzzz123456"];
            Resume n true []; Resume n true []] = Some c' /\
    st c' = State true (reconnecting (st c))
                  (Obj.delete S1 (registry c))
                  (Obj.set S1 v (vouchers (st c)))
                  (timers (st c))
                  (calls (st c) ++ [UserAdd (username v) (password v) (Own "1Heure")]) /\
    pool c' = pool c /\
    run (voucher_status S1) no_inputs (st c') = (st c', Done (Ready (OwnVoucher v))).
Proof.
  apply (confirmed_payment_issues_voucher (after one_intake) sms_1000
           (JsNumber.of_Z 1000) "321234567" S1 session_1 (Own "1Heure"));
    try (vm_compute; reflexivity).
  discriminate.
Defined.

Local Open Scope string_scope.
Local Open Scope Z_scope.
Local Open Scope prog_scope.
Local Open Scope list_scope.

(** ** What the tasks do to the vouchers and to the ready flag *)

Ltac solve_stores :=
  unfold stores;
  split;
  [ solve_touches
  | cbn -[Obj.set Obj.delete Obj.update]; flag_facts;
    split;
    [ first [ left; reflexivity
            | right; do 2 eexists;
              split; [reflexivity|];
              split; [discriminate|];
              split; [reflexivity|]; split; [reflexivity | exact I] ]
    | split;
      [ intros; first [ left; assumption
                      | right; reflexivity
                      | congruence ]
      | first [ exact I | assumption | reflexivity | congruence ] ] ] ].

Lemma connectMikrotik_stores s :
  guar (stores None) Fresh (callback connectMikrotik) s s.
Proof.
  unfold callback, connectMikrotik. exec_prog; solve_stores.
Qed.

Lemma onMikrotikError_stores s :
  guar (stores None) Fresh (callback onMikrotikError) s s.
Proof.
  unfold callback, onMikrotikError, safeDisconnect. exec_prog; solve_stores.
Qed.

Lemma issue_stores id prof s :
  guar (stores (Some id)) Fresh
       (handler (issue id prof ;; Ret (Status 200))) s s.
Proof.
  unfold handler, issue, generateVoucher, ensureMikrotik, connectMikrotik,
    write_user_add, safeDisconnect.
  exec_prog; solve_stores.
Qed.

Lemma stores_idle {R} owner s (r : ending R) :
  match r with Parks _ => False | _ => True end ->
  stores owner Fresh s s r.
Proof.
  intros H. split; [now apply touches_idle|].
  split; [now left|]. split; [now left|].
  destruct r as [x|x|a]; auto. contradiction.
Qed.

Lemma spawn_stores owner o p i s base :
  guar (stores owner) o p s s ->
  exists e,
    stores owner o s (st (spawn p i (Config s base))) e /\
    pool_stores base owner e (spawn p i (Config s base)).
Proof.
  intros Hg. pose proof (guar_run _ _ _ i _ _ Hg) as Hr.
  unfold spawn. cbn [st pool].
  destruct (run p i s) as [s' [r|e|a k]].
  - exists (Returns r). split; [exact Hr | reflexivity].
  - exists (Throws e). split; [exact Hr | reflexivity].
  - destruct Hr as [H1 H2]. exists (Parks a). split; [exact H1|].
    exists k. split; [reflexivity | exact H2].
Qed.

Lemma task_stores_ok owner t : task_stores owner t -> task_ok owner t.
Proof.
  intros H ok s1. eapply guar_weaken; [|apply H].
  intros o s0 s e Hs. apply Hs.
Qed.

Lemma forall2_nth {A B} (P : A -> B -> Prop) la lb n b :
  Forall2 P la lb -> nth_error lb n = Some b ->
  exists a, nth_error la n = Some a /\ P a b.
Proof.
  intros H. revert n. induction H as [|x y la lb Hxy _ IH]; intros [|n] E;
    simpl in *; try discriminate; eauto.
  injection E as <-. eauto.
Qed.

(** Every step of the event loop, with the session that the stretch
    serves taken from the owners of the parked tasks. *)
Lemma step_served owners c l c' :
  Forall2 task_stores owners (pool c) ->
  step c l = Some c' ->
  exists s owner o base e,
    before c l s owner o base /\
    stores owner o s (st c') e /\
    pool_stores base owner e c' /\
    match o with
    | Fresh => base = pool c
    | After _ =>
        exists n ok random,
          l = Resume n ok random /\
          nth_error owners n = Some owner /\
          base = remove_nth n (pool c)
    end.
Proof.
  intros Hpool Hstep. destruct c as [s pl].
  destruct l; cbn [step st pool] in Hstep.
  - (* Listening *)
    injection Hstep as <-.
    destruct (spawn_stores None Fresh (callback connectMikrotik) no_inputs s pl
                (connectMikrotik_stores s)) as (e & H1 & H2).
    exists s, None, Fresh, pl, e.
    split; [apply (before_listening (Config s pl)) | auto].
  - (* UssdInit *)
    destruct (is_uuid uuid) eqn:Hu; [|discriminate]. injection Hstep as <-.
    unfold spawn. cbn [st pool]. rewrite ussd_init_run.
    destruct (negb (truthy (b_phone body)) || negb (truthy (b_amount body))
              || negb (truthy (b_offer body))).
    + exists s, None, Fresh, pl, (Returns (Some MissingParameters)).
      split; [apply (before_refuse (Config s pl))|].
      split; [now apply stores_idle | split; reflexivity].
    + destruct (b_phone body) as [| |b|n|ph] eqn:Hph.
      1-4: exists s, None, Fresh, pl, (Throws TypeError);
        (split; [apply (before_refuse (Config s pl))|]);
        (split; [now apply stores_idle | split; reflexivity]).
      eexists _, None, Fresh, pl, (Returns None).
      split; [eapply (before_create (Config s pl) body uuid random now ph);
              eauto|].
      split; [now apply stores_idle | split; reflexivity].
  - (* SmsIncoming *)
    injection Hstep as <-. unfold spawn. cbn [st pool].
    rewrite sms_incoming_run.
    destruct (confirmation body) as [[a ph]|] eqn:Hc.
    2:{ exists s, None, Fresh, pl.
        destruct (message_not_string body);
          [exists (Throws TypeError) | exists (Returns (Some (Status 200)))];
          (split; [apply (before_nomatch (Config s pl))|]);
          (split; [now apply stores_idle | split; reflexivity]). }
    destruct (find_session a ph (pendingPayments s)) as [id|] eqn:Hf.
    2:{ exists s, None, Fresh, pl, (Returns (Some (Status 200))).
        split; [apply (before_nomatch (Config s pl))|].
        split; [now apply stores_idle | split; reflexivity]. }
    destruct (String.eqb id "").
    { exists s, None, Fresh, pl, (Returns (Some (Status 200))).
      split; [apply (before_nomatch (Config s pl))|].
      split; [now apply stores_idle | split; reflexivity]. }
    destruct (find_session_get _ _ _ _ Hf) as (p & Hg & Hm). rewrite Hg.
    assert (Hb : before (Config s pl) (SmsIncoming body) (confirm id s)
                        (Some id) Fresh pl).
    { eapply (before_confirm (Config s pl)); eauto. }
    destruct (profileMap (offer p)) as [prof|].
    + destruct (spawn_stores (Some id) Fresh
                  (handler (issue id prof ;; Ret (Status 200))) no_inputs
                  (confirm id s) pl (issue_stores id prof _)) as (e & H1 & H2).
      unfold spawn in H1, H2. cbn [st pool] in H1, H2.
      exists (confirm id s), (Some id), Fresh, pl, e. split; [exact Hb|].
      destruct (run _ no_inputs (confirm id s)) as [s' [r|er|aw k]];
        (split; [exact H1 | split; [exact H2 | reflexivity]]).
    + exists (confirm id s), (Some id), Fresh, pl,
        (Returns (Some (Status 200))).
      split; [exact Hb|].
      split; [now apply stores_idle | split; reflexivity].
  - (* SweeperTick *)
    injection Hstep as <-. unfold spawn. cbn [st pool]. rewrite sweeper_run.
    eexists _, None, Fresh, pl, (Returns None).
    split; [apply (before_sweep (Config s pl))|].
    split; [now apply stores_idle | split; reflexivity].
  - (* MikrotikError *)
    injection Hstep as <-.
    destruct (spawn_stores None Fresh (callback onMikrotikError) no_inputs s pl
                (onMikrotikError_stores s)) as (e & H1 & H2).
    exists s, None, Fresh, pl, e.
    split; [apply (before_error (Config s pl)) | auto].
  - (* TimerFires *)
    destruct (timers s) as [|n] eqn:Ht; [discriminate|]. injection Hstep as <-.
    destruct (spawn_stores None Fresh (callback connectMikrotik) no_inputs
                (set_timers n s) pl
                (connectMikrotik_stores _)) as (e & H1 & H2).
    exists (set_timers n s), None, Fresh, pl, e.
    split; [now apply (before_timer (Config s pl)) | auto].
  - (* Resume *)
    destruct (nth_error pl n) as [t|] eqn:Hn; [|discriminate].
    injection Hstep as <-. cbn [pool] in Hpool.
    destruct (forall2_nth _ _ _ _ _ Hpool Hn) as (owner & Ho & Hok).
    destruct (spawn_stores owner (After (waits t)) (cont t ok)
                (Inputs 0 "" random) s (remove_nth n pl) (Hok ok s))
      as (e & H1 & H2).
    exists s, owner, (After (waits t)), (remove_nth n pl), e.
    split; [eapply (before_resume (Config s pl)); eauto using task_stores_ok|].
    split; [exact H1|]. split; [exact H2|]. eauto 6.
Qed.

Lemma forall2_remove_nth {A B} (P : A -> B -> Prop) la lb n :
  Forall2 P la lb -> Forall2 P (remove_nth n la) (remove_nth n lb).
Proof.
  intros H. revert n. induction H as [|x y la lb Hxy H IH]; intros [|n];
    simpl; auto.
Qed.

Lemma owners_step owners c l c' :
  Forall2 task_stores owners (pool c) ->
  step c l = Some c' ->
  exists owners', Forall2 task_stores owners' (pool c').
Proof.
  intros Hpool Hstep.
  destruct (step_served owners c l c' Hpool Hstep)
    as (s & owner & o & base & e & Hb & Hst & Hp & Ho).
  assert (Hbase : exists ob, Forall2 task_stores ob base).
  { destruct o as [|a].
    - subst base. eauto.
    - destruct Ho as (n & ok & random & -> & _ & ->).
      exists (remove_nth n owners). now apply forall2_remove_nth. }
  destruct Hbase as (ob & Hob). unfold pool_stores in Hp.
  destruct e as [r|er|a]; try (rewrite Hp; eauto).
  destruct Hp as (k & -> & Hk). exists (ob ++ [owner]).
  apply Forall2_app; auto.
Qed.

Lemma owners_reaches ls c :
  reaches ls c -> exists owners, Forall2 task_stores owners (pool c).
Proof.
  induction 1 as [|ls c l c' _ [owners IH] Hs].
  - exists []. constructor.
  - eapply owners_step; eauto.
Qed.

Lemma before_ready c l s owner o base :
  before c l s owner o base -> mikrotikReady s = mikrotikReady (st c).
Proof. intros Hb. destruct Hb; reflexivity. Qed.

Lemma before_vouchers c l s owner o base :
  before c l s owner o base -> vouchers s = vouchers (st c).
Proof. intros Hb. destruct Hb; reflexivity. Qed.

Lemma ready_step c l c' :
  (exists owners, Forall2 task_stores owners (pool c)) ->
  step c l = Some c' ->
  (reconnecting (st c) = true -> mikrotikReady (st c) = false) ->
  reconnecting (st c') = true -> mikrotikReady (st c') = false.
Proof.
  intros [owners Hpool] Hstep IH Hre.
  destruct (step_served owners c l c' Hpool Hstep)
    as (s & owner & o & base & e & Hb & Hst & _ & _).
  pose proof (before_flag _ _ _ _ _ _ Hb) as Hf.
  pose proof (before_ready _ _ _ _ _ _ Hb) as Hr.
  destruct Hst as ((_ & Hk & _) & _ & Hready & Hparks).
  unfold keeps_flag in Hk. rewrite Hf in Hk. rewrite Hr in Hready.
  destruct (mikrotikReady (st c')) eqn:E; [|reflexivity].
  destruct o as [|[| |]]; destruct e as [r|er|[| |]];
    try match type of Hk with _ /\ _ => destruct Hk as [Hk1 Hk2] end;
    try congruence;
    destruct (Hready eq_refl) as [H|H]; try discriminate;
    rewrite IH in H; congruence.
Qed.

Lemma ready_reaches ls c :
  reaches ls c -> reconnecting (st c) = true -> mikrotikReady (st c) = false.
Proof.
  induction 1 as [|ls c l c' Hr IH Hs]; [discriminate|].
  eapply ready_step; eauto using owners_reaches.
Qed.

(** X14.  The connection manager is always in one of three states: not ready
    with no attempt in flight, not ready with exactly one attempt in
    flight and the guard flag raised, or ready with no attempt in flight.
    The client is never marked ready while an attempt is in flight. *)
Theorem connection_states ls c :
  exec start ls = Some c ->
  (mikrotikReady (st c) = false /\ reconnecting (st c) = false /\
   in_flight c = 0%nat) \/
  (mikrotikReady (st c) = false /\ reconnecting (st c) = true /\
   in_flight c = 1%nat) \/
  (mikrotikReady (st c) = true /\ reconnecting (st c) = false /\
   in_flight c = 0%nat).
Proof.
  intros He. apply exec_reaches in He.
  pose proof (ready_reaches _ _ He) as Hr.
  destruct (well_formed_reaches _ _ He) as (_ & Hfl & _).
  rewrite Hfl.
  destruct (reconnecting (st c)) eqn:Ere.
  - right. left. rewrite Hr; auto.
  - destruct (mikrotikReady (st c)); auto.
Qed.

Lemma connection_states_witness :
  (mikrotikReady (st (after [Listening])) = false /\
   reconnecting (st (after [Listening])) = false /\
   in_flight (after [Listening]) = 0%nat) \/
  (mikrotikReady (st (after [Listening])) = false /\
   reconnecting (st (after [Listening])) = true /\
   in_flight (after [Listening]) = 1%nat) \/
  (mikrotikReady (st (after [Listening])) = true /\
   reconnecting (st (after [Listening])) = false /\
   in_flight (after [Listening]) = 0%nat).
Proof.
  apply (connection_states [Listening]). reflexivity.
Defined.

Local Open Scope string_scope.
Local Open Scope Z_scope.
Local Open Scope prog_scope.
Local Open Scope list_scope.

(** ** The voucher store *)

Lemma somes_app a b : somes (a ++ b) = somes a ++ somes b.
Proof.
  induction a as [|[x|] a IH]; simpl; auto. now rewrite IH.
Qed.

Lemma in_somes x l : In x (somes l) <-> In (Some x) l.
Proof.
  induction l as [|[y|] l IH]; simpl; [tauto| |].
  - rewrite IH. split; intros [H|H]; auto; left; congruence.
  - rewrite IH. split; [auto|]. intros [H|H]; [discriminate|auto].
Qed.

Lemma nodup_somes_remove l n :
  NoDup (somes l) -> NoDup (somes (remove_nth n l)).
Proof.
  revert n. induction l as [|[x|] l IH]; intros [|n] ND; simpl in *; auto.
  - now inversion ND.
  - inversion ND as [|? ? Hx ND']; subst. constructor; auto.
    rewrite in_somes in *. intros Hin. apply Hx.
    eapply remove_nth_incl; eauto.
Qed.

Lemma removed_owner l n id :
  NoDup (somes l) -> nth_error l n = Some (Some id) ->
  ~ In (Some id) (remove_nth n l).
Proof.
  revert n. induction l as [|[x|] l IH]; intros [|n] ND E; simpl in *;
    try discriminate.
  - injection E as ->. inversion ND; subst. now rewrite <- in_somes.
  - inversion ND as [|? ? Hx ND']; subst. intros [H|H].
    + injection H as ->. apply Hx. rewrite in_somes.
      eapply nth_error_In; eauto.
    + eapply IH; eauto.
  - intros [H|H]; [discriminate|]. eapply IH; eauto.
Qed.

Lemma in_keys_get {V} k (o : Obj.t V) :
  In k (Obj.keys o) -> exists v, Obj.get k o = Some v.
Proof.
  induction o as [|[k' v'] o IH]; simpl; [tauto|].
  intros H. destruct (String.eqb_spec k k') as [->|Hne]; eauto.
  destruct H as [H|H]; [congruence | auto].
Qed.

Lemma consumed_in_app ls ls' id :
  consumed_in ls id -> consumed_in (ls ++ ls') id.
Proof.
  intros (ls1 & l & ls2 & c1 & -> & He & Hc).
  exists ls1, l, (ls2 ++ ls'), c1. rewrite <- app_assoc. auto.
Qed.

Lemma consumed_in_ids ls id : consumed_in ls id -> In id (ussd_ids ls).
Proof.
  intros (ls1 & l & ls2 & c1 & -> & He & Hc).
  rewrite ussd_ids_app. apply in_or_app. left.
  apply (keys_reaches _ _ (exec_reaches _ _ He)).
  destruct Hc as (body & a & ph & _ & _ & Hf & _).
  destruct (find_session_get _ _ _ _ Hf) as (p & Hg & _).
  eapply get_in_keys; eauto.
Qed.

Lemma served_start : served [] start.
Proof.
  exists []. split; [constructor|]. split; [constructor|].
  split; intros id [].
Qed.

Lemma served_step ls c l c' :
  reaches ls c -> ids_fresh (ls ++ [l]) ->
  served ls c -> step c l = Some c' -> served (ls ++ [l]) c'.
Proof.
  intros Hr Hf (owners & Hpool & ND & Hown & Hvs) Hstep.
  destruct (step_served owners c l c' Hpool Hstep)
    as (s & owner & o & base & e & Hb & Hst & Hp & Ho).
  pose proof (well_formed_reaches _ _ Hr) as WF.
  pose proof WF as (NDreg & _ & _).
  pose proof (before_registry_nodup _ _ _ _ _ _ Hb NDreg) as ND1.
  pose proof (before_vouchers _ _ _ _ _ _ Hb) as Hbv.
  destruct Hst as (Ht & Hv & _ & _).
  assert (F2 : forall id, In id (ussd_ids ls) ->
            Obj.get id (registry c) = None -> Obj.get id (registry c') = None).
  { intros id Hin Hn. eapply absent_step; eauto.
    intros body u r n -> ->. now apply ids_fresh_last in Hf. }
  assert (F3 : forall id, spent id ls c -> spent id (ls ++ [l]) c').
  { intros id Hsp. eapply spent_step; eauto. }
  assert (Hob : exists ob,
            Forall2 task_stores ob base /\ incl ob owners /\
            NoDup (somes ob) /\
            (forall id, owner = Some id -> o <> Fresh ->
                        In (Some id) owners /\ ~ In (Some id) ob)).
  { destruct o as [|aw].
    - subst base. exists owners. repeat split; auto using incl_refl.
      all: now elim H0.
    - destruct Ho as (n & ok & random & -> & Hn & ->).
      exists (remove_nth n owners).
      split; [now apply forall2_remove_nth|].
      split; [apply remove_nth_incl|].
      split; [now apply nodup_somes_remove|].
      intros id -> _. split; [eapply nth_error_In; eauto|].
      now apply removed_owner. }
  destruct Hob as (ob & Hob1 & Hob2 & Hob3 & Hob4).
  assert (Hfresh_owner : forall id, owner = Some id -> o = Fresh ->
            consumed_in (ls ++ [l]) id /\ spent id (ls ++ [l]) c' /\
            Obj.get id (vouchers (st c)) = None /\ ~ In (Some id) owners).
  { intros id -> ->.
    destruct (before_fresh_owner _ _ _ _ _ id Hb eq_refl)
      as (body & a & ph & -> & Hc & Hfind).
    destruct (find_session_get _ _ _ _ Hfind) as (p & Hg & _).
    assert (Hcons : consumes c (SmsIncoming body) id).
    { exists body, a, ph. repeat split; auto.
      eapply keys_nonempty; eauto. eapply get_in_keys; eauto. }
    split; [|split; [|split]].
    - exists ls, (SmsIncoming body), [], c.
      repeat split; auto using reaches_exec.
    - split.
      + rewrite ussd_ids_app. apply in_or_app. left.
        apply (keys_reaches _ _ Hr). eapply get_in_keys; eauto.
      + rewrite (consumes_step _ _ _ _ Hcons Hstep). discriminate.
    - destruct (Obj.get id (vouchers (st c))) as [v|] eqn:Ev; [|reflexivity].
      apply get_in_keys in Ev. apply Hvs in Ev as [_ Ev]. congruence.
    - intros Hin. apply Hown in Hin as (_ & [_ Hsp] & _).
      apply Hsp. now apply consumes_pending in Hcons. }
  assert (Hold : forall id, In (Some id) owners ->
            consumed_in (ls ++ [l]) id /\ spent id (ls ++ [l]) c' /\
            Obj.get id (vouchers (st c)) = None).
  { intros id Hin. destruct (Hown id Hin) as (H1 & H2 & H3).
    auto using consumed_in_app. }
  assert (Holdv : forall id, In id (Obj.keys (vouchers (st c))) ->
            consumed_in (ls ++ [l]) id /\ Obj.get id (registry c') = None).
  { intros id Hin. destruct (Hvs id Hin) as (H1 & H2).
    split; [now apply consumed_in_app|].
    apply F2; auto. now apply consumed_in_ids. }
  destruct Hv as [Hv|(id0 & v & -> & Hno & Hv & Hreg & He)].
  - (* the voucher store is as before *)
    rewrite Hbv in Hv.
    set (extra := match e with Parks _ => [owner] | _ => [] end).
    exists (ob ++ extra).
    assert (Hextra : forall id, In (Some id) extra ->
              owner = Some id /\ exists a, e = Parks a).
    { subst extra. destruct e as [r|er|a]; intros id Hin; simpl in Hin;
        [contradiction | contradiction |].
      destruct Hin as [->|[]]. eauto. }
    split; [|split; [|split]].
    + unfold pool_stores in Hp. subst extra.
      destruct e as [r|er|a].
      * rewrite Hp, app_nil_r. exact Hob1.
      * rewrite Hp, app_nil_r. exact Hob1.
      * destruct Hp as (k & -> & Hk). apply Forall2_app; auto.
    + rewrite somes_app.
      destruct (somes extra) as [|x [|y r]] eqn:Ex.
      * now rewrite app_nil_r.
      * apply NoDup_app; auto.
        -- repeat constructor. easy.
        -- intros z Hz [->|[]].
           assert (Hx : In (Some z) extra)
             by (apply in_somes; rewrite Ex; now left).
           apply Hextra in Hx as (-> & _).
           rewrite in_somes in Hz. destruct o as [|aw].
           ++ destruct (Hfresh_owner z eq_refl eq_refl) as (_ & _ & _ & Hn).
              auto.
           ++ destruct (Hob4 z eq_refl) as (_ & Hn); [discriminate|auto].
      * subst extra. destruct e as [r0|er|a]; try discriminate.
        destruct owner; discriminate.
    + intros id Hin. rewrite Hv.
      apply in_app_or in Hin as [Hin|Hin].
      * apply Hold. auto.
      * apply Hextra in Hin as (-> & _). destruct o as [|aw].
        -- destruct (Hfresh_owner id eq_refl eq_refl) as (H1 & H2 & H3 & _).
           auto.
        -- apply Hold. now apply (Hob4 id eq_refl).
    + intros id Hin. rewrite Hv in Hin. now apply Holdv.
  - (* the task stores the voucher of its session and ends *)
    rewrite Hbv in Hv.
    destruct (Hob4 id0 eq_refl Hno) as (Hin0 & Hout0).
    exists ob. split; [|split; [|split]].
    + unfold pool_stores in Hp.
      destruct e as [r|er|a]; [now rewrite Hp | now rewrite Hp | contradiction].
    + exact Hob3.
    + intros id Hin. destruct (Hold id (Hob2 _ Hin)) as (H1 & H2 & H3).
      split; [exact H1|]. split; [exact H2|].
      rewrite Hv, get_set.
      destruct (String.eqb_spec id id0) as [->|]; [contradiction | exact H3].
    + intros id Hin. rewrite Hv, keys_set in Hin.
      assert (Hcase : id = id0 \/ In id (Obj.keys (vouchers (st c)))).
      { destruct (existsb _ _); auto.
        apply in_app_or in Hin as [Hin|[<-|[]]]; auto. }
      destruct Hcase as [->|Hin']; [|now apply Holdv].
      destruct (Hold id0 Hin0) as (H1 & _).
      split; [exact H1|]. unfold registry. rewrite Hreg.
      now apply get_delete_same.
Qed.

Lemma served_reaches ls c : reaches ls c -> ids_fresh ls -> served ls c.
Proof.
  induction 1 as [|ls c l c' Hr IH Hs]; intros Hf; [apply served_start|].
  eapply served_step; eauto. apply IH. eapply ids_fresh_prefix; eauto.
Qed.

Local Open Scope string_scope.
Local Open Scope Z_scope.
Local Open Scope prog_scope.
Local Open Scope list_scope.

(** ** Vouchers and polling *)

Lemma uuid_not_inherited id :
  is_uuid id = true -> existsb (String.eqb id) inherited_keys = false.
Proof.
  intros Hu. destruct (existsb _ _) eqn:E; [|reflexivity].
  apply existsb_exists in E as (k & Hin & Hk).
  apply String.eqb_eq in Hk. subst k.
  unfold inherited_keys in Hin. cbn [In] in Hin.
  repeat (destruct Hin as [<-|Hin]; [vm_compute in Hu; discriminate Hu|]).
  contradiction.
Qed.

Lemma poll_own id v s i :
  Obj.get id (vouchers s) = Some v ->
  run (voucher_status id) i s = (s, Done (Ready (OwnVoucher v))) /\
  run (voucher_all id) i s = (s, Done (Ready (OwnVoucher v))).
Proof.
  intros H. unfold voucher_status, voucher_all, voucher_lookup.
  cbn [bind run]. now rewrite H.
Qed.

Lemma poll_none id s i :
  Obj.get id (vouchers s) = None -> is_uuid id = true ->
  run (voucher_status id) i s = (s, Done NotReady) /\
  run (voucher_all id) i s = (s, Done NotReady).
Proof.
  intros H Hu. unfold voucher_status, voucher_all, voucher_lookup.
  cbn [bind run]. now rewrite H, (uuid_not_inherited id Hu).
Qed.

(** X15.  No voucher without a payment notice.  Provided the identifier
    generator never repeats itself, every voucher in the store stands
    under the identifier of a session that some confirmation of the run
    was matched with, and that session is no longer in the registry. *)
Theorem voucher_requires_confirmation ls c id v :
  exec start ls = Some c ->
  ids_fresh ls ->
  Obj.get id (vouchers (st c)) = Some v ->
  consumed_in ls id /\ Obj.get id (registry c) = None.
Proof.
  intros He Hf Hv. apply exec_reaches in He.
  destruct (served_reaches _ _ He Hf) as (owners & _ & _ & _ & Hvs).
  apply Hvs. eapply get_in_keys; eauto.
Qed.

(** X16.  While a session is in the registry, PENDING or CONFIRMED, both
    polling routes answer that no voucher is ready for it, and change
    nothing. *)
Theorem pending_session_polls_not_ready ls c id p i :
  exec start ls = Some c ->
  ids_fresh ls ->
  Obj.get id (registry c) = Some p ->
  run (voucher_status id) i (st c) = (st c, Done NotReady) /\
  run (voucher_all id) i (st c) = (st c, Done NotReady).
Proof.
  intros He Hf Hg. apply exec_reaches in He.
  apply poll_none.
  - destruct (Obj.get id (vouchers (st c))) as [v|] eqn:Ev; [|reflexivity].
    destruct (served_reaches _ _ He Hf) as (owners & _ & _ & _ & Hvs).
    apply get_in_keys in Ev. apply Hvs in Ev as [_ Ev]. congruence.
  - apply (uuids_reaches _ _ He), (keys_reaches _ _ He).
    eapply get_in_keys; eauto.
Qed.

Lemma voucher_kept_step ls c l c' id v :
  served ls c -> step c l = Some c' ->
  Obj.get id (vouchers (st c)) = Some v ->
  Obj.get id (vouchers (st c')) = Some v.
Proof.
  intros (owners & Hpool & ND & Hown & Hvs) Hstep Hg.
  destruct (step_served owners c l c' Hpool Hstep)
    as (s & owner & o & base & e & Hb & Hst & _ & Ho).
  pose proof (before_vouchers _ _ _ _ _ _ Hb) as Hbv.
  destruct Hst as (_ & [Hv|(id0 & v0 & -> & Hno & Hv & _)] & _);
    rewrite Hv, Hbv; [exact Hg|].
  rewrite get_set. destruct (String.eqb_spec id id0) as [->|]; [|exact Hg].
  destruct o as [|aw]; [now elim Hno|].
  destruct Ho as (n & ok & random & _ & Hn & _).
  apply nth_error_In, Hown in Hn as (_ & _ & Hn). congruence.
Qed.

Lemma voucher_kept_exec id v ls2 : forall ls1 c1 c2,
  reaches ls1 c1 -> ids_fresh (ls1 ++ ls2) ->
  exec c1 ls2 = Some c2 ->
  Obj.get id (vouchers (st c1)) = Some v ->
  Obj.get id (vouchers (st c2)) = Some v.
Proof.
  induction ls2 as [|l ls2 IH]; intros ls1 c1 c2 Hr Hf He Hg; simpl in He.
  - now injection He as <-.
  - destruct (step c1 l) as [c|] eqn:Hs; [|discriminate].
    change (l :: ls2) with ([l] ++ ls2) in Hf. rewrite app_assoc in Hf.
    apply (IH (ls1 ++ [l]) c c2); auto.
    + econstructor; eauto.
    + apply (voucher_kept_step ls1 c1 l c id v); auto.
      apply (served_reaches ls1 c1 Hr).
      apply ids_fresh_prefix in Hf. now apply ids_fresh_prefix in Hf.
Qed.

(** X17.  A stored voucher stays.  Provided the identifier generator never
    repeats itself, a voucher once in the store is never removed nor
    replaced, whatever happens later, and both polling routes keep
    returning it. *)
Theorem stored_voucher_persists ls c ls2 c2 id v i :
  exec start ls = Some c ->
  exec c ls2 = Some c2 ->
  ids_fresh (ls ++ ls2) ->
  Obj.get id (vouchers (st c)) = Some v ->
  Obj.get id (vouchers (st c2)) = Some v /\
  run (voucher_status id) i (st c2) = (st c2, Done (Ready (OwnVoucher v))) /\
  run (voucher_all id) i (st c2) = (st c2, Done (Ready (OwnVoucher v))).
Proof.
  intros He He2 Hf Hg. apply exec_reaches in He.
  assert (H2 : Obj.get id (vouchers (st c2)) = Some v)
    by (eapply voucher_kept_exec; eauto).
  split; [exact H2 | now apply poll_own].
Qed.

Lemma voucher_requires_confirmation_witness :
  consumed_in (one_intake ++ SmsIncoming sms_1000 :: issuance_succeeds 0) S1 /\
  Obj.get S1
    (registry (after (one_intake ++ SmsIncoming sms_1000 :: issuance_succeeds 0)))
    = None.
Proof.
  apply (voucher_requires_confirmation
           (one_intake ++ SmsIncoming sms_1000 :: issuance_succeeds 0)
           (after (one_intake ++ SmsIncoming sms_1000 :: issuance_succeeds 0))
           S1 (Voucher "SD-4fzyo" "123456")); vm_compute; reflexivity.
Defined.

Lemma pending_session_polls_not_ready_witness :
  run (voucher_status S1) no_inputs (st (after one_intake))
    = (st (after one_intake), Done NotReady) /\
  run (voucher_all S1) no_inputs (st (after one_intake))
    = (st (after one_intake), Done NotReady).
Proof.
  apply (pending_session_polls_not_ready one_intake (after one_intake) S1
           session_1); vm_compute; reflexivity.
Defined.

Lemma stored_voucher_persists_witness :
  let ls := one_intake ++ SmsIncoming sms_1000 :: issuance_succeeds 0 in
  let c2 := after (ls ++ [SweeperTick 500000; MikrotikError]) in
  Obj.get S1 (vouchers (st c2)) = Some (Voucher "SD-4fzyo" "123456") /\
  run (voucher_status S1) no_inputs (st c2)
    = (st c2, Done (Ready (OwnVoucher (Voucher "SD-4fzyo" "123456")))) /\
  run (voucher_all S1) no_inputs (st c2)
    = (st c2, Done (Ready (OwnVoucher (Voucher "SD-4fzyo" "123456")))).
Proof.
  apply (stored_voucher_persists
           (one_intake ++ SmsIncoming sms_1000 :: issuance_succeeds 0)
           (after (one_intake ++ SmsIncoming sms_1000 :: issuance_succeeds 0))
           [SweeperTick 500000; MikrotikError]); vm_compute; reflexivity.
Defined.

Local Open Scope string_scope.
Local Open Scope Z_scope.
Local Open Scope prog_scope.
Local Open Scope list_scope.

(** ** The voucher that is stored *)

(** X18.  The voucher handed to the subscriber is the user created on the
    device: in every behaviour of the [try] block of the matcher, the
    only change that the task makes to the voucher store is to put, under
    the session identifier, the user name and the password that it wrote
    to the device with the profile of the offer, in a command that the
    device accepted. *)
Theorem stored_voucher_was_written id prof s :
  outcomes (fun h _ _ => stores_what_was_written id prof h)
           (issue id prof) s [].
Proof.
  unfold issue, generateVoucher, ensureMikrotik, connectMikrotik,
    write_user_add, safeDisconnect.
  exec_outcomes.
  all: unfold stores_what_was_written;
       cbn -[Obj.set Obj.delete Obj.update JsString.substring
             JsString.slice_last String.append].
  all: repeat (apply Forall_cons;
               [ first [ left; exact I
                       | left; reflexivity
                       | right; do 3 eexists; cbn zeta;
                         split; [reflexivity|];
                         split; [reflexivity|];
                         split; [repeat constructor | reflexivity] ]
               | ]).
  all: apply Forall_nil.
Qed.

Local Open Scope string_scope.
Local Open Scope Z_scope.
Local Open Scope prog_scope.
Local Open Scope list_scope.

(** ** Polling with the name of an inherited member *)

(** X19.  The voucher store is a plain object, and the polling routes test
    [vouchers[sessionId]] for truthiness: polled with the name of a member
    of [Object.prototype], they answer that a voucher is ready although
    the store, whose keys are session identifiers, holds none under that
    name. *)
Theorem inherited_names_poll_ready ls c k i :
  exec start ls = Some c ->
  ids_fresh ls ->
  In k inherited_keys ->
  Obj.get k (vouchers (st c)) = None /\
  run (voucher_status k) i (st c) = (st c, Done (Ready (InheritedMember k))) /\
  run (voucher_all k) i (st c) = (st c, Done (Ready (InheritedMember k))).
Proof.
  intros He Hf Hk. apply exec_reaches in He.
  assert (Hex : existsb (String.eqb k) inherited_keys = true)
    by now apply existsb_eqb_in.
  assert (Hn : Obj.get k (vouchers (st c)) = None).
  { destruct (Obj.get k (vouchers (st c))) as [v|] eqn:Ev; [|reflexivity].
    destruct (served_reaches _ _ He Hf) as (owners & _ & _ & _ & Hvs).
    apply get_in_keys in Ev. apply Hvs in Ev as [Hc _].
    apply consumed_in_ids, (uuids_reaches _ _ He), uuid_not_inherited in Hc.
    congruence. }
  split; [exact Hn|].
  unfold voucher_status, voucher_all, voucher_lookup. cbn [bind run].
  now rewrite Hn, Hex.
Qed.

Lemma inherited_names_poll_ready_witness :
  Obj.get "constructor" (vouchers (st (after one_intake))) = None /\
  run (voucher_status "constructor") no_inputs (st (after one_intake))
    = (st (after one_intake), Done (Ready (InheritedMember "constructor"))) /\
  run (voucher_all "constructor") no_inputs (st (after one_intake))
    = (st (after one_intake), Done (Ready (InheritedMember "constructor"))).
Proof.
  apply (inherited_names_poll_ready one_intake (after one_intake));
    try (vm_compute; reflexivity).
  left. reflexivity.
Defined.

(** ** What one confirmation changes *)

(** X20.  In its own turn a confirmation request changes at most one session:
    either it is matched with no session and the registry is as before,
    or it is matched with one, which goes from PENDING to CONFIRMED while
    every other session stays as it was.  It stores no voucher in that
    turn. *)
Theorem confirmation_marks_one_session ls c body c' :
  exec start ls = Some c ->
  step c (SmsIncoming body) = Some c' ->
  vouchers (st c') = vouchers (st c) /\
  ((registry c' = registry c /\
    forall id, ~ consumes c (SmsIncoming body) id) \/
   exists id,
     consumes c (SmsIncoming body) id /\
     registry c' = Obj.update id (with_status CONFIRMED) (registry c) /\
     forall id', id' <> id ->
       Obj.get id' (registry c') = Obj.get id' (registry c)).
Proof.
  intros He Hs. apply exec_reaches in He.
  assert (Hnone : forall a ph,
            confirmation body = Some (a, ph) ->
            find_session a ph (registry c) = None ->
            forall id, ~ consumes c (SmsIncoming body) id).
  { intros a ph Hc Hf id (b & a' & ph' & [= <-] & Hc' & Hf' & _).
    congruence. }
  cbn [step] in Hs. injection Hs as <-. unfold spawn.
  rewrite sms_incoming_run. unfold registry in *.
  destruct (confirmation body) as [[a ph]|] eqn:Hc.
  2:{ destruct (message_not_string body); cbn [st]; (split; [reflexivity|]);
        left; (split; [reflexivity|]);
        intros id (b & a' & ph' & [= <-] & Hc' & _); congruence. }
  destruct (find_session a ph (pendingPayments (st c))) as [id|] eqn:Hf.
  2:{ cbn [st]. split; [reflexivity|]. left. split; [reflexivity|]. eauto. }
  destruct (find_session_get _ _ _ _ Hf) as (p & Hg & Hm).
  assert (Hne : id <> "").
  { eapply keys_nonempty; eauto. eapply get_in_keys; eauto. }
  destruct (String.eqb_spec id ""); [contradiction|]. rewrite Hg.
  assert (Hcons : consumes c (SmsIncoming body) id).
  { exists body, a, ph. auto. }
  assert (Hother : forall id', id' <> id ->
            Obj.get id' (Obj.update id (with_status CONFIRMED)
                                    (pendingPayments (st c)))
            = Obj.get id' (pendingPayments (st c))).
  { intros id' Hd. rewrite get_update.
    now destruct (String.eqb_spec id' id). }
  destruct (profileMap (offer p)) as [prof|].
  - pose proof (guar_run _ _ _ no_inputs _ _
                  (issue_stores id prof (confirm id (st c)))) as Hr.
    destruct (run _ no_inputs (confirm id (st c))) as [s' [r|er|aw k]];
      cbn [st]; [| |destruct Hr as [Hr _]];
      destruct Hr as ((_ & _ & Hreg) & Hv & _);
      rewrite (Hreg eq_refl);
      (split; [destruct Hv as [Hv|(i0 & v0 & _ & Hno & _)];
               [exact Hv | now elim Hno]|]);
      right; exists id; auto.
  - cbn [st]. split; [reflexivity|]. right. exists id. auto.
Qed.

Lemma confirmation_marks_one_session_witness :
  vouchers (st (after (two_intakes ++ [SmsIncoming sms_1000])))
    = vouchers (st (after two_intakes)) /\
  ((registry (after (two_intakes ++ [SmsIncoming sms_1000]))
      = registry (after two_intakes) /\
    forall id, ~ consumes (after two_intakes) (SmsIncoming sms_1000) id) \/
   exists id,
     consumes (after two_intakes) (SmsIncoming sms_1000) id /\
     registry (after (two_intakes ++ [SmsIncoming sms_1000]))
       = Obj.update id (with_status CONFIRMED) (registry (after two_intakes)) /\
     forall id', id' <> id ->
       Obj.get id' (registry (after (two_intakes ++ [SmsIncoming sms_1000])))
         = Obj.get id' (registry (after two_intakes))).
Proof.
  apply (confirmation_marks_one_session two_intakes (after two_intakes)
           sms_1000); vm_compute; reflexivity.
Defined.

Local Open Scope list_scope.
Local Open Scope string_scope.
Local Open Scope Z_scope.

(** ** The variant [server.js] *)

Lemma plus_digit_shape g :
  Regex.matches (Regex.plus Regex.digit) g ->
  g <> "" /\ JsString.forallb JsString.is_digit g = true.
Proof.
  intros M. split.
  - unfold Regex.plus in M.
    inversion M as [| | | | |? ? ? Hstop|? ? ? s1 s2 _ M1 _|]; subst.
    + destruct Hstop; discriminate.
    + inversion M1; subst. discriminate.
  - apply RegexFacts.matches_alphabet in M. exact M.
Qed.

(** X21.  Whenever the plain amount pattern matches, the captured text is a
    non-empty run of digits, followed in the message by at most one
    white-space character and the currency marker 'Ar' in either case,
    and the amount is the number that those digits write: a grouping
    separator is never part of it. *)
Theorem server_amount_is_last_group m g :
  Regex.match1 ServerJs.amount_re m = Some g ->
  (exists pre ws a r post,
      m = pre ++ g ++ ws ++ String a (String r post) /\
      (ws = "" \/ exists c, ws = String c "" /\ JsString.is_space c = true) /\
      JsString.eq_ci "A" a = true /\ JsString.eq_ci "r" r = true) /\
  g <> "" /\
  JsString.forallb JsString.is_digit g = true /\
  ServerJs.amount_of m = Some (JsNumber.of_Z (JsNumber.value_in 10 g 0)).
Proof.
  intros Hm. pose proof Hm as Hs.
  apply RegexFacts.search_group_sound in Hs
    as (pre & w & rest & -> & Mg & Mw); [|reflexivity|reflexivity].
  destruct (currency_marker_shape _ Mw) as (ws & a & r & -> & Hws & Ha & Hr).
  destruct (plus_digit_shape _ Mg) as [Hne Hd].
  split.
  { exists pre, ws, a, r, rest. split; [|auto].
    rewrite RegexFacts.append_assoc. reflexivity. }
  split; [exact Hne|]. split; [exact Hd|].
  unfold ServerJs.amount_of. rewrite Hm. cbn [option_map].
  now rewrite number_of_digits.
Qed.

Lemma server_amount_is_last_group_witness :
  (exists pre ws a r post,
      "Recu 1,000 Ar" = pre ++ "000" ++ ws ++ String a (String r post) /\
      (ws = "" \/ exists c, ws = String c "" /\ JsString.is_space c = true) /\
      JsString.eq_ci "A" a = true /\ JsString.eq_ci "r" r = true) /\
  "000" <> "" /\
  JsString.forallb JsString.is_digit "000" = true /\
  ServerJs.amount_of "Recu 1,000 Ar"
    = Some (JsNumber.of_Z (JsNumber.value_in 10 "000" 0)).
Proof.
  apply (server_amount_is_last_group "Recu 1,000 Ar" "000").
  vm_compute. reflexivity.
Defined.

Ltac exec_server :=
  repeat (cbn -[JsString.substring JsString.slice_last String.append];
          intros;
          match goal with
          | |- context [if ?b then _ else _] => destruct b eqn:?
          | |- context [match ServerJs.mikrotik ?s with _ => _ end] =>
              destruct (ServerJs.mikrotik s) eqn:?
          end);
  cbn -[JsString.substring JsString.slice_last String.append]; intros.


Ltac exec_variant :=
  repeat (cbn -[JsString.substring JsString.slice_last String.append];
          intros;
          match goal with
          | |- context [ServerJs.mikrotikReady ?x] =>
              is_var x; destruct (ServerJs.mikrotikReady x) eqn:?
          | |- context [ServerJs.reconnecting ?x] =>
              is_var x; destruct (ServerJs.reconnecting x) eqn:?
          | |- context [ServerJs.mikrotik ?x] =>
              is_var x; destruct (ServerJs.mikrotik x) eqn:?
          | |- context [if ?b then _ else _] => is_var b; destruct b
          end);
  cbn -[JsString.substring JsString.slice_last String.append]; intros.

Ltac use_eqns :=
  repeat match goal with
         | H : ?l = _ |- context [?l] => progress rewrite H
         end.

Ltac norm_variant :=
  cbn -[JsString.substring JsString.slice_last String.append];
  use_eqns;
  cbn -[JsString.substring JsString.slice_last String.append].

(* the events up to the first settled async call, and those after it *)
Ltac upto_settled h k :=
  lazymatch h with
  | ServerJs.Resumed OnSettled _ _ :: ?r => k (@nil ServerJs.event) r
  | ?e :: ?r => upto_settled r ltac:(fun pre rest => k (e :: pre) rest)
  end.

Ltac connect_settled h k :=
  lazymatch h with
  | ServerJs.Resumed OnConnect ?ok ?s :: _ => k ok s
  | _ :: ?r => connect_settled r k
  end.

Ltac solve_variant :=
  lazymatch goal with
  | |- ServerJs.issuer_policy _ _ ?h _ =>
      unfold ServerJs.issuer_policy, ServerJs.ready_client; norm_variant;
      lazymatch h with
      | [] => split; reflexivity
      | [_; _; _; _] =>
          eexists _, _, _, _, _; split; [reflexivity|]; split; reflexivity
      | _ :: _ :: _ :: _ :: _ :: ?r =>
          upto_settled r ltac:(fun hc rest =>
            let tl := eval cbv [removelast] in (removelast rest) in
            eexists _, _, _, _, _; split; [reflexivity|];
            cbn -[JsString.substring JsString.slice_last String.append];
            exists hc; eexists _, _, _, _; exists tl;
            split;
            [ unfold ServerJs.connect_events; norm_variant;
              first [ reflexivity
                    | connect_settled hc ltac:(fun ok s3 =>
                        exists ok, s3; norm_variant; reflexivity) ]
            | split; [reflexivity|];
              unfold ServerJs.ready_client; norm_variant;
              lazymatch tl with
              | [] => split; reflexivity
              | ServerJs.Drawn ?r3 :: ServerJs.Drawn ?r4 :: _
                  :: ServerJs.Resumed OnWrite ?ok2 ?sC :: _ =>
                  exists r3, r4, ok2, sC; split; reflexivity
              end ])
      end
  end.

Lemma server_generateVoucher_behaviours prof s :
  ServerJs.behaviours (fun h _ r => ServerJs.issuer_policy prof s h r)
                      (ServerJs.generateVoucher prof true) s [].
Proof.
  unfold ServerJs.generateVoucher, ServerJs.generateVoucher_body,
    ServerJs.connectMikrotik, ServerJs.on_client.
  exec_variant.
  all: try congruence.
  all: repeat match goal with
              | H : Some ?a = Some ?b |- _ =>
                  injection H as H; first [subst a | subst b]
              end.
  all: solve [solve_variant].
Qed.

Lemma server_retry_by_draws prof s :
  ServerJs.outcomes (fun h _ r => ServerJs.retry_policy prof h r)
                    (ServerJs.generateVoucher prof true) s [].
Proof.
  unfold ServerJs.generateVoucher, ServerJs.generateVoucher_body,
    ServerJs.connectMikrotik, ServerJs.on_client, ServerJs.retry_policy.
  exec_server.
  all: try (split; [reflexivity|]);
       first [ reflexivity
             | left; reflexivity
             | right; reflexivity
             | discriminate
             | idtac ].
Qed.

(** X23.  The retry of the variant draws again.  Every behaviour of
    [generateVoucher(profileName, true)] that starts in state [s], event
    by event: with no client or a client not marked ready in [s] it
    throws 'MikroTik non disponible' at once, without a draw or a call;
    otherwise it draws twice and writes one create-user command on the
    current client, and a fulfilled write returns the credentials made of
    the two draws.  After a rejected write it marks the client not ready
    and awaits [connectMikrotik]; if the state in which it is resumed has
    a client marked ready, it draws twice more and writes one command on
    that client with the credentials made of the new draws, which are the
    voucher returned when the write is fulfilled, and whose rejection is
    thrown; otherwise it throws 'MikroTik non disponible'.  Read by the
    number of draws: none, two or four, with as many commands as pairs of
    draws; there is never a third command. *)
Theorem server_retry_draws_again prof s :
  ServerJs.behaviours (fun h _ r => ServerJs.issuer_policy prof s h r)
                      (ServerJs.generateVoucher prof true) s [] /\
  ServerJs.outcomes (fun h _ r => ServerJs.retry_policy prof h r)
                    (ServerJs.generateVoucher prof true) s [].
Proof.
  split; [apply server_generateVoucher_behaviours
         | apply server_retry_by_draws].
Qed.

Local Open Scope string_scope.
Local Open Scope Z_scope.
Local Open Scope prog_scope.
Local Open Scope list_scope.

(** ** Successive sweeper ticks *)

Lemma filter_filter_weaker {A} (f g : A -> bool) l :
  (forall x, g x = true -> f x = true) ->
  filter g (filter f l) = filter g l.
Proof.
  intros H. induction l as [|x l IH]; simpl; auto.
  destruct (f x) eqn:Ef; simpl.
  - now rewrite IH.
  - destruct (g x) eqn:Eg; auto. apply H in Eg. congruence.
Qed.

(** X24.  Sweeper ticks compose: a tick followed by a later tick leaves
    the registry that the later tick alone would have left, so a tick
    that is late or missing changes nothing in the long run; and a second
    tick at the same time removes nothing. *)
Theorem sweep_composes t1 t2 reg :
  NoDup (Obj.keys reg) ->
  t1 <= t2 ->
  sweep t2 (sweep t1 reg) = sweep t2 reg /\
  sweep t1 (sweep t1 reg) = sweep t1 reg.
Proof.
  intros ND Hle.
  assert (ND1 : NoDup (Obj.keys (sweep t1 reg))) by now apply nodup_sweep.
  rewrite !(sweep_filter _ (sweep t1 reg)) by assumption.
  rewrite !(sweep_filter _ reg) by assumption.
  split; apply filter_filter_weaker; auto.
  intros [k p]. unfold survives. cbn [snd].
  destruct (Z.gtb_spec (t2 - createdAt p) expiry_window);
    destruct (Z.gtb_spec (t1 - createdAt p) expiry_window);
    cbn [negb]; auto; lia.
Qed.

Lemma sweep_composes_witness :
  sweep 500000 (sweep 421500 [(S1, session_1); (S2, session_2)])
    = sweep 500000 [(S1, session_1); (S2, session_2)] /\
  sweep 421500 (sweep 421500 [(S1, session_1); (S2, session_2)])
    = sweep 421500 [(S1, session_1); (S2, session_2)].
Proof.
  apply (sweep_composes 421500 500000 [(S1, session_1); (S2, session_2)]).
  - repeat constructor; cbn; intuition discriminate.
  - lia.
Defined.

Local Open Scope list_scope.
Local Open Scope string_scope.
Local Open Scope Z_scope.

(** ** Amounts that the pattern accepts *)

Lemma letter_A_class x :
  JsString.eq_ci "A" x = true ->
  JsString.is_space x = false /\ JsString.is_digit x = false /\
  is_grouping x = false.
Proof.
  destruct x as [b0 b1 b2 b3 b4 b5 b6 b7].
  destruct b0, b1, b2, b3, b4, b5, b6, b7; vm_compute; intros H;
    try discriminate H; auto.
Qed.

Lemma space_not_digit w :
  JsString.is_space w = true -> JsString.is_digit w = false.
Proof.
  intros H. destruct (JsString.is_digit w) eqn:E; [|reflexivity].
  rewrite (digit_not_space w E) in H. discriminate.
Qed.

Lemma grouping_not_digit ch :
  is_grouping ch = true -> JsString.is_digit ch = false.
Proof.
  intros H. destruct (JsString.is_digit ch) eqn:E; [|reflexivity].
  apply grouping_is_separator in H.
  rewrite (digit_not_separator ch E) in H. discriminate.
Qed.

Lemma digit_not_grouping ch :
  JsString.is_digit ch = true -> is_grouping ch = false.
Proof.
  intros H. destruct (is_grouping ch) eqn:E; [|reflexivity].
  rewrite (grouping_not_digit ch E) in H. discriminate.
Qed.

Lemma written_marker_parts ws x y :
  written_marker ws x y = true ->
  (ws = "" \/ exists w, ws = String w "" /\ JsString.is_space w = true) /\
  JsString.eq_ci "A" x = true /\ JsString.eq_ci "r" y = true.
Proof.
  unfold written_marker. intros H.
  apply andb_true_iff in H as [H Hy]. apply andb_true_iff in H as [Hws Hx].
  split; [|auto].
  destruct ws as [|w [|? ?]]; [now left | right; eauto | discriminate].
Qed.

(** The currency marker is read where it is written. *)
Lemma marker_run {A} ws x y post c (k : @Regex.kont A) r :
  written_marker ws x y = true ->
  k post c = Some r ->
  Regex.run currency_marker (ws ++ String x (String y post)) c k = Some r.
Proof.
  intros Hm Hk.
  destruct (written_marker_parts _ _ _ Hm) as (Hws & Hx & Hy).
  unfold currency_marker. rewrite run_seq. unfold Regex.opt, Regex.space.
  apply run_rep_chr_greedy.
  - change (String x (String y post)) with (String x (String y "") ++ post).
    rewrite word_i_run; [exact Hk|].
    cbn [eq_ci_string]. now rewrite Hx, Hy.
  - destruct Hws as [->|(w & -> & Hw)]; cbn; [reflexivity | now rewrite Hw].
  - destruct Hws as [->|(w & -> & Hw)]; simpl; lia.
  - right. intros ch r' [= <- _]. now apply letter_A_class.
Qed.

(** No group starts where the currency marker is written. *)
Lemma group_fails_on_marker {A} ws x y post c (d : @Regex.kont A) :
  written_marker ws x y = true ->
  Regex.run (Regex.Seq (Regex.Chr is_grouping) (Regex.times Regex.digit 3 3))
            (ws ++ String x (String y post)) c d = None.
Proof.
  intros Hm.
  destruct (written_marker_parts _ _ _ Hm) as (Hws & Hx & Hy).
  destruct (letter_A_class x Hx) as (_ & Hd & Hg).
  destruct Hws as [->|(w & -> & Hw)]; cbn [append Regex.run].
  - now rewrite Hg.
  - destruct (is_grouping w); [|reflexivity].
    unfold Regex.times, Regex.digit. cbn. now rewrite Hd.
Qed.

Lemma grouped_length groups :
  (List.length groups <= String.length (grouped groups))%nat.
Proof.
  induction groups as [|[sep b] gs IH]; simpl; [lia|].
  rewrite RegexFacts.length_append. lia.
Qed.

(** The groups of a written amount are all taken by the starred group. *)
Lemma star_groups_fuel {A} groups tail c (K : @Regex.kont A) r :
  List.forallb is_group groups = true ->
  K tail c = Some r ->
  (forall c' (d : @Regex.kont A),
      Regex.run (Regex.Seq (Regex.Chr is_grouping)
                           (Regex.times Regex.digit 3 3)) tail c' d = None) ->
  forall fuel, (List.length groups < fuel)%nat ->
    Regex.repeat
      (Regex.run (Regex.Seq (Regex.Chr is_grouping)
                            (Regex.times Regex.digit 3 3)))
      fuel 0 None (grouped groups ++ tail) c K = Some r.
Proof.
  intros Hg Hk Hfail.
  induction groups as [|[sep b] gs IH]; intros fuel Hfuel;
    (destruct fuel as [|fuel]; [simpl in Hfuel; lia|]).
  - cbn [grouped append Regex.repeat Regex.hi_is_zero Nat.ltb Nat.leb].
    rewrite Hfail. exact Hk.
  - cbn [List.forallb] in Hg. apply andb_true_iff in Hg as [Hg1 Hgs].
    unfold is_group in Hg1. cbn [fst snd] in Hg1.
    apply andb_true_iff in Hg1 as [Hg1 Hlen].
    apply andb_true_iff in Hg1 as [Hsep Hb].
    apply Nat.eqb_eq in Hlen.
    cbn [grouped append]. rewrite RegexFacts.append_assoc.
    cbn [Regex.repeat Regex.hi_is_zero Nat.ltb Nat.leb].
    match goal with
    | |- match ?m with Some _ => _ | None => _ end = _ =>
        assert (E : m = Some r); [|now rewrite E]
    end.
    rewrite run_seq. cbn [Regex.run]. rewrite Hsep.
    unfold Regex.times, Regex.digit.
    apply run_rep_chr_greedy; [|exact Hb|lia|left; exact Hlen].
    replace (Nat.eqb (String.length (grouped gs ++ tail))
               (String.length (String sep (b ++ grouped gs ++ tail))))
      with false.
    + cbn [Nat.eqb andb Nat.pred Regex.hi_pred]. apply IH; auto.
      simpl in Hfuel. lia.
    + symmetry. apply Nat.eqb_neq. cbn [String.length].
      rewrite (RegexFacts.length_append b). lia.
Qed.

Lemma star_groups {A} groups tail c (K : @Regex.kont A) r :
  List.forallb is_group groups = true ->
  K tail c = Some r ->
  (forall c' (d : @Regex.kont A),
      Regex.run (Regex.Seq (Regex.Chr is_grouping)
                           (Regex.times Regex.digit 3 3)) tail c' d = None) ->
  Regex.run
    (Regex.star (Regex.Seq (Regex.Chr is_grouping)
                           (Regex.times Regex.digit 3 3)))
    (grouped groups ++ tail) c K = Some r.
Proof.
  intros Hg Hk Hfail. unfold Regex.star. cbn [Regex.run].
  apply star_groups_fuel; auto.
  rewrite RegexFacts.length_append. pose proof (grouped_length groups). lia.
Qed.

(** A bounded repetition of a class fails on a longer run of the class
    when what follows it cannot start with a character of the class. *)
Lemma repeat_chr_none {A} p c (k : @Regex.kont A) :
  (forall ch r, p ch = true -> k (String ch r) c = None) ->
  forall hi fuel lo d rest,
    JsString.forallb p d = true ->
    (hi < String.length d)%nat ->
    Regex.repeat (Regex.run (Regex.Chr p)) fuel lo (Some hi) (d ++ rest) c k
      = None.
Proof.
  intros Hk. induction hi as [|hi IH]; intros fuel lo d rest Hp Hl;
    (destruct d as [|ch d]; [simpl in Hl; lia|]);
    cbn [JsString.forallb] in Hp; apply andb_true_iff in Hp as [Hch Hp];
    cbn [String.length] in Hl.
  - destruct fuel; cbn [Regex.repeat Regex.hi_is_zero append]; now apply Hk.
  - destruct fuel; cbn [Regex.repeat Regex.hi_is_zero append];
      [reflexivity|].
    cbn [Regex.run]. rewrite Hch. cbn [Regex.hi_pred Nat.pred].
    assert (Hnext := IH fuel (Nat.pred lo) d rest Hp).
    cbn [Regex.run] in Hnext. rewrite Hnext by lia.
    rewrite (Hk ch (d ++ rest) Hch).
    destruct (Nat.eqb lo 0 && _), (Nat.ltb 0 lo); reflexivity.
Qed.

(** An unbounded repetition of a class takes a whole run of the class. *)
Lemma repeat_chr_all {A} p rest c (k : @Regex.kont A) x :
  k rest c = Some x ->
  (forall ch r, rest = String ch r -> p ch = false) ->
  forall d fuel lo,
    JsString.forallb p d = true ->
    (lo <= String.length d)%nat ->
    (String.length d < fuel)%nat ->
    Regex.repeat (Regex.run (Regex.Chr p)) fuel lo None (d ++ rest) c k
      = Some x.
Proof.
  intros Hk Hend d.
  induction d as [|ch d IH]; intros fuel lo Hp Hlen Hfuel;
    cbn [String.length] in *.
  - destruct fuel as [|fuel]; [lia|].
    cbn [Regex.repeat append Regex.hi_is_zero].
    replace (Nat.ltb 0 lo) with false by (symmetry; apply Nat.ltb_ge; lia).
    cbn [Regex.run].
    destruct rest as [|ch r]; [exact Hk|].
    rewrite (Hend ch r eq_refl). exact Hk.
  - cbn [JsString.forallb] in Hp. apply andb_true_iff in Hp as [Hch Hp].
    destruct fuel as [|fuel]; [lia|].
    cbn [Regex.repeat append Regex.hi_is_zero Regex.run].
    rewrite Hch.
    replace (Nat.eqb (String.length (d ++ rest))
                     (String.length (String ch (d ++ rest)))) with false
      by (symmetry; apply Nat.eqb_neq; cbn [String.length]; lia).
    rewrite andb_false_r. cbn [Regex.hi_pred].
    assert (Hnext := IH fuel (Nat.pred lo) Hp).
    cbn [Regex.run] in Hnext. rewrite Hnext; try lia.
    now destruct (Nat.ltb 0 lo).
Qed.

Lemma eq_ci_sym a b : JsString.eq_ci a b = JsString.eq_ci b a.
Proof.
  unfold JsString.eq_ci.
  destruct (Ascii.eqb_spec (JsString.upper a) (JsString.upper b)) as [E|E];
    destruct (Ascii.eqb_spec (JsString.upper b) (JsString.upper a));
    congruence.
Qed.

(** Neither the currency marker nor a group starts on a digit. *)
Lemma marker_fails_on_digit {A} ch r c (k : @Regex.kont A) :
  JsString.is_digit ch = true ->
  Regex.run currency_marker (String ch r) c k = None.
Proof.
  intros Hd. unfold currency_marker, Regex.opt, Regex.space.
  cbn. rewrite (digit_not_space ch Hd).
  rewrite eq_ci_sym, (digit_not_letter ch "A" 65 Hd); auto. lia.
Qed.

Lemma star_fails_on_digit {A} ch r c (K : @Regex.kont A) :
  JsString.is_digit ch = true ->
  K (String ch r) c = None ->
  Regex.run
    (Regex.star (Regex.Seq (Regex.Chr is_grouping)
                           (Regex.times Regex.digit 3 3)))
    (String ch r) c K = None.
Proof.
  intros Hd HK. unfold Regex.star.
  cbn. now rewrite (digit_not_grouping ch Hd).
Qed.

Lemma written_amount_parts a groups :
  written_amount a groups = true ->
  a <> "" /\ JsString.forallb JsString.is_digit a = true /\
  List.forallb is_group groups = true /\
  (groups = [] \/ (String.length a <= 3)%nat).
Proof.
  unfold written_amount. intros H.
  apply andb_true_iff in H as [H H4]. apply andb_true_iff in H as [H H3].
  apply andb_true_iff in H as [H1 H2].
  repeat split; auto.
  - intros ->. discriminate.
  - destruct groups; [now left | right; now apply Nat.leb_le].
Qed.

Lemma length_nonempty (a : string) : a <> "" -> (1 <= String.length a)%nat.
Proof. destruct a; [contradiction | simpl; lia]. Qed.

Lemma group_starts_apart groups ws x y post ch r :
  List.forallb is_group groups = true ->
  written_marker ws x y = true ->
  grouped groups ++ ws ++ String x (String y post) = String ch r ->
  JsString.is_digit ch = false.
Proof.
  intros Hg Hm E.
  destruct (written_marker_parts _ _ _ Hm) as (Hws & Hx & _).
  destruct groups as [|[sep b] gs].
  - cbn [grouped append] in E.
    destruct Hws as [->|(w & -> & Hw)]; cbn [append] in E;
      injection E as <- _.
    + now apply letter_A_class.
    + now apply space_not_digit.
  - cbn [grouped append] in E. injection E as <- _.
    cbn [List.forallb] in Hg. apply andb_true_iff in Hg as [Hg _].
    unfold is_group in Hg. cbn [fst] in Hg.
    apply andb_true_iff in Hg as [Hg _]. apply andb_true_iff in Hg as [Hg _].
    now apply grouping_not_digit.
Qed.

(** The pattern, applied where a written amount starts, captures the
    whole of it. *)
Lemma amount_run_complete a groups ws x y post :
  written_amount a groups = true ->
  written_marker ws x y = true ->
  Regex.run amount_re
            (amount_text a groups ++ ws ++ String x (String y post))
            None (fun _ c' => Some c')
    = Some (Some (amount_text a groups)).
Proof.
  intros Ha Hm.
  destruct (written_amount_parts _ _ Ha) as (Hne & Hd & Hg & Hshort).
  pose proof (length_nonempty a Hne) as Hlen.
  set (tail := ws ++ String x (String y post)).
  unfold amount_re. rewrite run_seq.
  change (Regex.run (Regex.Group ?r) ?s ?c ?k) with
    (Regex.run r s c (fun s' _ =>
       k s' (Some (JsString.take (String.length s - String.length s') s)))).
  cbv beta.
  set (K := fun (s' : string) (_ : Regex.captures) =>
              Regex.run currency_marker s'
                (Some (JsString.take
                         (String.length (amount_text a groups ++ tail)
                          - String.length s')
                         (amount_text a groups ++ tail)))
                (fun (_ : string) (c' : Regex.captures) => Some c')).
  assert (HK : forall c, K tail c = Some (Some (amount_text a groups))).
  { intros c. unfold K, tail. apply marker_run; [exact Hm|].
    f_equal. f_equal. apply RegexFacts.take_append. }
  unfold amount_group. cbn [Regex.run].
  destruct (Nat.leb_spec (String.length a) 3) as [Hle|Hgt].
  - (* the first alternative takes the digits and the groups *)
    match goal with
    | |- match ?m with Some _ => _ | None => _ end = _ =>
        assert (E : m = Some (Some (amount_text a groups))); [|now rewrite E]
    end.
    unfold amount_text. rewrite RegexFacts.append_assoc.
    unfold Regex.times, Regex.digit.
    apply (run_rep_chr_greedy JsString.is_digit (grouped groups ++ tail));
      [|exact Hd|lia|].
    + apply star_groups; auto.
      intros c' d. apply group_fails_on_marker. exact Hm.
    + right. intros ch r E.
      eapply group_starts_apart; eauto.
  - (* more than three digits: the second alternative takes them all *)
    destruct Hshort as [->|Hle]; [|lia].
    unfold amount_text in *. cbn [grouped] in *.
    rewrite RegexFacts.append_nil_r in *.
    match goal with
    | |- match ?m with Some _ => _ | None => _ end = _ =>
        assert (E : m = None); [|rewrite E]
    end.
    { unfold Regex.times, Regex.digit.
      apply repeat_chr_none; [|exact Hd|lia].
      intros ch r Hch. apply star_fails_on_digit; [exact Hch|].
      unfold K. now apply marker_fails_on_digit. }
    unfold Regex.plus, Regex.digit.
    apply repeat_chr_all; auto.
    + intros ch r E'.
      apply (group_starts_apart [] ws x y post ch r); auto.
    + rewrite RegexFacts.length_append. lia.
Qed.

(** The pattern matches nowhere before the first digit. *)
Lemma amount_run_none {A} s (k : @Regex.kont A) :
  (forall ch r, s = String ch r -> JsString.is_digit ch = false) ->
  Regex.run amount_re s None k = None.
Proof.
  intros H. unfold amount_re, amount_group, Regex.times, Regex.plus,
              Regex.digit.
  destruct s as [|ch r]; cbn; [reflexivity|].
  now rewrite (H ch r eq_refl).
Qed.

Lemma amount_search_skip pre s :
  JsString.forallb (fun c => negb (JsString.is_digit c)) pre = true ->
  Regex.search amount_re (pre ++ s) = Regex.search amount_re s.
Proof.
  induction pre as [|ch pre IH]; intros H; [reflexivity|].
  cbn [JsString.forallb] in H. apply andb_true_iff in H as [Hch H].
  cbn [append Regex.search]. rewrite amount_run_none; [now apply IH|].
  intros ch' r [= <- _]. now destruct (JsString.is_digit ch).
Qed.

Lemma amount_match_complete pre a groups ws x y post :
  JsString.forallb (fun c => negb (JsString.is_digit c)) pre = true ->
  written_amount a groups = true ->
  written_marker ws x y = true ->
  Regex.match1 amount_re
    (pre ++ amount_text a groups ++ ws ++ String x (String y post))
  = Some (amount_text a groups).
Proof.
  intros Hpre Ha Hm. unfold Regex.match1.
  rewrite amount_search_skip by exact Hpre.
  pose proof (amount_run_complete a groups ws x y post Ha Hm) as Hrun.
  destruct (amount_text a groups ++ ws ++ String x (String y post));
    cbn [Regex.search]; rewrite Hrun; reflexivity.
Qed.

Lemma digits_of_digits groups :
  List.forallb is_group groups = true ->
  JsString.forallb JsString.is_digit (digits_of groups) = true.
Proof.
  induction groups as [|[sep b] gs IH]; intros H; [reflexivity|].
  cbn [List.forallb] in H. apply andb_true_iff in H as [Hg H].
  unfold is_group in Hg. cbn [fst snd] in Hg.
  apply andb_true_iff in Hg as [Hg _]. apply andb_true_iff in Hg as [_ Hb].
  cbn [digits_of]. rewrite forallb_append, Hb. now apply IH.
Qed.

Lemma strip_digits d :
  JsString.forallb JsString.is_digit d = true -> strip_separators d = d.
Proof.
  intros H. apply filter_all. eapply forallb_mono; [|exact H].
  intros c Hc. now rewrite (digit_not_separator c Hc).
Qed.

Lemma strip_grouped groups :
  List.forallb is_group groups = true ->
  strip_separators (grouped groups) = digits_of groups.
Proof.
  induction groups as [|[sep b] gs IH]; intros H; [reflexivity|].
  cbn [List.forallb] in H. apply andb_true_iff in H as [Hg H].
  unfold is_group in Hg. cbn [fst snd] in Hg.
  apply andb_true_iff in Hg as [Hg _]. apply andb_true_iff in Hg as [Hsep Hb].
  cbn [grouped digits_of]. unfold strip_separators in *.
  cbn [JsString.filter]. rewrite (grouping_is_separator sep Hsep).
  cbn [negb]. rewrite filter_append, (IH H).
  f_equal. now apply strip_digits.
Qed.

(** Stripping the separators of a written amount leaves its digits, and
    [Number] of them is the integer they write. *)
Lemma written_amount_number a groups :
  written_amount a groups = true ->
  JsNumber.of_string (strip_separators (amount_text a groups))
    = JsNumber.of_Z (amount_value a groups).
Proof.
  intros Ha.
  destruct (written_amount_parts _ _ Ha) as (Hne & Hd & Hg & _).
  unfold amount_text, amount_value.
  replace (strip_separators (a ++ grouped groups))
    with (a ++ digits_of groups).
  - apply number_of_digits.
    + destruct a; [contradiction | discriminate].
    + rewrite forallb_append, Hd. now apply digits_of_digits.
  - unfold strip_separators. rewrite filter_append.
    fold (strip_separators a). fold (strip_separators (grouped groups)).
    now rewrite strip_digits, strip_grouped.
Qed.

Lemma step_no_match c body a ph c' :
  confirmation body = Some (a, ph) ->
  find_session a ph (registry c) = None ->
  step c (SmsIncoming body) = Some c' -> c' = c.
Proof.
  intros Hc Hf Hs. cbn [step] in Hs. injection Hs as <-.
  unfold spawn, registry in *. rewrite sms_incoming_run, Hc, Hf.
  now destruct c.
Qed.

Lemma written_confirmation sender pre a groups ws x y post q :
  JsString.forallb (fun c => negb (JsString.is_digit c)) pre = true ->
  written_amount a groups = true ->
  written_marker ws x y = true ->
  truthy sender = true -> mvola_test sender = true ->
  Regex.match1 phone_re
    (pre ++ amount_text a groups ++ ws ++ String x (String y post))
    = Some q ->
  confirmation
    (SmsBody sender
       (Str (pre ++ amount_text a groups ++ ws ++ String x (String y post))))
  = Some (JsNumber.of_Z (amount_value a groups), normalizePhone q).
Proof.
  intros Hpre Ha Hm Hs Hv Hq. unfold confirmation.
  cbn [b_message b_sender]. rewrite Hs, Hv.
  rewrite (amount_match_complete pre a groups ws x y post Hpre Ha Hm), Hq.
  rewrite (written_amount_number a groups Ha).
  destruct (pre ++ amount_text a groups ++ ws ++ String x (String y post))
    eqn:E; [|reflexivity].
  apply (f_equal String.length) in E.
  rewrite !RegexFacts.length_append in E. simpl in E. lia.
Qed.

(** C8.  The amount pattern accepts the amounts as they are written and
    the handler looks up the number they write.  In a message made of a
    text without digits, a written amount (one to three digits followed
    by any number of groups of a space or a comma and three digits, or a
    plain run of digits of any length), at most one white-space character
    and the currency marker 'Ar' in either case, the pattern captures
    the written amount, whole, and the amount is the integer that its
    digits write; when the sender is accepted and the message holds a
    phone, the handler searches the registry for that integer and that
    phone: with no matching PENDING session it sends status 200 and
    changes nothing, and otherwise it marks the matched session
    CONFIRMED.  So 'Vous avez recu 1,000 Ar de (0321234567)' gives 1000
    and confirms the session of 1000 Ar of that subscriber.  Conversely,
    whenever the pattern matches, the captured text starts with a digit,
    is made of digits and of the separators space and comma, and is
    followed in the message by at most one white-space character and the
    marker; stripping the separators leaves a non-empty string of
    digits, and the amount is the number those digits write.  When the
    pattern matches nowhere in the message, the handler sends status 200
    and changes nothing. *)
Theorem amount_extraction :
  (confirmation sms_grouped = Some (JsNumber.of_Z 1000, "321234567") /\
   status_of S1 (after (one_intake ++ [SmsIncoming sms_grouped]))
     = Some CONFIRMED) /\
  (forall pre a groups ws x y post,
      JsString.forallb (fun c => negb (JsString.is_digit c)) pre = true ->
      written_amount a groups = true ->
      written_marker ws x y = true ->
      Regex.match1 amount_re
        (pre ++ amount_text a groups ++ ws ++ String x (String y post))
        = Some (amount_text a groups) /\
      JsNumber.of_string (strip_separators (amount_text a groups))
        = JsNumber.of_Z (amount_value a groups) /\
      forall sender q,
        truthy sender = true -> mvola_test sender = true ->
        Regex.match1 phone_re
          (pre ++ amount_text a groups ++ ws ++ String x (String y post))
          = Some q ->
        (forall i s,
            find_session (JsNumber.of_Z (amount_value a groups))
                         (normalizePhone q) (pendingPayments s) = None ->
            run (handler (sms_incoming
                   (SmsBody sender
                      (Str (pre ++ amount_text a groups ++ ws
                                ++ String x (String y post)))))) i s
              = (s, Done (Some (Status 200)))) /\
        (forall c c' id,
            find_session (JsNumber.of_Z (amount_value a groups))
                         (normalizePhone q) (registry c) = Some id ->
            id <> "" ->
            step c (SmsIncoming
                      (SmsBody sender
                         (Str (pre ++ amount_text a groups ++ ws
                                   ++ String x (String y post)))))
              = Some c' ->
            status_of id c' = Some CONFIRMED)) /\
  (forall m g,
      Regex.match1 amount_re m = Some g ->
      (exists pre ws a r post,
          m = pre ++ g ++ ws ++ String a (String r post) /\
          (ws = "" \/
           exists c, ws = String c "" /\ JsString.is_space c = true) /\
          JsString.eq_ci "A" a = true /\ JsString.eq_ci "r" r = true) /\
      (exists c g', g = String c g' /\ JsString.is_digit c = true) /\
      JsString.forallb (fun c => JsString.is_digit c || is_grouping c) g
        = true /\
      strip_separators g <> "" /\
      JsString.forallb JsString.is_digit (strip_separators g) = true /\
      JsNumber.of_string (strip_separators g) =
        JsNumber.of_Z (JsNumber.value_in 10 (strip_separators g) 0)) /\
  (forall body m i s,
      b_message body = Str m ->
      Regex.match1 amount_re m = None ->
      run (handler (sms_incoming body)) i s =
        (s, Done (Some (Status 200)))).
Proof.
  split; [split; vm_compute; reflexivity|]. split; [|split].
  - intros pre a groups ws x y post Hpre Ha Hm.
    split; [now apply amount_match_complete|].
    split; [now apply written_amount_number|].
    intros sender q Hs Hv Hq.
    pose proof (written_confirmation sender pre a groups ws x y post q
                  Hpre Ha Hm Hs Hv Hq) as Hc.
    split.
    + intros i s Hf. now rewrite sms_incoming_run, Hc, Hf.
    + intros c c' id Hf Hne Hstep.
      eapply consumes_step; [|exact Hstep].
      eexists _, _, _. split; [reflexivity|]. split; [exact Hc|]. auto.
  - intros m g Hm.
    apply RegexFacts.search_group_sound in Hm
      as (pre & w & rest & -> & Mg & Mw); [|reflexivity|reflexivity].
    destruct (currency_marker_shape _ Mw) as (ws & a & r & -> & Hws & Ha & Hr).
    destruct (amount_group_shape _ Mg) as [Hfirst Hall].
    destruct (strip_separators_digits _ Hfirst Hall) as [Hne Hdig].
    split.
    { exists pre, ws, a, r, rest. split; [|auto].
      rewrite RegexFacts.append_assoc. reflexivity. }
    repeat split; auto. now apply number_of_digits.
  - intros body m i s Hb Hm. rewrite sms_incoming_run.
    unfold confirmation, message_not_string. rewrite Hb, Hm.
    destruct (truthy (b_sender body) && truthy (Str m)
              && mvola_test (b_sender body)); reflexivity.
Qed.

Lemma amount_extraction_witness :
  (Regex.match1 amount_re "Paiement de 12 500 Ar recu du (0321234567)"
     = Some "12 500" /\
   JsNumber.of_string (strip_separators "12 500") = JsNumber.of_Z 12500 /\
   run (handler (sms_incoming
          (SmsBody (Str "MVola")
             (Str "Paiement de 12 500 Ar recu du (0321234567)"))))
       no_inputs (st (after one_intake))
     = (st (after one_intake), Done (Some (Status 200))) /\
   status_of S1
     (after (one_intake ++
             [SmsIncoming
                (SmsBody (Str "MVola")
                   (Str "Vous avez recu 1,000 Ar de (0321234567)"))]))
     = Some CONFIRMED) /\
  ((exists pre ws a r post,
       "Recu 12 500 Ar" = (pre ++ "12 500" ++ ws ++ String a (String r post))%string /\
       (ws = "" \/
        exists c, ws = String c "" /\ JsString.is_space c = true) /\
       JsString.eq_ci "A" a = true /\ JsString.eq_ci "r" r = true) /\
   (exists c g', "12 500" = String c g' /\ JsString.is_digit c = true) /\
   JsString.forallb (fun c => JsString.is_digit c || is_grouping c) "12 500"
     = true /\
   strip_separators "12 500" <> "" /\
   JsString.forallb JsString.is_digit (strip_separators "12 500") = true /\
   JsNumber.of_string (strip_separators "12 500") =
     JsNumber.of_Z (JsNumber.value_in 10 (strip_separators "12 500") 0)) /\
  run (handler (sms_incoming (SmsBody (Str "MVola") (Str "Bonjour"))))
      no_inputs initial = (initial, Done (Some (Status 200))).
Proof.
  destruct amount_extraction as (_ & Haccept & Hshape & Hnone).
  split; [|split].
  - destruct (Haccept "Paiement de " "12" [(" "%char, "500")] " " "A"%char
                      "r"%char " recu du (0321234567)"
                      eq_refl eq_refl eq_refl) as (Hm & Hn & Hh).
    destruct (Hh (Str "MVola") "0321234567" eq_refl eq_refl eq_refl)
      as (Hnone' & _).
    destruct (Haccept "Vous avez recu " "1" [(","%char, "000")] " " "A"%char
                      "r"%char " de (0321234567)"
                      eq_refl eq_refl eq_refl) as (_ & _ & Hh').
    destruct (Hh' (Str "MVola") "0321234567" eq_refl eq_refl eq_refl)
      as (_ & Hsome).
    split; [exact Hm|]. split; [exact Hn|].
    split.
    + apply Hnone'. vm_compute. reflexivity.
    + apply (Hsome (after one_intake)).
      * vm_compute. reflexivity.
      * discriminate.
      * vm_compute. reflexivity.
  - apply (Hshape "Recu 12 500 Ar" "12 500"). vm_compute. reflexivity.
  - apply (Hnone _ "Bonjour"); vm_compute; reflexivity.
Defined.
